(** * Oqoqo demo server: review orchestration, gap fixes and admin guard

    A shallow embedding of [src/index.ts], [src/gaps.ts] and
    [src/mappings.ts].  Pure helpers are Rocq functions; the request
    handlers run in a state-and-exception monad over a [World] that
    holds the in-memory review store, the counter, the access level and
    the trace of remote calls and broadcast events.

    Conventions.  The process environment, the remote service behind
    the Octokit client, the system clock and [parseInt] are parameters
    of the server.  Ids, pull-request numbers and times are integers;
    the sub-progress fractions of the analyzer are exact rationals.  A
    handler runs from its start to its end before the next one
    starts. *)

From Stdlib Require Import String Ascii List Sorted ZArith QArith Qround Bool Lia Lqa.
From Stdlib Require Import DecimalString.
Import ListNotations.

Local Open Scope string_scope.
Local Open Scope Z_scope.

(** ** JavaScript strings

    A JavaScript string is a sequence of code units; one [ascii] of a
    Rocq [string] stands for one code unit. *)

Module JsString.

Fixpoint drop (n : nat) (s : string) : string :=
  match n, s with
  | O, _ => s
  | S _, EmptyString => EmptyString
  | S n', String _ s' => drop n' s'
  end.

(** [split_first pat s] looks for the leftmost position at which
    [pat] occurs in [s] (as [String.prototype.indexOf] does) and
    returns the text on either side of that occurrence. *)
Fixpoint split_first (pat s : string) : option (string * string) :=
  if prefix pat s then Some (EmptyString, drop (String.length pat) s)
  else match s with
       | EmptyString => None
       | String c s' =>
           match split_first pat s' with
           | Some (pre, post) => Some (String c pre, post)
           | None => None
           end
       end.

(** [GetSubstitution] for a string pattern: there are no captures and
    no named groups, so only the four patterns below are special;
    every other character, a lone dollar sign included, is copied. *)
Fixpoint GetSubstitution (matched pre post replacement : string) : string :=
  match replacement with
  | EmptyString => EmptyString
  | String "$" (String "$" r) => String "$" (GetSubstitution matched pre post r)
  | String "$" (String "&" r) => matched ++ GetSubstitution matched pre post r
  | String "$" (String "`" r) => pre ++ GetSubstitution matched pre post r
  | String "$" (String "'" r) => post ++ GetSubstitution matched pre post r
  | String c r => String c (GetSubstitution matched pre post r)
  end.

(** [String.prototype.replace(pattern, replacement)] with both
    arguments strings: only the first occurrence is replaced. *)
Definition replace (pat replacement s : string) : string :=
  match split_first pat s with
  | Some (pre, post) => pre ++ GetSubstitution pat pre post replacement ++ post
  | None => s
  end.

(** [pat] occurs in [s] with [pre] in front of it and [post] behind. *)
Definition occurs_at (pat s pre post : string) : Prop :=
  s = pre ++ pat ++ post.

Definition occurs (pat s : string) : Prop :=
  exists pre post, occurs_at pat s pre post.

(** The occurrence after [pre] is the leftmost one. *)
Definition first_occurrence (pat s pre post : string) : Prop :=
  occurs_at pat s pre post /\
  forall pre' post', occurs_at pat s pre' post' ->
                     (String.length pre <= String.length pre')%nat.

(** A replacement text with none of the special dollar patterns. *)
Fixpoint plain_replacement (replacement : string) : bool :=
  match replacement with
  | EmptyString => true
  | String "$" (String "$" _) => false
  | String "$" (String "&" _) => false
  | String "$" (String "`" _) => false
  | String "$" (String "'" _) => false
  | String _ r => plain_replacement r
  end.

End JsString.

(** ** JavaScript objects used as dictionaries

    The own enumerable string-keyed properties of an object, in
    insertion order (the order [Object.keys] and [Object.entries]
    report for keys that are not array indices, which holds for every
    path used as a key here). *)

Definition JsObject (A : Type) : Type := list (string * A).

Fixpoint own_get {A} (k : string) (o : JsObject A) : option A :=
  match o with
  | [] => None
  | (k', v) :: o' => if String.eqb k k' then Some v else own_get k o'
  end.

(** [o[k] = v]: an existing key keeps its place, a new key goes last. *)
Fixpoint obj_set {A} (k : string) (v : A) (o : JsObject A) : JsObject A :=
  match o with
  | [] => [(k, v)]
  | (k', v') :: o' =>
      if String.eqb k k' then (k', v) :: o' else (k', v') :: obj_set k v o'
  end.

Definition keys {A} (o : JsObject A) : list string := map fst o.

(** Names every object literal inherits from [Object.prototype]; none
    of them is enumerable. *)
Definition Object_prototype_names : list string :=
  ["constructor"; "__proto__"; "hasOwnProperty"; "isPrototypeOf";
   "propertyIsEnumerable"; "toLocaleString"; "toString"; "valueOf";
   "__defineGetter__"; "__defineSetter__"; "__lookupGetter__";
   "__lookupSetter__"].

(** The result of the property read [o[k]] on an object literal. *)
Inductive Property (A : Type) : Type :=
| Own (v : A)
| Inherited
| Missing.
Arguments Own {A} v.
Arguments Inherited {A}.
Arguments Missing {A}.

Definition get {A} (k : string) (o : JsObject A) : Property A :=
  match own_get k o with
  | Some v => Own v
  | None =>
      if existsb (String.eqb k) Object_prototype_names then Inherited
      else Missing
  end.

Definition dq : string := String "034"%char EmptyString.

(** ** Documentation gaps ([src/gaps.ts]) *)

Module Gaps.

Inductive GapType := STALENESS | UNDOCUMENTED | OBSOLETE.
Inductive Severity := critical | high | medium | low.

Record SuggestedFix := {
  file : string;
  before : string;
  after : string
}.

Record DocGap := {
  id : string;
  gap_type : GapType;
  severity : Severity;
  doc_file : string;
  description : string;
  evidence : option string;
  suggested_fix : SuggestedFix
}.

Definition gap_001_before : string :=
  "## Rate Limiting

All endpoints are rate limited to **50 requests per minute** per API key. When exceeded, you'll receive a `429 Too Many Requests` response.

## Endpoints".

Definition gap_001_after : string :=
  "## Rate Limiting

All endpoints are rate limited to **100 requests per minute** per API key. When exceeded, you'll receive a `429 Too Many Requests` response with a `Retry-After` header indicating when you can retry.

## Endpoints".

Definition gap_002_before : string :=
  "### Webhook Service (New)

The Webhook Service handles outbound event notifications:

- Event queuing and retry logic
- Signature verification
- Delivery status tracking

## Data Flow".

Definition gap_002_after : string :=
  "### Webhook Service (New)

The Webhook Service handles outbound event notifications:

- Event queuing and retry logic
- Signature verification
- Delivery status tracking

### WebSocket Service

The WebSocket Service provides real-time updates to connected clients:

- Live event streaming for dashboard updates
- Connection management with automatic reconnection
- Event types: `ANALYZING_CHANGES`, `COMMITTED`, `PR_CREATED`, `PR_MERGED`

```javascript
// Connect to WebSocket for real-time updates
const ws = new WebSocket('wss://api.acme.io/ws');
ws.onmessage = (event) => {
  const data = JSON.parse(event.data);
  console.log('Event:', data.type);
};
```

## Data Flow".

Definition gap_003_before : string :=
  "### Common Errors

| Status | Error | Solution |
|--------|-------|----------|
| 400 | Invalid email format | Check the email address is valid |
| 401 | Unauthorized | Verify your API key is correct |
| 409 | Email already exists | Use a different email address |

## Fetching User Details".

Definition gap_003_after : string :=
  "### Common Errors

| Status | Code | Message | Solution |
|--------|------|---------|----------|
| 400 | `VALIDATION_ERROR` | Invalid email format | Check the email address is valid |
| 401 | `UNAUTHORIZED` | Missing or invalid API key | Verify your API key is correct |
| 409 | `CONFLICT` | Email already exists | Use a different email address |

All errors follow a consistent JSON format:

```json
{
  " ++ dq ++ "error" ++ dq ++ ": {
    " ++ dq ++ "code" ++ dq ++ ": " ++ dq ++ "VALIDATION_ERROR" ++ dq ++ ",
    " ++ dq ++ "message" ++ dq ++ ": " ++ dq ++ "Invalid email format" ++ dq ++ ",
    " ++ dq ++ "field" ++ dq ++ ": " ++ dq ++ "email" ++ dq ++ "
  }
}
```

## Fetching User Details".

Definition gap_004_before : string :=
  "| DELETE | `/users/:id` | Delete a user |

#### Example: List Users".

Definition gap_004_after : string :=
  "| DELETE | `/users/:id` | Delete a user |
| POST | `/users/batch` | Create multiple users |

#### Batch Operations

Create up to 100 users in a single request:

```bash
curl -X POST https://api.acme.io/v1/users/batch \
  -H " ++ dq ++ "Authorization: Bearer YOUR_API_KEY" ++ dq ++ " \
  -H " ++ dq ++ "Content-Type: application/json" ++ dq ++ " \
  -d '{
    " ++ dq ++ "users" ++ dq ++ ": [
      { " ++ dq ++ "email" ++ dq ++ ": " ++ dq ++ "user1@example.com" ++ dq ++ ", " ++ dq ++ "name" ++ dq ++ ": " ++ dq ++ "User 1" ++ dq ++ " },
      { " ++ dq ++ "email" ++ dq ++ ": " ++ dq ++ "user2@example.com" ++ dq ++ ", " ++ dq ++ "name" ++ dq ++ ": " ++ dq ++ "User 2" ++ dq ++ " }
    ]
  }'
```

#### Example: List Users".

Definition gap_005_before : string :=
  "## API Versioning

The API uses URL-based versioning. The current version is `v1`.

```
https://api.acme.io/v1/...
https://api.acme.io/v2/...  (coming soon)
```

**Version Lifecycle:**
- `v1` - Current stable version
- `v2` - Beta (breaking changes)
- Deprecated versions receive 12 months support".

Definition gap_005_after : string :=
  "## API Versioning

The API uses URL-based versioning. The current stable version is `v1`.

```
https://api.acme.io/v1/...
```

**Version Lifecycle:**
- `v1` - Current stable version (recommended)
- `v2` - In development, not yet available
- Deprecated versions are supported for 12 months after deprecation notice".

Definition PREDETERMINED_GAPS : list DocGap := [
  {| id := "gap_001";
     gap_type := STALENESS;
     severity := high;
     doc_file := "docs/getting-started.md";
     description := "Rate limit value differs between documentation and implementation";
     evidence := Some ("Documentation says 50 req/min but code defines RATE_LIMIT = 100");
     suggested_fix := {| file := "docs/getting-started.md";
                         before := gap_001_before;
                         after := gap_001_after |} |};
  {| id := "gap_002";
     gap_type := UNDOCUMENTED;
     severity := medium;
     doc_file := "docs/architecture.md";
     description := "WebSocket real-time updates feature is implemented but not documented";
     evidence := Some ("Found WebSocketServer in src/index.ts with event broadcasting");
     suggested_fix := {| file := "docs/architecture.md";
                         before := gap_002_before;
                         after := gap_002_after |} |};
  {| id := "gap_003";
     gap_type := STALENESS;
     severity := low;
     doc_file := "docs/how-to-guide.md";
     description := "Error response format in documentation uses old string format instead of new object format";
     evidence := Some ("Code returns { error: { code, message } } but docs show { error: " ++ dq ++ "string" ++ dq ++ " }");
     suggested_fix := {| file := "docs/how-to-guide.md";
                         before := gap_003_before;
                         after := gap_003_after |} |};
  {| id := "gap_004";
     gap_type := UNDOCUMENTED;
     severity := high;
     doc_file := "docs/getting-started.md";
     description := "Batch operations endpoint is available but not documented";
     evidence := Some ("POST /users/batch endpoint found in routes/users.ts");
     suggested_fix := {| file := "docs/getting-started.md";
                         before := gap_004_before;
                         after := gap_004_after |} |};
  {| id := "gap_005";
     gap_type := OBSOLETE;
     severity := low;
     doc_file := "docs/architecture.md";
     description := "Documentation references deprecated v0 API endpoint format";
     evidence := Some ("Found reference to /api/v0/ which was removed in latest release");
     suggested_fix := {| file := "docs/architecture.md";
                         before := gap_005_before;
                         after := gap_005_after |} |}
].

(** Get the full updated content for a file with a specific gap fix
    applied. *)
Definition applyGapFix (gap : DocGap) (currentContent : string) : string :=
  JsString.replace (before (suggested_fix gap)) (after (suggested_fix gap))
                   currentContent.

End Gaps.

(** ** Predetermined documentation updates ([src/mappings.ts]) *)

Module Mappings.

Definition initial_getting_started : string :=
  "---
sidebar_position: 1
---

# Getting Started

Welcome to the Acme API! This guide will help you get up and running quickly.

## Base URL

All API requests should be made to:

```
https://api.acme.io/v1
```

## Authentication

Include your API key in the Authorization header:

```bash
Authorization: Bearer YOUR_API_KEY
```

You can obtain an API key from your [dashboard](https://dashboard.acme.io/api-keys).

## Endpoints

### Users

Manage user accounts in your application.

| Method | Endpoint | Description |
|--------|----------|-------------|
| GET | `/users` | List all users |
| POST | `/users` | Create a new user |
| GET | `/users/:id` | Get a user by ID |

#### Example: List Users

```bash
curl -X GET https://api.acme.io/v1/users \
  -H " ++ dq ++ "Authorization: Bearer YOUR_API_KEY" ++ dq ++ "
```

Response:

```json
{
  " ++ dq ++ "data" ++ dq ++ ": [
    {
      " ++ dq ++ "id" ++ dq ++ ": " ++ dq ++ "usr_123" ++ dq ++ ",
      " ++ dq ++ "email" ++ dq ++ ": " ++ dq ++ "john@example.com" ++ dq ++ ",
      " ++ dq ++ "name" ++ dq ++ ": " ++ dq ++ "John Doe" ++ dq ++ ",
      " ++ dq ++ "created_at" ++ dq ++ ": " ++ dq ++ "2024-01-15T10:30:00Z" ++ dq ++ "
    }
  ],
  " ++ dq ++ "has_more" ++ dq ++ ": false
}
```

### Products

Manage your product catalog.

| Method | Endpoint | Description |
|--------|----------|-------------|
| GET | `/products` | List all products |
| POST | `/products` | Create a new product |
| GET | `/products/:id` | Get a product by ID |

#### Example: Create Product

```bash
curl -X POST https://api.acme.io/v1/products \
  -H " ++ dq ++ "Authorization: Bearer YOUR_API_KEY" ++ dq ++ " \
  -H " ++ dq ++ "Content-Type: application/json" ++ dq ++ " \
  -d '{
    " ++ dq ++ "name" ++ dq ++ ": " ++ dq ++ "Pro Plan" ++ dq ++ ",
    " ++ dq ++ "price" ++ dq ++ ": 99.00,
    " ++ dq ++ "currency" ++ dq ++ ": " ++ dq ++ "USD" ++ dq ++ "
  }'
```

## Next Steps

- Read the [Architecture Overview](./architecture) to understand our system
- Follow the [How-To Guide](./how-to-guide) for step-by-step tutorials
".

Definition initial_architecture : string :=
  "---
sidebar_position: 2
---

# Architecture Overview

The Acme platform is built on a modern microservices architecture designed for scalability and reliability.

## System Components

```
┌─────────────┐     ┌─────────────┐     ┌─────────────┐
│   API       │     │   Auth      │     │   Data      │
│   Gateway   │────▶│   Service   │────▶│   Service   │
└─────────────┘     └─────────────┘     └─────────────┘
      │                                        │
      │                                        ▼
      │                               ┌─────────────┐
      └──────────────────────────────▶│  PostgreSQL │
                                      └─────────────┘
```

## Services

### API Gateway

The API Gateway is the entry point for all client requests. It handles:

- Request routing
- Authentication verification
- Request/response logging

### Auth Service

The Auth Service manages user authentication and authorization:

- API key validation
- Session management
- Permission checks

### Data Service

The Data Service handles all database operations:

- User CRUD operations
- Product management
- Data validation

## Data Flow

1. Client sends request to API Gateway
2. Gateway validates authentication with Auth Service
3. Valid requests are routed to Data Service
4. Data Service performs database operations
5. Response flows back through the Gateway

## Technology Stack

| Component | Technology |
|-----------|------------|
| API Gateway | Node.js / Express |
| Auth Service | Node.js / Express |
| Data Service | Node.js / Express |
| Database | PostgreSQL |
| Cache | Redis |

## Deployment

All services are deployed on AWS using:

- ECS for container orchestration
- RDS for managed PostgreSQL
- ElastiCache for Redis
".

Definition initial_how_to_guide : string :=
  "---
sidebar_position: 3
---

# How-To Guide

Step-by-step tutorials for common tasks.

## Creating a User

This guide walks you through creating a new user via the API.

### Prerequisites

- An API key (get one from your [dashboard](https://dashboard.acme.io/api-keys))
- A tool for making HTTP requests (curl, Postman, etc.)

### Step 1: Prepare the Request

Create a JSON payload with the user details:

```json
{
  " ++ dq ++ "email" ++ dq ++ ": " ++ dq ++ "newuser@example.com" ++ dq ++ ",
  " ++ dq ++ "name" ++ dq ++ ": " ++ dq ++ "Jane Smith" ++ dq ++ "
}
```

### Step 2: Send the Request

Make a POST request to the users endpoint:

```bash
curl -X POST https://api.acme.io/v1/users \
  -H " ++ dq ++ "Authorization: Bearer YOUR_API_KEY" ++ dq ++ " \
  -H " ++ dq ++ "Content-Type: application/json" ++ dq ++ " \
  -d '{
    " ++ dq ++ "email" ++ dq ++ ": " ++ dq ++ "newuser@example.com" ++ dq ++ ",
    " ++ dq ++ "name" ++ dq ++ ": " ++ dq ++ "Jane Smith" ++ dq ++ "
  }'
```

### Step 3: Handle the Response

A successful request returns the created user:

```json
{
  " ++ dq ++ "id" ++ dq ++ ": " ++ dq ++ "usr_456" ++ dq ++ ",
  " ++ dq ++ "email" ++ dq ++ ": " ++ dq ++ "newuser@example.com" ++ dq ++ ",
  " ++ dq ++ "name" ++ dq ++ ": " ++ dq ++ "Jane Smith" ++ dq ++ ",
  " ++ dq ++ "created_at" ++ dq ++ ": " ++ dq ++ "2024-01-20T14:22:00Z" ++ dq ++ "
}
```

### Common Errors

| Status | Error | Solution |
|--------|-------|----------|
| 400 | Invalid email format | Check the email address is valid |
| 401 | Unauthorized | Verify your API key is correct |
| 409 | Email already exists | Use a different email address |

## Fetching User Details

To retrieve a specific user by ID:

```bash
curl -X GET https://api.acme.io/v1/users/usr_456 \
  -H " ++ dq ++ "Authorization: Bearer YOUR_API_KEY" ++ dq ++ "
```

## Listing All Users

To list all users in your account:

```bash
curl -X GET https://api.acme.io/v1/users \
  -H " ++ dq ++ "Authorization: Bearer YOUR_API_KEY" ++ dq ++ "
```

The response includes pagination info:

```json
{
  " ++ dq ++ "data" ++ dq ++ ": [...],
  " ++ dq ++ "has_more" ++ dq ++ ": true,
  " ++ dq ++ "next_cursor" ++ dq ++ ": " ++ dq ++ "cur_abc123" ++ dq ++ "
}
```
".

Definition updated_getting_started : string :=
  "---
sidebar_position: 1
---

# Getting Started

Welcome to the Acme API! This guide will help you get up and running quickly.

## Base URL

All API requests should be made to:

```
https://api.acme.io/v1
```

## Authentication

Include your API key in the Authorization header:

```bash
Authorization: Bearer YOUR_API_KEY
```

You can obtain an API key from your [dashboard](https://dashboard.acme.io/api-keys).

## Rate Limiting

All endpoints are rate limited to **100 requests per minute** per API key. When exceeded, you'll receive a `429 Too Many Requests` response.

## Endpoints

### Users

Manage user accounts in your application.

| Method | Endpoint | Description |
|--------|----------|-------------|
| GET | `/users` | List all users (paginated) |
| POST | `/users` | Create a new user |
| GET | `/users/:id` | Get a user by ID |
| PATCH | `/users/:id` | Update a user |
| DELETE | `/users/:id` | Delete a user |

#### Example: List Users

```bash
curl -X GET https://api.acme.io/v1/users \
  -H " ++ dq ++ "Authorization: Bearer YOUR_API_KEY" ++ dq ++ "
```

Response:

```json
{
  " ++ dq ++ "data" ++ dq ++ ": [
    {
      " ++ dq ++ "id" ++ dq ++ ": " ++ dq ++ "usr_123" ++ dq ++ ",
      " ++ dq ++ "email" ++ dq ++ ": " ++ dq ++ "john@example.com" ++ dq ++ ",
      " ++ dq ++ "name" ++ dq ++ ": " ++ dq ++ "John Doe" ++ dq ++ ",
      " ++ dq ++ "role" ++ dq ++ ": " ++ dq ++ "admin" ++ dq ++ ",
      " ++ dq ++ "created_at" ++ dq ++ ": " ++ dq ++ "2024-01-15T10:30:00Z" ++ dq ++ ",
      " ++ dq ++ "updated_at" ++ dq ++ ": " ++ dq ++ "2024-01-15T10:30:00Z" ++ dq ++ "
    }
  ],
  " ++ dq ++ "has_more" ++ dq ++ ": false,
  " ++ dq ++ "total" ++ dq ++ ": 1
}
```

#### Example: Update User

```bash
curl -X PATCH https://api.acme.io/v1/users/usr_123 \
  -H " ++ dq ++ "Authorization: Bearer YOUR_API_KEY" ++ dq ++ " \
  -H " ++ dq ++ "Content-Type: application/json" ++ dq ++ " \
  -d '{
    " ++ dq ++ "name" ++ dq ++ ": " ++ dq ++ "John Updated" ++ dq ++ ",
    " ++ dq ++ "role" ++ dq ++ ": " ++ dq ++ "member" ++ dq ++ "
  }'
```

#### Example: Delete User

```bash
curl -X DELETE https://api.acme.io/v1/users/usr_123 \
  -H " ++ dq ++ "Authorization: Bearer YOUR_API_KEY" ++ dq ++ "
```

### Products

Manage your product catalog.

| Method | Endpoint | Description |
|--------|----------|-------------|
| GET | `/products` | List all products |
| POST | `/products` | Create a new product |
| GET | `/products/:id` | Get a product by ID |

#### Example: Create Product

```bash
curl -X POST https://api.acme.io/v1/products \
  -H " ++ dq ++ "Authorization: Bearer YOUR_API_KEY" ++ dq ++ " \
  -H " ++ dq ++ "Content-Type: application/json" ++ dq ++ " \
  -d '{
    " ++ dq ++ "name" ++ dq ++ ": " ++ dq ++ "Pro Plan" ++ dq ++ ",
    " ++ dq ++ "price" ++ dq ++ ": 99.00,
    " ++ dq ++ "currency" ++ dq ++ ": " ++ dq ++ "USD" ++ dq ++ "
  }'
```

## Error Handling

All errors follow a consistent format:

```json
{
  " ++ dq ++ "error" ++ dq ++ ": {
    " ++ dq ++ "code" ++ dq ++ ": " ++ dq ++ "VALIDATION_ERROR" ++ dq ++ ",
    " ++ dq ++ "message" ++ dq ++ ": " ++ dq ++ "Invalid email format" ++ dq ++ ",
    " ++ dq ++ "field" ++ dq ++ ": " ++ dq ++ "email" ++ dq ++ "
  }
}
```

| Status | Code | Description |
|--------|------|-------------|
| 400 | VALIDATION_ERROR | Invalid request body |
| 401 | UNAUTHORIZED | Missing or invalid API key |
| 404 | NOT_FOUND | Resource not found |
| 429 | RATE_LIMITED | Too many requests |

## Next Steps

- Read the [Architecture Overview](./architecture) to understand our system
- Follow the [How-To Guide](./how-to-guide) for step-by-step tutorials
".

Definition updated_how_to_guide : string :=
  "---
sidebar_position: 3
---

# How-To Guide

Step-by-step tutorials for common tasks.

## Creating a User

This guide walks you through creating a new user via the API.

### Prerequisites

- An API key (get one from your [dashboard](https://dashboard.acme.io/api-keys))
- A tool for making HTTP requests (curl, Postman, etc.)

### Step 1: Prepare the Request

Create a JSON payload with the user details:

```json
{
  " ++ dq ++ "email" ++ dq ++ ": " ++ dq ++ "newuser@example.com" ++ dq ++ ",
  " ++ dq ++ "name" ++ dq ++ ": " ++ dq ++ "Jane Smith" ++ dq ++ ",
  " ++ dq ++ "role" ++ dq ++ ": " ++ dq ++ "member" ++ dq ++ "
}
```

**Available roles:** `admin`, `member`, `viewer`

### Step 2: Send the Request

Make a POST request to the users endpoint:

```bash
curl -X POST https://api.acme.io/v1/users \
  -H " ++ dq ++ "Authorization: Bearer YOUR_API_KEY" ++ dq ++ " \
  -H " ++ dq ++ "Content-Type: application/json" ++ dq ++ " \
  -d '{
    " ++ dq ++ "email" ++ dq ++ ": " ++ dq ++ "newuser@example.com" ++ dq ++ ",
    " ++ dq ++ "name" ++ dq ++ ": " ++ dq ++ "Jane Smith" ++ dq ++ ",
    " ++ dq ++ "role" ++ dq ++ ": " ++ dq ++ "member" ++ dq ++ "
  }'
```

### Step 3: Handle the Response

A successful request returns the created user:

```json
{
  " ++ dq ++ "id" ++ dq ++ ": " ++ dq ++ "usr_456" ++ dq ++ ",
  " ++ dq ++ "email" ++ dq ++ ": " ++ dq ++ "newuser@example.com" ++ dq ++ ",
  " ++ dq ++ "name" ++ dq ++ ": " ++ dq ++ "Jane Smith" ++ dq ++ ",
  " ++ dq ++ "role" ++ dq ++ ": " ++ dq ++ "member" ++ dq ++ ",
  " ++ dq ++ "created_at" ++ dq ++ ": " ++ dq ++ "2024-01-20T14:22:00Z" ++ dq ++ ",
  " ++ dq ++ "updated_at" ++ dq ++ ": " ++ dq ++ "2024-01-20T14:22:00Z" ++ dq ++ "
}
```

### Common Errors

| Status | Error | Solution |
|--------|-------|----------|
| 400 | Invalid email format | Check the email address is valid |
| 400 | Invalid role | Use one of: admin, member, viewer |
| 401 | Unauthorized | Verify your API key is correct |
| 409 | Email already exists | Use a different email address |
| 429 | Rate limited | Wait and retry after 60 seconds |

## Updating a User

To update an existing user:

```bash
curl -X PATCH https://api.acme.io/v1/users/usr_456 \
  -H " ++ dq ++ "Authorization: Bearer YOUR_API_KEY" ++ dq ++ " \
  -H " ++ dq ++ "Content-Type: application/json" ++ dq ++ " \
  -d '{
    " ++ dq ++ "name" ++ dq ++ ": " ++ dq ++ "Jane Smith-Jones" ++ dq ++ ",
    " ++ dq ++ "role" ++ dq ++ ": " ++ dq ++ "admin" ++ dq ++ "
  }'
```

Only include the fields you want to update.

## Deleting a User

To delete a user:

```bash
curl -X DELETE https://api.acme.io/v1/users/usr_456 \
  -H " ++ dq ++ "Authorization: Bearer YOUR_API_KEY" ++ dq ++ "
```

**Note:** This action is irreversible.

## Fetching User Details

To retrieve a specific user by ID:

```bash
curl -X GET https://api.acme.io/v1/users/usr_456 \
  -H " ++ dq ++ "Authorization: Bearer YOUR_API_KEY" ++ dq ++ "
```

## Listing All Users

To list all users in your account:

```bash
curl -X GET https://api.acme.io/v1/users \
  -H " ++ dq ++ "Authorization: Bearer YOUR_API_KEY" ++ dq ++ "
```

The response includes pagination info:

```json
{
  " ++ dq ++ "data" ++ dq ++ ": [...],
  " ++ dq ++ "has_more" ++ dq ++ ": true,
  " ++ dq ++ "total" ++ dq ++ ": 150,
  " ++ dq ++ "next_cursor" ++ dq ++ ": " ++ dq ++ "cur_abc123" ++ dq ++ "
}
```

Use the cursor for pagination:

```bash
curl -X GET " ++ dq ++ "https://api.acme.io/v1/users?cursor=cur_abc123" ++ dq ++ " \
  -H " ++ dq ++ "Authorization: Bearer YOUR_API_KEY" ++ dq ++ "
```
".

Definition DEMO_CODE_BEFORE : string :=
  "import { Router } from 'express';

const router = Router();

// In-memory storage for demo
const users: Array<{ id: string; email: string; name: string; created_at: string }> = [
  { id: 'usr_123', email: 'john@example.com', name: 'John Doe', created_at: '2024-01-15T10:30:00Z' }
];

// GET /users - List all users
router.get('/', (req, res) => {
  res.json({
    data: users,
    has_more: false
  });
});

// POST /users - Create a user
router.post('/', (req, res) => {
  const { email, name } = req.body;
  const newUser = {
    id: `usr_${Date.now()}`,
    email,
    name,
    created_at: new Date().toISOString()
  };
  users.push(newUser);
  res.status(201).json(newUser);
});

// GET /users/:id - Get user by ID
router.get('/:id', (req, res) => {
  const user = users.find(u => u.id === req.params.id);
  if (!user) {
    return res.status(404).json({ error: 'User not found' });
  }
  res.json(user);
});

export default router;
".

Definition DEMO_CODE_AFTER : string :=
  "import { Router } from 'express';

const router = Router();

// In-memory storage for demo
const users: Array<{ id: string; email: string; name: string; role: string; created_at: string; updated_at: string }> = [
  { id: 'usr_123', email: 'john@example.com', name: 'John Doe', role: 'admin', created_at: '2024-01-15T10:30:00Z', updated_at: '2024-01-15T10:30:00Z' }
];

// Rate limiting (simple in-memory)
const requestCounts = new Map<string, { count: number; resetAt: number }>();
const RATE_LIMIT = 100;
const RATE_WINDOW = 60000; // 1 minute

const checkRateLimit = (apiKey: string): boolean => {
  const now = Date.now();
  const record = requestCounts.get(apiKey);

  if (!record || now > record.resetAt) {
    requestCounts.set(apiKey, { count: 1, resetAt: now + RATE_WINDOW });
    return true;
  }

  if (record.count >= RATE_LIMIT) {
    return false;
  }

  record.count++;
  return true;
};

// GET /users - List all users (paginated)
router.get('/', (req, res) => {
  res.json({
    data: users,
    has_more: false,
    total: users.length
  });
});

// POST /users - Create a user
router.post('/', (req, res) => {
  const { email, name, role = 'member' } = req.body;
  const now = new Date().toISOString();
  const newUser = {
    id: `usr_${Date.now()}`,
    email,
    name,
    role,
    created_at: now,
    updated_at: now
  };
  users.push(newUser);
  res.status(201).json(newUser);
});

// GET /users/:id - Get user by ID
router.get('/:id', (req, res) => {
  const user = users.find(u => u.id === req.params.id);
  if (!user) {
    return res.status(404).json({ error: { code: 'NOT_FOUND', message: 'User not found' } });
  }
  res.json(user);
});

// PATCH /users/:id - Update a user
router.patch('/:id', (req, res) => {
  const user = users.find(u => u.id === req.params.id);
  if (!user) {
    return res.status(404).json({ error: { code: 'NOT_FOUND', message: 'User not found' } });
  }

  const { name, role } = req.body;
  if (name) user.name = name;
  if (role) user.role = role;
  user.updated_at = new Date().toISOString();

  res.json(user);
});

// DELETE /users/:id - Delete a user
router.delete('/:id', (req, res) => {
  const index = users.findIndex(u => u.id === req.params.id);
  if (index === -1) {
    return res.status(404).json({ error: { code: 'NOT_FOUND', message: 'User not found' } });
  }

  users.splice(index, 1);
  res.status(204).send();
});

export default router;
".

Definition INITIAL_DOCS : JsObject string := [
  ("docs/getting-started.md", initial_getting_started);
  ("docs/architecture.md", initial_architecture);
  ("docs/how-to-guide.md", initial_how_to_guide)
].

(** When users.ts is modified, this is the new content. *)
Definition UPDATE_MAPPINGS : JsObject (JsObject string) := [
  ("src/routes/users.ts",
   [("docs/getting-started.md", updated_getting_started);
    ("docs/how-to-guide.md", updated_how_to_guide)])
].

End Mappings.

(** ** The server ([src/index.ts]): data *)

Import Gaps Mappings.

Definition show_Z (z : Z) : string := NilZero.string_of_int (Z.to_int z).
Definition show_nat (n : nat) : string := NilZero.string_of_uint (Nat.to_uint n).

(** [Array.prototype.join]. *)
Fixpoint join (sep : string) (l : list string) : string :=
  match l with
  | [] => ""
  | [x] => x
  | x :: l' => x ++ sep ++ join sep l'
  end.

(** [a || b] on strings: the empty string is falsy. *)
Definition or_else (a : option string) (b : string) : string :=
  match a with
  | Some s => if String.eqb s "" then b else s
  | None => b
  end.

Definition newline : string := String "010"%char EmptyString.

(** *** Pending reviews *)

Inductive ReviewStatus := pending | approved | merged.

Record FileChange := {
  before : string;
  after : string
}.

Record Review := {
  id : Z;
  prNumber : option Z;
  prUrl : option string;
  branch : option string;
  files : JsObject FileChange;
  status : ReviewStatus;
  createdAt : Z
}.

(** A [Map<number, Review>]: entries in insertion order, one per key. *)
Definition ReviewMap : Type := list (Z * Review).

Fixpoint map_get (k : Z) (m : ReviewMap) : option Review :=
  match m with
  | [] => None
  | (k', r) :: m' => if Z.eqb k k' then Some r else map_get k m'
  end.

Fixpoint map_set (k : Z) (r : Review) (m : ReviewMap) : ReviewMap :=
  match m with
  | [] => [(k, r)]
  | (k', r') :: m' =>
      if Z.eqb k k' then (k', r) :: m' else (k', r') :: map_set k r m'
  end.

Definition map_values (m : ReviewMap) : list Review := map snd m.
Definition map_keys (m : ReviewMap) : list Z := map fst m.

(** *** The remote repository service

    Every request made through the Octokit client, with the arguments
    the code passes.  File content is recorded as the text itself; on
    the wire it travels base64-encoded. *)

Inductive Call :=
| repos_getContent (owner repo path ref : string)
| repos_createOrUpdateFileContents
    (owner repo path message content : string) (sha : option string)
    (branch : string)
| git_getRef (owner repo ref : string)
| git_createRef (owner repo ref sha : string)
| git_deleteRef (owner repo ref : string)
| pulls_create (owner repo title head base body : string)
| pulls_merge (owner repo : string) (pull_number : Z) (merge_method : string)
| pulls_list (owner repo state : string)
| pulls_update (owner repo : string) (pull_number : Z) (state : string).

(** What [repos.getContent] resolves to, as far as the code looks at
    it: [sha] when the data has one (a directory listing has none), and
    the encoding with the decoded text when the data has content. *)
Record ContentData := {
  sha : option string;
  content : option (string * string)
}.

Record PullRequest := {
  number : Z;
  html_url : string
}.

(** The data each call resolves to. *)
Definition Data (c : Call) : Type :=
  match c with
  | repos_getContent _ _ _ _ => ContentData
  | git_getRef _ _ _ => string
  | pulls_create _ _ _ _ _ _ => PullRequest
  | pulls_list _ _ _ => list PullRequest
  | _ => unit
  end.

(** The trace of calls made so far, each with whether it resolved. *)
Definition CallLog : Type := list (Call * bool).

(** The remote service: given what was asked of it before, a call
    either rejects with a message or resolves to its data. *)
Definition Remote : Type := CallLog -> forall c : Call, string + Data c.

(** *** Broadcast events *)

Inductive Event :=
| ANALYZING_CHANGES (files : list string)
| COMMITTING (file : string)
| COMMITTED (file : string)
| DEPLOYMENT_STARTED
| NO_UPDATES_NEEDED
| BRANCH_CREATED (branch : string)
| PR_CREATED (prNumber : Z) (prUrl : string)
| PR_MERGED (prNumber : Z)
| REVIEW_UPDATED (reviewId : Z) (file : string)
| WEBHOOK_RECEIVED (changed_files : option string)
| DEMO_STARTED
| CODE_PUSHED (file : string)
| RESET_STARTED
| PR_CLOSED (prNumber : Z)
| DEMO_RESET
| ACCESS_LEVEL_CHANGED (level : string)
| ANALYSIS_STARTED
| ANALYSIS_COMPLETE (gapCount : nat)
| FIX_STARTED (gapCount : nat)
| FILE_COMMITTED (file : string)
| FIX_ERROR (error : string).

(** *** Module state and trace

    [pendingReviews], [reviewIdCounter] and [accessLevel] are the
    module-level variables of the server.  [calls] and [events] record
    what the server did to the outside: the remote calls in order, and
    every broadcast with its timestamp.  [clock_reads] counts the reads
    of the system clock.  [issued] is a history variable with no
    counterpart in the code: the ids handed out by
    [reviewIdCounter++], oldest first, with a mark wherever the store
    was cleared. *)

Inductive IdEvent := Issued (id : Z) | Cleared.

Record World := {
  pendingReviews : ReviewMap;
  reviewIdCounter : Z;
  accessLevel : string;
  calls : CallLog;
  events : list (Event * Z);
  clock_reads : nat;
  issued : list IdEvent
}.

(** ** The handler monad

    An [async] function either returns a value or throws; either way
    the changes it made to the world stay. *)

Inductive Outcome (A : Type) : Type :=
| Returned (a : A)
| Thrown (message : string).
Arguments Returned {A} a.
Arguments Thrown {A} message.

Definition M (A : Type) : Type := World -> Outcome A * World.

Definition ret {A} (a : A) : M A := fun w => (Returned a, w).

Definition bind {A B} (m : M A) (k : A -> M B) : M B :=
  fun w =>
    match m w with
    | (Returned a, w') => k a w'
    | (Thrown e, w') => (Thrown e, w')
    end.

Definition throw {A} (message : string) : M A := fun w => (Thrown message, w).

(** [try { m } catch (error) { handler(error.message) }]. *)
Definition try_catch {A} (m : M A) (handler : string -> M A) : M A :=
  fun w =>
    match m w with
    | (Returned a, w') => (Returned a, w')
    | (Thrown e, w') => handler e w'
    end.

Declare Scope monad_scope.
Delimit Scope monad_scope with monad.
Notation "x <- m ;; k" := (bind m (fun x => k))
  (at level 100, m at next level, right associativity) : monad_scope.
Notation "m ;; k" := (bind m (fun _ => k))
  (at level 100, right associativity) : monad_scope.
Local Open Scope monad_scope.

(** [for (const x of l) { body(x) }]. *)
Fixpoint for_each {A} (l : list A) (body : A -> M unit) : M unit :=
  match l with
  | [] => ret tt
  | x :: l' => body x ;; for_each l' body
  end.

Definition gets {A} (f : World -> A) : M A := fun w => (Returned (f w), w).

Definition set_pendingReviews (m : ReviewMap) : M unit := fun w =>
  (Returned tt,
   {| pendingReviews := m; reviewIdCounter := reviewIdCounter w;
      accessLevel := accessLevel w; calls := calls w; events := events w;
      clock_reads := clock_reads w; issued := issued w |}).

Definition set_accessLevel (level : string) : M unit := fun w =>
  (Returned tt,
   {| pendingReviews := pendingReviews w; reviewIdCounter := reviewIdCounter w;
      accessLevel := level; calls := calls w; events := events w;
      clock_reads := clock_reads w; issued := issued w |}).

(** [reviewIdCounter++]: the value before the increment. *)
Definition next_review_id : M Z := fun w =>
  (Returned (reviewIdCounter w),
   {| pendingReviews := pendingReviews w;
      reviewIdCounter := reviewIdCounter w + 1;
      accessLevel := accessLevel w; calls := calls w; events := events w;
      clock_reads := clock_reads w;
      issued := (issued w ++ [Issued (reviewIdCounter w)])%list |}).

(** [pendingReviews.set(review.id, review)]. *)
Definition store_review (review : Review) : M unit := fun w =>
  (Returned tt,
   {| pendingReviews := map_set (id review) review (pendingReviews w);
      reviewIdCounter := reviewIdCounter w;
      accessLevel := accessLevel w; calls := calls w; events := events w;
      clock_reads := clock_reads w; issued := issued w |}).

(** [pendingReviews.clear(); reviewIdCounter = 1]. *)
Definition clear_reviews : M unit := fun w =>
  (Returned tt,
   {| pendingReviews := []; reviewIdCounter := 1;
      accessLevel := accessLevel w; calls := calls w; events := events w;
      clock_reads := clock_reads w; issued := (issued w ++ [Cleared])%list |}).

Definition log_call (c : Call) (resolved : bool) (w : World) : World :=
  {| pendingReviews := pendingReviews w; reviewIdCounter := reviewIdCounter w;
     accessLevel := accessLevel w; calls := (calls w ++ [(c, resolved)])%list;
     events := events w; clock_reads := clock_reads w; issued := issued w |}.

Definition log_event (e : Event) (t : Z) (w : World) : World :=
  {| pendingReviews := pendingReviews w; reviewIdCounter := reviewIdCounter w;
     accessLevel := accessLevel w; calls := calls w;
     events := (events w ++ [(e, t)])%list; clock_reads := clock_reads w;
     issued := issued w |}.

Definition tick (w : World) : World :=
  {| pendingReviews := pendingReviews w; reviewIdCounter := reviewIdCounter w;
     accessLevel := accessLevel w; calls := calls w; events := events w;
     clock_reads := S (clock_reads w); issued := issued w |}.

(** ** Requests and responses *)

(** A JSON value of a request body. *)
Unset Elimination Schemes.
Inductive Json :=
| JNull
| JBool (b : bool)
| JNum (q : Q)
| JStr (s : string)
| JArr (elements : list Json)
| JObj (properties : list (string * Json)).
Set Elimination Schemes.

(** Summary counts of an analysis. *)
Record BySeverity := {
  count_critical : nat;
  count_high : nat;
  count_medium : nat;
  count_low : nat
}.

Record ByType := {
  count_STALENESS : nat;
  count_UNDOCUMENTED : nat;
  count_OBSOLETE : nat
}.

Record Summary := {
  total : nat;
  by_severity : BySeverity;
  by_type : ByType
}.

Record AnalysisResult := {
  gaps : list DocGap;
  timestamp : Z;
  summary : Summary
}.

(** One server-sent event of [/analyze/stream]. *)
Inductive SSE :=
| sse_progress (step totalSteps : Z) (stepName detail : string) (percent : Z)
| sse_log (message : string)
| sse_result (result : AnalysisResult)
| sse_done
| sse_error (message : string).

(** The JSON bodies the routes send. *)
Inductive Body :=
| error_body (error : string)
| success_body
| success_message_body (message : string)
| status_body (accessLevel : string) (pendingReviews : nat)
              (docsRepo productRepo : string)
| reviews_body (reviews : list Review)
| review_body (review : Review)
| triggered_body (accessLevel : string)
| accessLevel_body (accessLevel : string)
| analysis_body (result : AnalysisResult)
| fix_gaps_body (prNumber : Z) (prUrl : string) (fixedGaps filesUpdated : nat)
| event_stream_body (sent : list SSE).

Record Response := {
  status_code : Z;
  body : Body
}.

Definition json (b : Body) : M Response :=
  ret {| status_code := 200; body := b |}.

Definition status_json (code : Z) (b : Body) : M Response :=
  ret {| status_code := code; body := b |}.

(** What the server can be asked to do.  Header and body fields are
    [None] when absent; apart from [gapIds], a field that is present is
    taken to be a string.  [trigger_timeout] is the callback that
    [/trigger] schedules with [setTimeout]. *)
Inductive Request :=
| GET_status
| GET_reviews
| GET_review (id : string)
| POST_review_approve (authorization : option string) (id : string)
| POST_review_edit (authorization : option string) (id : string)
                   (file content : option string)
| POST_webhook (x_webhook_secret : option string)
               (changed_files : option string)
| POST_trigger (authorization : option string)
| trigger_timeout
| POST_reset (authorization : option string)
| POST_access_level (authorization : option string) (level : option string)
| GET_analyze (authorization : option string)
| GET_analyze_stream (authorization : option string)
| POST_fix_gaps (authorization : option string) (gapIds : option Json).

(** JavaScript truthiness of an optional JSON value. *)
Definition truthy (v : option Json) : bool :=
  match v with
  | None => false
  | Some JNull => false
  | Some (JBool b) => b
  | Some (JNum q) => negb (Qeq_bool q 0)
  | Some (JStr s) => negb (String.eqb s "")
  | Some (JArr _) => true
  | Some (JObj _) => true
  end.

(** [Array.isArray(v)]. *)
Definition isArray (v : option Json) : bool :=
  match v with
  | Some (JArr _) => true
  | _ => false
  end.

(** The elements of an array; nothing for any other value. *)
Definition elements_of (v : option Json) : list Json :=
  match v with
  | Some (JArr elements) => elements
  | _ => []
  end.

(** [gapIds.includes(id)] for a string [id]. *)
Definition includes (elements : list Json) (id : string) : bool :=
  existsb (fun e => match e with JStr s => String.eqb s id | _ => false end)
          elements.

(** [s.split(',')]. *)
Fixpoint split_comma (s : string) : list string :=
  match s with
  | EmptyString => [""]
  | String c s' =>
      if Ascii.eqb c ","%char then "" :: split_comma s'
      else match split_comma s' with
           | [] => [String c ""]
           | x :: l => String c x :: l
           end
  end.

Definition nonempty (s : string) : bool := negb (String.eqb s "").

(** [s.substring(0, n)]. *)
Fixpoint take (n : nat) (s : string) : string :=
  match n, s with
  | O, _ => ""
  | S _, EmptyString => ""
  | S n', String c s' => String c (take n' s')
  end.

(** [s.repeat(n)]. *)
Fixpoint repeat_string (s : string) (n : nat) : string :=
  match n with
  | O => ""
  | S n' => s ++ repeat_string s n'
  end.

(** ** Sample environments

    Concrete surroundings on which the server can be run: a
    configuration, remote services of differing reliability, a clock
    and a decimal [parseInt]. *)

(** No variable set: every setting takes its default. *)
Definition default_env : string -> option string := fun _ => None.

(** An environment with an admin secret. *)
Definition secured_env : string -> option string := fun name =>
  if String.eqb name "ADMIN_SECRET" then Some "s3cret" else None.

Definition is_pulls_create (entry : Call * bool) : bool :=
  match fst entry with
  | pulls_create _ _ _ _ _ _ => true
  | _ => false
  end.

(** A service on which every call resolves; pull requests are numbered
    in the order they are opened. *)
Definition reliable_octokit : Remote := fun history c =>
  match c as c0 return string + Data c0 with
  | repos_getContent _ _ _ _ =>
      inr {| sha := Some "3b18e512dba79e4c8300dd08aeb37f8e728b8dad";
             content := Some ("base64", "# Documentation") |}
  | repos_createOrUpdateFileContents _ _ _ _ _ _ _ => inr tt
  | git_getRef _ _ _ => inr "a94a8fe5ccb19ba61c4c0873d391e987982fbbd3"
  | git_createRef _ _ _ _ => inr tt
  | git_deleteRef _ _ _ => inr tt
  | pulls_create _ _ _ _ _ _ =>
      let n := 1 + Z.of_nat (List.length (filter is_pulls_create history)) in
      inr {| number := n;
             html_url := "https://github.com/haritha1313/oqoqo-demo-docs/pull/"
                         ++ show_Z n |}
  | pulls_merge _ _ _ _ => inr tt
  | pulls_list _ _ _ => inr []
  | pulls_update _ _ _ _ => inr tt
  end.

(** The same service, except that the content of
    [docs/getting-started.md] cannot be fetched. *)
Definition partial_octokit : Remote := fun history c =>
  match c as c0 return string + Data c0 with
  | repos_getContent owner repo path ref =>
      if String.eqb path "docs/getting-started.md" then inl "Not Found"
      else reliable_octokit history (repos_getContent owner repo path ref)
  | c' => reliable_octokit history c'
  end.

(** A service that cannot be reached. *)
Definition unreachable_octokit : Remote := fun _ _ => inl "connect ECONNREFUSED".

Definition sample_clock : nat -> Z := fun k => 1700000000000 + Z.of_nat k.

Definition digit (c : ascii) : option Z :=
  let n := Z.of_nat (nat_of_ascii c) in
  if (48 <=? n) && (n <=? 57) then Some (n - 48) else None.

Fixpoint leading_digits (acc : option Z) (s : string) : option Z :=
  match s with
  | EmptyString => acc
  | String c s' =>
      match digit c with
      | Some d =>
          leading_digits
            (Some (10 * match acc with Some a => a | None => 0 end + d)) s'
      | None => acc
      end
  end.

(** [parseInt] on text that starts with decimal digits, [NaN]
    otherwise. *)
Definition decimal_parseInt (s : string) : option Z := leading_digits None s.

(** A gap with a plain replacement text, and one whose replacement
    text holds a dollar pattern. *)
Definition plain_gap : DocGap :=
  {| Gaps.id := "gap_rate";
     Gaps.gap_type := STALENESS;
     Gaps.severity := high;
     Gaps.doc_file := "docs/getting-started.md";
     Gaps.description := "Rate limit value differs";
     Gaps.evidence := None;
     Gaps.suggested_fix :=
       {| Gaps.file := "docs/getting-started.md";
          Gaps.before := "50 requests";
          Gaps.after := "100 requests" |} |}.


(** A review that was never given a pull request, and a world whose
    store holds it. *)
Definition orphan_review : Review :=
  {| id := 7;
     prNumber := None;
     prUrl := None;
     branch := None;
     files := [("docs/getting-started.md",
                {| before := "old"; after := "new" |})];
     status := pending;
     createdAt := 1700000000000 |}.

Definition orphan_world : World :=
  {| pendingReviews := [(7, orphan_review)];
     reviewIdCounter := 8;
     accessLevel := "medium";
     calls := [];
     events := [];
     clock_reads := 0;
     issued := [] |}.

(** A webhook delivery, with the right secret, for the demo change. *)
Definition users_webhook : Request :=
  POST_webhook (Some "demo-secret") (Some "src/routes/users.ts").

(** A review with an open pull request, and a world whose store holds
    it. *)
Definition open_review : Review :=
  {| id := 3;
     prNumber := Some 12;
     prUrl := Some "https://github.com/haritha1313/oqoqo-demo-docs/pull/12";
     branch := Some "docs-update-1700000000000";
     files := [("docs/getting-started.md",
                {| before := "old"; after := "new" |})];
     status := pending;
     createdAt := 1700000000000 |}.

Definition open_world : World :=
  {| pendingReviews := [(3, open_review)];
     reviewIdCounter := 4;
     accessLevel := "medium";
     calls := [];
     events := [];
     clock_reads := 0;
     issued := [Issued 1; Issued 2; Issued 3] |}.

(** The reliable service with two pull requests open. *)
Definition busy_octokit : Remote := fun history c =>
  match c as c0 return string + Data c0 with
  | pulls_list _ _ _ =>
      inr [{| number := 4;
              html_url := "https://github.com/haritha1313/oqoqo-demo-docs/pull/4" |};
           {| number := 7;
              html_url := "https://github.com/haritha1313/oqoqo-demo-docs/pull/7" |}]
  | c' => reliable_octokit history c'
  end.

(** The content the reliable service gives for every file. *)
Definition sample_docs : string -> string := fun _ => "# Documentation".

(** ** The server ([src/index.ts]): behaviour *)

Section Server.

Set Default Proof Using "Type".

(** [process.env]. *)
Variable process_env : string -> option string.
(** The service behind the Octokit client. *)
Variable octokit : Remote.
(** The system clock: what its k-th read returns, in milliseconds. *)
Variable clock : nat -> Z.
(** The built-in [parseInt]; [None] stands for [NaN]. *)
Variable parseInt : string -> option Z.

Definition DOCS_REPO_OWNER : string :=
  or_else (process_env "DOCS_REPO_OWNER") "haritha1313".
Definition DOCS_REPO : string :=
  or_else (process_env "DOCS_REPO") "oqoqo-demo-docs".
Definition PRODUCT_REPO_OWNER : string :=
  or_else (process_env "PRODUCT_REPO_OWNER") "haritha1313".
Definition PRODUCT_REPO : string :=
  or_else (process_env "PRODUCT_REPO") "oqoqo-demo-product".
Definition WEBHOOK_SECRET : string :=
  or_else (process_env "WEBHOOK_SECRET") "demo-secret".
Definition ADMIN_SECRET : string := or_else (process_env "ADMIN_SECRET") "".

(** The state the module starts in. *)
Definition initial_world : World :=
  {| pendingReviews := [];
     reviewIdCounter := 1;
     accessLevel := or_else (process_env "AGENT_ACCESS_LEVEL") "medium";
     calls := [];
     events := [];
     clock_reads := 0;
     issued := [] |}.

(** [Date.now()] and [new Date()]. *)
Definition now : M Z := fun w => (Returned (clock (clock_reads w)), tick w).

(** Every connected client receives the event with its timestamp. *)
Definition broadcast (event : Event) : M unit :=
  t <- now ;;
  fun w => (Returned tt, log_event event t w).

(** [await octokit.<call>]. *)
Definition request (c : Call) : M (Data c) := fun w =>
  match octokit (calls w) c with
  | inr data => (Returned data, log_call c true w)
  | inl message => (Thrown message, log_call c false w)
  end.

(** Auth middleware for protected routes. *)
Definition requireAdmin (authorization : option string) (next : M Response)
  : M Response :=
  if String.eqb ADMIN_SECRET "" then next
  else
    match authorization with
    | None => status_json 401 (error_body "Unauthorized")
    | Some authHeader =>
        if String.eqb authHeader ""
           || negb (String.eqb authHeader ("Bearer " ++ ADMIN_SECRET))
        then status_json 401 (error_body "Unauthorized")
        else next
    end.

(** Helper: get file SHA from GitHub. *)
Definition getFileSha (owner repo path ref : string) : M (option string) :=
  try_catch
    (data <- request (repos_getContent owner repo path ref) ;;
     ret (sha data))
    (fun _ => ret None).

(** Helper: commit file to repo.  [sha || undefined]. *)
Definition commitFile (owner repo path content message branch : string)
  : M unit :=
  sha <- getFileSha owner repo path branch ;;
  request (repos_createOrUpdateFileContents owner repo path message content
             (match sha with
              | Some s => if String.eqb s "" then None else Some s
              | None => None
              end)
             branch).

(** HIGH ACCESS: auto-commit directly to main. *)
Definition handleHighAccess (changedFiles : list string) : M unit :=
  broadcast (ANALYZING_CHANGES changedFiles) ;;
  for_each changedFiles (fun file =>
    match get file UPDATE_MAPPINGS with
    | Own updates =>
        for_each updates (fun '(docPath, newContent) =>
          broadcast (COMMITTING docPath) ;;
          commitFile DOCS_REPO_OWNER DOCS_REPO docPath newContent
            ("docs: auto-update " ++ docPath ++ " based on code changes")
            "main" ;;
          broadcast (COMMITTED docPath))
    | Inherited => ret tt
    | Missing => ret tt
    end) ;;
  broadcast DEPLOYMENT_STARTED.

(** The first loop of [handleMediumAccess]: the documentation updates
    of all changed files, gathered in one object. *)
Definition collect_updates (changedFiles : list string) : JsObject FileChange :=
  fold_left (fun updates file =>
    match get file UPDATE_MAPPINGS with
    | Own fileUpdates =>
        fold_left (fun updates '(docPath, newContent) =>
          obj_set docPath
            {| before := or_else (own_get docPath INITIAL_DOCS) "";
               after := newContent |}
            updates) fileUpdates updates
    | Inherited => updates
    | Missing => updates
    end) changedFiles [].

Definition review_pr_body (updates : JsObject FileChange) : string :=
  "## Automated Documentation Update

This PR was automatically generated based on code changes.

### Files Updated
" ++ join newline (map (fun f => "- `" ++ f ++ "`") (keys updates)) ++ "

---
Generated by Oqoqo Demo".

(** MEDIUM ACCESS: create PR for review. *)
Definition handleMediumAccess (changedFiles : list string) : M (option Review) :=
  broadcast (ANALYZING_CHANGES changedFiles) ;;
  let updates := collect_updates changedFiles in
  match updates with
  | [] => broadcast NO_UPDATES_NEEDED ;; ret None
  | _ :: _ =>
      t <- now ;;
      let branchName := "docs-update-" ++ show_Z t in
      refData <- request (git_getRef DOCS_REPO_OWNER DOCS_REPO "heads/main") ;;
      request (git_createRef DOCS_REPO_OWNER DOCS_REPO
                 ("refs/heads/" ++ branchName) refData) ;;
      broadcast (BRANCH_CREATED branchName) ;;
      for_each updates (fun '(docPath, change) =>
        commitFile DOCS_REPO_OWNER DOCS_REPO docPath (after change)
          ("docs: update " ++ docPath) branchName) ;;
      pr <- request (pulls_create DOCS_REPO_OWNER DOCS_REPO
                       "docs: update documentation based on code changes"
                       branchName "main" (review_pr_body updates)) ;;
      broadcast (PR_CREATED (number pr) (html_url pr)) ;;
      id <- next_review_id ;;
      createdAt <- now ;;
      let review :=
        {| id := id;
           prNumber := Some (number pr);
           prUrl := Some (html_url pr);
           branch := Some branchName;
           files := updates;
           status := pending;
           createdAt := createdAt |} in
      store_review review ;;
      ret (Some review)
  end.

(** *** Routes *)

(** [pendingReviews.get(parseInt(req.params.id))]; [NaN] is no key. *)
Definition find_review (id_param : string) (w : World) : option (Z * Review) :=
  match parseInt id_param with
  | Some k =>
      match map_get k (pendingReviews w) with
      | Some review => Some (k, review)
      | None => None
      end
  | None => None
  end.

Definition get_status : M Response :=
  level <- gets accessLevel ;;
  reviews <- gets pendingReviews ;;
  json (status_body level (List.length reviews)
          (DOCS_REPO_OWNER ++ "/" ++ DOCS_REPO)
          (PRODUCT_REPO_OWNER ++ "/" ++ PRODUCT_REPO)).

Definition is_pending (r : Review) : bool :=
  match status r with
  | pending => true
  | _ => false
  end.

Definition get_reviews : M Response :=
  reviews <- gets pendingReviews ;;
  json (reviews_body (filter is_pending (map_values reviews))).

Definition get_review (id_param : string) : M Response :=
  found <- gets (find_review id_param) ;;
  match found with
  | None => status_json 404 (error_body "Review not found")
  | Some (_, review) => json (review_body review)
  end.

Definition with_status (s : ReviewStatus) (r : Review) : Review :=
  {| id := id r; prNumber := prNumber r; prUrl := prUrl r;
     branch := branch r; files := files r; status := s;
     createdAt := createdAt r |}.

Definition with_files (f : JsObject FileChange) (r : Review) : Review :=
  {| id := id r; prNumber := prNumber r; prUrl := prUrl r;
     branch := branch r; files := f; status := status r;
     createdAt := createdAt r |}.

(** An assignment to a field of the review object held in the map
    under key [k]. *)
Definition update_review (k : Z) (f : Review -> Review) : M unit :=
  reviews <- gets pendingReviews ;;
  match map_get k reviews with
  | Some r => set_pendingReviews (map_set k (f r) reviews)
  | None => ret tt
  end.

(** The branch name as a template literal prints it. *)
Definition branch_text (r : Review) : string :=
  match branch r with
  | Some b => b
  | None => "undefined"
  end.

Definition post_review_approve (authorization : option string) (id_param : string)
  : M Response :=
  requireAdmin authorization
    (found <- gets (find_review id_param) ;;
     match found with
     | None => status_json 404 (error_body "Review not found")
     | Some (k, review) =>
         match prNumber review with
         | None => status_json 400 (error_body "No PR associated with this review")
         | Some 0 => status_json 400 (error_body "No PR associated with this review")
         | Some pull_number =>
             try_catch
               (request (pulls_merge DOCS_REPO_OWNER DOCS_REPO pull_number
                           "squash") ;;
                broadcast (PR_MERGED pull_number) ;;
                try_catch
                  (request (git_deleteRef DOCS_REPO_OWNER DOCS_REPO
                              ("heads/" ++ branch_text review)))
                  (fun _ => ret tt) ;;
                update_review k (with_status merged) ;;
                broadcast DEPLOYMENT_STARTED ;;
                json (success_message_body "PR merged successfully"))
               (fun message => status_json 500 (error_body message))
         end
     end).

Definition post_review_edit (authorization : option string) (id_param : string)
  (file content : option string) : M Response :=
  requireAdmin authorization
    (found <- gets (find_review id_param) ;;
     match found with
     | None => status_json 404 (error_body "Review not found")
     | Some (k, review) =>
         match file, content with
         | Some file, Some content =>
             if negb (nonempty file) || negb (nonempty content)
             then status_json 400 (error_body "file and content required")
             else
               match get file (files review) with
               | Missing =>
                   status_json 400 (error_body "File not part of this review")
               | found_file =>
                   try_catch
                     (commitFile DOCS_REPO_OWNER DOCS_REPO file content
                        ("docs: manual edit to " ++ file)
                        (match branch review with
                         | Some b => b
                         | None => "main"
                         end) ;;
                      match found_file with
                      | Own change =>
                          update_review k (fun r =>
                            with_files
                              (obj_set file {| before := before change;
                                               after := content |} (files r))
                              r)
                      | _ => ret tt
                      end ;;
                      broadcast (REVIEW_UPDATED (id review) file) ;;
                      json success_body)
                     (fun message => status_json 500 (error_body message))
               end
         | _, _ => status_json 400 (error_body "file and content required")
         end
     end).

Definition post_webhook (x_webhook_secret changed_files : option string)
  : M Response :=
  match x_webhook_secret with
  | Some secret =>
      if String.eqb secret WEBHOOK_SECRET then
        broadcast (WEBHOOK_RECEIVED changed_files) ;;
        let changedFiles :=
          filter nonempty (split_comma (or_else changed_files "")) in
        try_catch
          (level <- gets accessLevel ;;
           (if String.eqb level "high"
            then handleHighAccess changedFiles
            else handleMediumAccess changedFiles ;; ret tt) ;;
           json success_body)
          (fun message => status_json 500 (error_body message))
      else status_json 401 (error_body "Invalid webhook secret")
  | None => status_json 401 (error_body "Invalid webhook secret")
  end.

Definition post_trigger (authorization : option string) : M Response :=
  requireAdmin authorization
    (broadcast DEMO_STARTED ;;
     try_catch
       (commitFile PRODUCT_REPO_OWNER PRODUCT_REPO "src/routes/users.ts"
          DEMO_CODE_AFTER
          "feat: add user update and delete endpoints, rate limiting" "main" ;;
        broadcast (CODE_PUSHED "src/routes/users.ts") ;;
        level <- gets accessLevel ;;
        json (triggered_body level))
       (fun message => status_json 500 (error_body message))).

(** The callback [/trigger] leaves behind: the simulated webhook. *)
Definition on_trigger_timeout : M unit :=
  level <- gets accessLevel ;;
  if String.eqb level "high"
  then handleHighAccess ["src/routes/users.ts"]
  else handleMediumAccess ["src/routes/users.ts"] ;; ret tt.

Definition post_reset (authorization : option string) : M Response :=
  requireAdmin authorization
    (broadcast RESET_STARTED ;;
     try_catch
       (prs <- request (pulls_list DOCS_REPO_OWNER DOCS_REPO "open") ;;
        for_each prs (fun pr =>
          request (pulls_update DOCS_REPO_OWNER DOCS_REPO (number pr)
                     "closed") ;;
          broadcast (PR_CLOSED (number pr))) ;;
        for_each INITIAL_DOCS (fun '(path, content) =>
          commitFile DOCS_REPO_OWNER DOCS_REPO path content
            "chore: reset to initial state" "main") ;;
        commitFile PRODUCT_REPO_OWNER PRODUCT_REPO "src/routes/users.ts"
          DEMO_CODE_BEFORE "chore: reset to initial state" "main" ;;
        clear_reviews ;;
        broadcast DEMO_RESET ;;
        json success_body)
       (fun message => status_json 500 (error_body message))).

Definition post_access_level (authorization level : option string)
  : M Response :=
  requireAdmin authorization
    (match level with
     | Some level =>
         if String.eqb level "high" || String.eqb level "medium" then
           set_accessLevel level ;;
           broadcast (ACCESS_LEVEL_CHANGED level) ;;
           json (accessLevel_body level)
         else status_json 400 (error_body "Invalid access level")
     | None => status_json 400 (error_body "Invalid access level")
     end).

(** *** Documentation analysis *)

Definition is_type (t : GapType) (g : DocGap) : bool :=
  match Gaps.gap_type g, t with
  | STALENESS, STALENESS => true
  | UNDOCUMENTED, UNDOCUMENTED => true
  | OBSOLETE, OBSOLETE => true
  | _, _ => false
  end.

Definition is_severity (s : Severity) (g : DocGap) : bool :=
  match Gaps.severity g, s with
  | critical, critical => true
  | high, high => true
  | medium, medium => true
  | low, low => true
  | _, _ => false
  end.

Definition count (p : DocGap -> bool) : nat :=
  List.length (filter p PREDETERMINED_GAPS).

Definition analysis_result (timestamp : Z) : AnalysisResult :=
  {| gaps := PREDETERMINED_GAPS;
     timestamp := timestamp;
     summary :=
       {| total := List.length PREDETERMINED_GAPS;
          by_severity :=
            {| count_critical := count (is_severity critical);
               count_high := count (is_severity high);
               count_medium := count (is_severity medium);
               count_low := count (is_severity low) |};
          by_type :=
            {| count_STALENESS := count (is_type STALENESS);
               count_UNDOCUMENTED := count (is_type UNDOCUMENTED);
               count_OBSOLETE := count (is_type OBSOLETE) |} |} |}.

(** [Math.round]: the nearest integer, a tie going up.  Numbers are
    exact rationals here. *)
Definition Math_round (x : Q) : Z := Qfloor (x + (1 # 2)).

Definition stepRanges : list (Z * (Z * Z)) :=
  [(1, (0, 15)); (2, (15, 35)); (3, (35, 60)); (4, (60, 100))].

Fixpoint range_of (step : Z) (ranges : list (Z * (Z * Z))) : option (Z * Z) :=
  match ranges with
  | [] => None
  | (k, r) :: ranges' => if Z.eqb step k then Some r else range_of step ranges'
  end.

(** Custom percentage mapping - step 3 takes longer visually. *)
Definition getPercent (step : Z) (sub : Q) : Z :=
  let '(start, end_) :=
    match range_of step stepRanges with
    | Some r => r
    | None => (0, 100)
    end in
  Math_round (inject_Z start + inject_Z (end_ - start) * sub).

Definition totalSteps : Z := 4.

(** Helper to send progress updates. *)
Definition sendProgress (step : Z) (stepName detail : string) (sub : Q) : SSE :=
  sse_progress step totalSteps stepName detail (getPercent step sub).

(** The elements of an array with their indices. *)
Definition indexed {A} (l : list A) : list (nat * A) :=
  combine (seq 0 (List.length l)) l.

(** [(i + 1) / n]. *)
Definition fraction (i n : nat) : Q :=
  inject_Z (Z.of_nat (i + 1)) / inject_Z (Z.of_nat n).

Definition docFiles : list string :=
  ["docs/getting-started.md"; "docs/architecture.md"; "docs/how-to-guide.md"].

Definition docFeatures : list string :=
  ["API endpoints"; "Rate limiting"; "Authentication"; "Error handling";
   "User management"].

Definition codeFiles : list string :=
  ["src/routes/users.ts"; "src/routes/products.ts"; "src/routes/orders.ts";
   "src/middleware/auth.ts"; "src/middleware/rateLimit.ts"; "src/index.ts";
   "src/config.ts"].

Definition phase1 : list SSE :=
  ([sendProgress 1 "Profiling documentation" "Scanning doc files..." 0;
    sse_log "Phase 1: Profiling documentation..."]
   ++ flat_map (fun '(i, file) =>
        [sse_log ("  Scanning " ++ file);
         sendProgress 1 "Profiling documentation" ("Scanning " ++ file)
           (fraction i (List.length docFiles) * (6 # 10))])
        (indexed docFiles)
   ++ [sse_log ("  Found " ++ show_nat (List.length docFiles) ++ " doc files");
       sendProgress 1 "Profiling documentation"
         "Extracting features from docs..." (8 # 10);
       sse_log "  Extracting features from documentation...";
       sse_log ("  Extracted " ++ show_nat (List.length docFeatures)
                ++ " documented features");
       sendProgress 1 "Profiling documentation" "Done" 1])%list.

Definition phase2 : list SSE :=
  ([sendProgress 2 "Building code inventory" "Scanning source files..." 0;
    sse_log (newline ++ "Phase 2: Building code inventory...")]
   ++ flat_map (fun '(i, file) =>
        [sse_log ("  Parsing " ++ file);
         sendProgress 2 "Building code inventory" ("Parsing " ++ file)
           (fraction i (List.length codeFiles) * (7 # 10))])
        (indexed codeFiles)
   ++ [sse_log ("  Found " ++ show_nat (List.length codeFiles)
                ++ " source files");
       sendProgress 2 "Building code inventory" "Extracting code features..."
         (85 # 100);
       sse_log "  Extracting code features and entities...";
       sse_log ("  Found " ++ show_nat 12 ++ " code features");
       sse_log ("  Found " ++ show_nat 8 ++ " entities");
       sendProgress 2 "Building code inventory" "Done" 1])%list.

Definition phase3 : list SSE :=
  [sendProgress 3 "Matching features" "Comparing doc features with code..." 0;
   sse_log (newline ++ "Phase 3: Matching features...");
   sse_log "  Comparing documented features with code implementation...";
   sendProgress 3 "Matching features" "Running semantic comparison..." (2 # 10);
   sse_log "  Running semantic similarity analysis...";
   sendProgress 3 "Matching features" "Computing similarity scores..." (4 # 10);
   sse_log "  Building feature dependency graph...";
   sendProgress 3 "Matching features" "Building feature dependency graph..."
     (7 # 10);
   sse_log ("  Matched " ++ show_nat 7 ++ " features");
   sse_log ("  Unmatched doc features: " ++ show_nat 2);
   sse_log ("  Unmatched code features: " ++ show_nat 5);
   sendProgress 3 "Matching features" "Done" 1].

(** One detection loop of phase 4 over the gaps of one type. *)
Definition detected (label found : string) (base width : Q)
  (gaps : list DocGap) : list SSE :=
  flat_map (fun '(i, gap) =>
    [sse_log ("    [" ++ label ++ "] " ++ Gaps.doc_file gap ++ ": "
              ++ take 50 (Gaps.description gap) ++ "...");
     sendProgress 4 "Detecting gaps" (found ++ Gaps.doc_file gap)
       (base + fraction i (List.length gaps) * width)])
    (indexed gaps).

Definition stalenessGaps : list DocGap :=
  filter (is_type STALENESS) PREDETERMINED_GAPS.
Definition undocGaps : list DocGap :=
  filter (is_type UNDOCUMENTED) PREDETERMINED_GAPS.
Definition obsoleteGaps : list DocGap :=
  filter (is_type OBSOLETE) PREDETERMINED_GAPS.

Definition phase4 : list SSE :=
  ([sendProgress 4 "Detecting gaps" "Initializing gap detection..." 0;
    sse_log (newline ++ "Phase 4: Detecting gaps...");
    sse_log "  Checking for stale documentation...";
    sendProgress 4 "Detecting gaps" "Analyzing staleness patterns..." (1 # 10)]
   ++ detected "STALENESS" "Found staleness in " (1 # 10) (2 # 10) stalenessGaps
   ++ [sse_log ("  Found " ++ show_nat (List.length stalenessGaps)
                ++ " staleness gaps");
       sse_log "  Checking for undocumented features...";
       sendProgress 4 "Detecting gaps" "Scanning for undocumented code..."
         (35 # 100)]
   ++ detected "UNDOCUMENTED" "Found undocumented feature in " (35 # 100)
        (3 # 10) undocGaps
   ++ [sse_log ("  Found " ++ show_nat (List.length undocGaps)
                ++ " undocumented gaps");
       sse_log "  Checking for obsolete documentation...";
       sendProgress 4 "Detecting gaps" "Identifying obsolete references..."
         (7 # 10)]
   ++ detected "OBSOLETE" "Found obsolete content in " (7 # 10) (25 # 100)
        obsoleteGaps
   ++ [sse_log ("  Found " ++ show_nat (List.length obsoleteGaps)
                ++ " obsolete gaps")])%list.

Definition high_priority (g : DocGap) : bool :=
  is_severity high g || is_severity critical g.

Definition analysis_summary : list SSE :=
  [sendProgress totalSteps "Complete" "Analysis finished" (1 # 2);
   sse_log (newline ++ repeat_string "=" 50);
   sse_log "ANALYSIS COMPLETE";
   sse_log (repeat_string "=" 50);
   sse_log ("Doc files scanned:    " ++ show_nat (List.length docFiles));
   sse_log ("Code files parsed:    " ++ show_nat (List.length codeFiles));
   sse_log ("Features matched:     " ++ show_nat 7);
   sse_log ("Total gaps found:     "
            ++ show_nat (List.length PREDETERMINED_GAPS));
   sse_log ("  - Staleness:        " ++ show_nat (List.length stalenessGaps));
   sse_log ("  - Undocumented:     " ++ show_nat (List.length undocGaps));
   sse_log ("  - Obsolete:         " ++ show_nat (List.length obsoleteGaps));
   sse_log ("High priority:        " ++ show_nat (count high_priority))].

(** GET /analyze/stream: the events written to the response, in
    order.  The pauses between them are not modelled. *)
Definition get_analyze_stream (authorization : option string) : M Response :=
  requireAdmin authorization
    (broadcast ANALYSIS_STARTED ;;
     timestamp <- now ;;
     broadcast (ANALYSIS_COMPLETE (List.length PREDETERMINED_GAPS)) ;;
     json (event_stream_body
             (phase1 ++ phase2 ++ phase3 ++ phase4 ++ analysis_summary
              ++ [sse_result (analysis_result timestamp); sse_done])%list)).

(** GET /analyze: the non-streaming fallback. *)
Definition get_analyze (authorization : option string) : M Response :=
  requireAdmin authorization
    (broadcast ANALYSIS_STARTED ;;
     broadcast (ANALYSIS_COMPLETE (List.length PREDETERMINED_GAPS)) ;;
     timestamp <- now ;;
     json (analysis_body (analysis_result timestamp))).

(** *** Gap fixes *)

(** Helper: get file content from GitHub. *)
Definition getFileContent (owner repo path ref : string) : M (option string) :=
  try_catch
    (data <- request (repos_getContent owner repo path ref) ;;
     match content data with
     | Some (encoding, text) =>
         if String.eqb encoding "base64" then ret (Some text) else ret None
     | None => ret None
     end)
    (fun _ => ret None).

(** The PREDETERMINED_GAPS whose id is in the request. *)
Definition select_gaps (gapIds : list Json) : list DocGap :=
  filter (fun g => includes gapIds (Gaps.id g)) PREDETERMINED_GAPS.

(** Group gaps by file: one step of the loop.  A file whose content
    cannot be fetched, or is empty, gets no entry and its gap is
    passed over. *)
Definition group_gap (fileUpdates : JsObject (list DocGap * string))
  (gap : DocGap) : M (JsObject (list DocGap * string)) :=
  let filePath := Gaps.file (Gaps.suggested_fix gap) in
  match get filePath fileUpdates with
  | Own (gaps, content) =>
      ret (obj_set filePath ((gaps ++ [gap])%list, content) fileUpdates)
  | Inherited =>
      throw "Cannot read properties of undefined (reading 'push')"
  | Missing =>
      currentContent <-
        getFileContent DOCS_REPO_OWNER DOCS_REPO filePath "main" ;;
      match currentContent with
      | Some text =>
          if String.eqb text "" then ret fileUpdates
          else ret (obj_set filePath ([gap], text) fileUpdates)
      | None => ret fileUpdates
      end
  end.

Fixpoint group_gaps (fileUpdates : JsObject (list DocGap * string))
  (selectedGaps : list DocGap) : M (JsObject (list DocGap * string)) :=
  match selectedGaps with
  | [] => ret fileUpdates
  | gap :: rest =>
      fileUpdates' <- group_gap fileUpdates gap ;;
      group_gaps fileUpdates' rest
  end.

(** Apply fixes to each file. *)
Definition apply_fixes (fileUpdates : JsObject (list DocGap * string))
  : JsObject (list DocGap * string) :=
  map (fun '(filePath, (gaps, content)) =>
         (filePath,
          (gaps,
           fold_left (fun updatedContent gap =>
                        JsString.replace
                          (Gaps.before (Gaps.suggested_fix gap))
                          (Gaps.after (Gaps.suggested_fix gap))
                          updatedContent)
                     gaps content)))
      fileUpdates.

Definition show_type (t : GapType) : string :=
  match t with
  | STALENESS => "STALENESS"
  | UNDOCUMENTED => "UNDOCUMENTED"
  | OBSOLETE => "OBSOLETE"
  end.

Definition show_severity (s : Severity) : string :=
  match s with
  | critical => "critical"
  | high => "high"
  | medium => "medium"
  | low => "low"
  end.

Definition plural (n : nat) : string :=
  if Nat.ltb 1 n then "s" else "".

Definition fix_pr_title (selectedGaps : list DocGap) : string :=
  "docs: fix " ++ show_nat (List.length selectedGaps) ++ " documentation gap"
  ++ plural (List.length selectedGaps).

Definition fix_pr_body (selectedGaps : list DocGap)
  (fileUpdates : JsObject (list DocGap * string)) : string :=
  "## Documentation Gap Fixes

This PR addresses " ++ show_nat (List.length selectedGaps)
  ++ " documentation gap" ++ plural (List.length selectedGaps)
  ++ " identified by the doc analyzer.

### Gaps Fixed
" ++ join newline
       (map (fun g => "- **" ++ show_type (Gaps.gap_type g) ++ "** ("
                     ++ show_severity (Gaps.severity g) ++ "): "
                     ++ Gaps.description g) selectedGaps)
  ++ "

### Files Updated
" ++ join newline (map (fun f => "- `" ++ f ++ "`") (keys fileUpdates)) ++ "

---
Generated by Oqoqo Doc Analyzer".

(** POST /fix-gaps: create PR with selected gap fixes. *)
Definition post_fix_gaps (authorization : option string) (gapIds : option Json)
  : M Response :=
  requireAdmin authorization
    (if negb (truthy gapIds) || negb (isArray gapIds)
        || Nat.eqb (List.length (elements_of gapIds)) 0
     then status_json 400 (error_body "gapIds array required")
     else
         let selectedGaps := select_gaps (elements_of gapIds) in
         match selectedGaps with
         | [] =>
             status_json 400
               (error_body "No valid gaps found for provided IDs")
         | _ :: _ =>
             broadcast (FIX_STARTED (List.length selectedGaps)) ;;
             try_catch
               (grouped <- group_gaps [] selectedGaps ;;
                let fileUpdates := apply_fixes grouped in
                t <- now ;;
                let branchName := "docs-fix-gaps-" ++ show_Z t in
                refData <- request (git_getRef DOCS_REPO_OWNER DOCS_REPO
                                      "heads/main") ;;
                request (git_createRef DOCS_REPO_OWNER DOCS_REPO
                           ("refs/heads/" ++ branchName) refData) ;;
                broadcast (BRANCH_CREATED branchName) ;;
                for_each fileUpdates (fun '(filePath, (_, content)) =>
                  commitFile DOCS_REPO_OWNER DOCS_REPO filePath content
                    ("docs: fix " ++ filePath
                     ++ " - address documentation gaps") branchName ;;
                  broadcast (FILE_COMMITTED filePath)) ;;
                pr <- request (pulls_create DOCS_REPO_OWNER DOCS_REPO
                                 (fix_pr_title selectedGaps) branchName "main"
                                 (fix_pr_body selectedGaps fileUpdates)) ;;
                broadcast (PR_CREATED (number pr) (html_url pr)) ;;
                id <- next_review_id ;;
                createdAt <- now ;;
                let review :=
                  {| id := id;
                     prNumber := Some (number pr);
                     prUrl := Some (html_url pr);
                     branch := Some branchName;
                     files :=
                       map (fun '(path, (_, content)) =>
                              (path, {| before := ""; after := content |}))
                           fileUpdates;
                     status := pending;
                     createdAt := createdAt |} in
                store_review review ;;
                json (fix_gaps_body (number pr) (html_url pr)
                        (List.length selectedGaps)
                        (List.length (keys fileUpdates))))
               (fun message =>
                  broadcast (FIX_ERROR message) ;;
                  status_json 500 (error_body message))
         end).

(** *** The server as a whole *)

(** What serving a request comes to: a response; nothing, when the
    handler's promise rejects outside any [try]; or, for the timer
    callback, its completion. *)
Inductive Result :=
| Responded (response : Response)
| Unhandled (message : string)
| Completed.

Definition respond (m : M Response) (w : World) : Result * World :=
  match m w with
  | (Returned r, w') => (Responded r, w')
  | (Thrown e, w') => (Unhandled e, w')
  end.

Definition handle (req : Request) : World -> Result * World :=
  match req with
  | GET_status => respond get_status
  | GET_reviews => respond get_reviews
  | GET_review id => respond (get_review id)
  | POST_review_approve auth id => respond (post_review_approve auth id)
  | POST_review_edit auth id file content =>
      respond (post_review_edit auth id file content)
  | POST_webhook secret changed_files =>
      respond (post_webhook secret changed_files)
  | POST_trigger auth => respond (post_trigger auth)
  | trigger_timeout =>
      fun w =>
        match on_trigger_timeout w with
        | (Returned _, w') => (Completed, w')
        | (Thrown e, w') => (Unhandled e, w')
        end
  | POST_reset auth => respond (post_reset auth)
  | POST_access_level auth level => respond (post_access_level auth level)
  | GET_analyze auth => respond (get_analyze auth)
  | GET_analyze_stream auth => respond (get_analyze_stream auth)
  | POST_fix_gaps auth gapIds => respond (post_fix_gaps auth gapIds)
  end.

(** The world after a sequence of requests, served one after another. *)
Definition run (reqs : list Request) (w : World) : World :=
  fold_left (fun w req => snd (handle req w)) reqs w.


(** ** Vocabulary of the properties *)



(** Reading file content is the one remote call whose failure the code
    tolerates; every other call changes the remote repository or is
    needed to do so. *)
Definition is_read (c : Call) : bool :=
  match c with
  | repos_getContent _ _ _ _ => true
  | _ => false
  end.

(** The remote service resolves every call other than a read. *)
Definition dependable : Prop :=
  forall history c, is_read c = false -> exists data, octokit history c = inr data.

(** The ids issued since the store was last cleared, oldest first. *)
Definition since_clear (log : list IdEvent) : list Z :=
  fold_left (fun ids e =>
               match e with
               | Issued k => (ids ++ [k])%list
               | Cleared => []
               end) log [].


(** The integers [1], ..., [n]. *)
Definition first_ids (n : nat) : list Z := map Z.of_nat (seq 1 n).

(** The ways the store, the counter and the id history change. *)
Inductive step (w w' : World) : Prop :=
| step_same :
    pendingReviews w' = pendingReviews w ->
    reviewIdCounter w' = reviewIdCounter w ->
    issued w' = issued w ->
    step w w'
| step_issue :
    pendingReviews w' = pendingReviews w ->
    reviewIdCounter w' = reviewIdCounter w + 1 ->
    issued w' = (issued w ++ [Issued (reviewIdCounter w)])%list ->
    step w w'
| step_store (r : Review) :
    In (id r) (since_clear (issued w)) ->
    pendingReviews w' = map_set (id r) r (pendingReviews w) ->
    reviewIdCounter w' = reviewIdCounter w ->
    issued w' = issued w ->
    step w w'
| step_update (k : Z) (r : Review) :
    In k (map_keys (pendingReviews w)) ->
    pendingReviews w' = map_set k r (pendingReviews w) ->
    reviewIdCounter w' = reviewIdCounter w ->
    issued w' = issued w ->
    step w w'
| step_clear :
    pendingReviews w' = [] ->
    reviewIdCounter w' = 1 ->
    issued w' = (issued w ++ [Cleared])%list ->
    step w w'.

Inductive evolves : World -> World -> Prop :=
| evolves_refl w : evolves w w
| evolves_step w1 w2 w3 : evolves w1 w2 -> step w2 w3 -> evolves w1 w3.

(** Whatever [m] does, the store and the counter change only in those
    ways. *)
Definition evolving {A} (m : M A) : Prop :=
  forall w, evolves w (snd (m w)).

(** [m] leaves the store, the counter, the access level and the id
    history alone. *)
Definition silent {A} (m : M A) : Prop :=
  forall w,
    pendingReviews (snd (m w)) = pendingReviews w /\
    reviewIdCounter (snd (m w)) = reviewIdCounter w /\
    accessLevel (snd (m w)) = accessLevel w /\
    issued (snd (m w)) = issued w.

(** [m] never throws. *)
Definition returns {A} (m : M A) : Prop :=
  forall w, exists a, fst (m w) = Returned a.

(** The store and the counter are consistent with the id history. *)
Record consistent (w : World) : Prop := {
  counter_positive : 1 <= reviewIdCounter w;
  ids_consecutive :
    since_clear (issued w) = first_ids (Z.to_nat (reviewIdCounter w - 1));
  keys_issued :
    forall k, In k (map_keys (pendingReviews w)) ->
              In k (since_clear (issued w));
  keys_unique : NoDup (map_keys (pendingReviews w))
}.

(** The request with its [Authorization] header replaced, on the
    routes that read one. *)
Definition set_authorization (authorization : option string) (req : Request)
  : Request :=
  match req with
  | POST_review_approve _ id => POST_review_approve authorization id
  | POST_review_edit _ id file content =>
      POST_review_edit authorization id file content
  | POST_trigger _ => POST_trigger authorization
  | POST_reset _ => POST_reset authorization
  | POST_access_level _ level => POST_access_level authorization level
  | GET_analyze _ => GET_analyze authorization
  | GET_analyze_stream _ => GET_analyze_stream authorization
  | POST_fix_gaps _ gapIds => POST_fix_gaps authorization gapIds
  | _ => req
  end.

(** The guard turns the request away: a secret is configured and the
    header is missing or is not [Bearer <secret>]. *)
Definition turned_away (authorization : option string) : Prop :=
  ADMIN_SECRET <> ""
  /\ (authorization = None
      \/ exists authHeader, authorization = Some authHeader
                            /\ authHeader <> "Bearer " ++ ADMIN_SECRET).


Definition client_error (r : Response) : Prop :=
  400 <= status_code r < 500.



(** [m] only adds to the trace of remote calls. *)
Definition grows {A} (m : M A) : Prop :=
  forall w, exists done, calls (snd (m w)) = (calls w ++ done)%list.

(** The usable content of what a read resolved to, as
    [getFileContent] and the check that follows it see it. *)
Definition usable_content (data : ContentData) : option string :=
  match content data with
  | Some (encoding, text) =>
      if String.eqb encoding "base64" && nonempty text then Some text
      else None
  | None => None
  end.

(** The content of [path] cannot be fetched: every read of it rejects
    or resolves to nothing usable. *)
Definition unfetchable (path : string) : Prop :=
  forall history owner repo ref,
    match octokit history (repos_getContent owner repo path ref) with
    | inl _ => True
    | inr data => usable_content data = None
    end.

(** The loop over the entries of one file's updates. *)
Definition add_updates (updates : JsObject FileChange)
  (fileUpdates : JsObject string) : JsObject FileChange :=
  fold_left (fun updates '(docPath, newContent) =>
    obj_set docPath
      {| before := or_else (own_get docPath INITIAL_DOCS) "";
         after := newContent |}
      updates) fileUpdates updates.

(** The loop over the changed files, from any starting object. *)
Definition collect_from (updates : JsObject FileChange)
  (changedFiles : list string) : JsObject FileChange :=
  fold_left (fun updates file =>
    match get file UPDATE_MAPPINGS with
    | Own fileUpdates => add_updates updates fileUpdates
    | Inherited => updates
    | Missing => updates
    end) changedFiles updates.

(** The two documentation files the table maps [src/routes/users.ts]
    to. *)
Definition users_docs : list string :=
  ["docs/getting-started.md"; "docs/how-to-guide.md"].

(** Every file of the grouping had its content fetched. *)
Definition all_fetched (fileUpdates : JsObject (list DocGap * string)) : Prop :=
  forall path, In path (keys fileUpdates) -> ~ unfetchable path.

(** The target file of the gap is not a name objects inherit. *)
Definition plain_path (g : DocGap) : Prop :=
  existsb (String.eqb (Gaps.file (Gaps.suggested_fix g)))
          Object_prototype_names = false.

(** What a successful run of the review-mode orchestrator comes to. *)
Definition creates_review (changedFiles : list string)
  (reviews : ReviewMap) (counter : Z) (log : list IdEvent)
  (res : Outcome (option Review) * World) : Prop :=
  exists review w',
    res = (Returned (Some review), w')
    /\ id review = counter
    /\ files review = collect_updates changedFiles
    /\ status review = pending
    /\ (exists n, prNumber review = Some n)
    /\ pendingReviews w' = map_set counter review reviews
    /\ reviewIdCounter w' = counter + 1
    /\ issued w' = (log ++ [Issued counter])%list.


(** What a fix request that goes through comes to. *)
Definition records_fixes (fixedGaps : nat)
  (reviews : ReviewMap) (counter : Z) (log : list IdEvent)
  (res : Outcome Response * World) : Prop :=
  exists pr review w',
    res = (Returned {| status_code := 200;
                       body := fix_gaps_body (number pr) (html_url pr)
                                 fixedGaps
                                 (List.length (keys (files review))) |},
           w')
    /\ id review = counter
    /\ prNumber review = Some (number pr)
    /\ status review = pending
    /\ pendingReviews w' = map_set counter review reviews
    /\ (forall path, unfetchable path -> ~ In path (keys (files review))).

(** *** Vocabulary of the further properties *)

(** The module variables (and the id history) of [w'] are those of
    [w]. *)
Definition unchanged (w w' : World) : Prop :=
  pendingReviews w' = pendingReviews w
  /\ reviewIdCounter w' = reviewIdCounter w
  /\ accessLevel w' = accessLevel w
  /\ issued w' = issued w.

(** A request went through: it was answered 200, or the timer
    callback ran to its end. *)
Definition succeeded (res : Result) : bool :=
  match res with
  | Responded r => status_code r =? 200
  | Completed => true
  | Unhandled _ => false
  end.

Definition ok_200 (r : Response) : Prop := status_code r = 200.


(** [m] ends well, or else leaves the module variables alone. *)
Definition safe_failure {A} (ok : A -> Prop) (m : M A) : Prop :=
  forall w, match m w with
            | (Returned a, w') => ok a \/ unchanged w w'
            | (Thrown _, w') => unchanged w w'
            end.

(** [m] returns, and returns well. *)
Definition finishes {A} (ok : A -> Prop) (m : M A) : Prop :=
  forall w, exists a w', m w = (Returned a, w') /\ ok a.


(** [m] only adds to the trace of remote calls, and adds only calls
    that satisfy [P]. *)
Definition calling {A} (P : Call -> bool) (m : M A) : Prop :=
  forall w, exists done,
    calls (snd (m w)) = (calls w ++ done)%list
    /\ Forall (fun entry => P (fst entry) = true) done.

(** A read of, or a commit to, the main line of the documentation
    repository. *)
Definition main_line_call (c : Call) : bool :=
  match c with
  | repos_getContent owner repo _ ref =>
      String.eqb owner DOCS_REPO_OWNER && String.eqb repo DOCS_REPO
      && String.eqb ref "main"
  | repos_createOrUpdateFileContents owner repo _ _ _ _ branch =>
      String.eqb owner DOCS_REPO_OWNER && String.eqb repo DOCS_REPO
      && String.eqb branch "main"
  | _ => false
  end.

(** A call that leaves the main line and the open pull requests as
    they are: a read, the creation of a branch other than main, a
    commit to a branch other than main, the opening of a pull
    request. *)
Definition spares_main (c : Call) : bool :=
  match c with
  | repos_getContent _ _ _ _ => true
  | git_getRef _ _ _ => true
  | pulls_list _ _ _ => true
  | pulls_create _ _ _ head _ _ => negb (String.eqb head "main")
  | git_createRef _ _ ref _ => negb (String.eqb ref "refs/heads/main")
  | repos_createOrUpdateFileContents _ _ _ _ _ _ branch =>
      negb (String.eqb branch "main")
  | git_deleteRef _ _ _ => false
  | pulls_merge _ _ _ _ => false
  | pulls_update _ _ _ _ => false
  end.

(** A read of, or a commit to, [src/routes/users.ts] on the main line
    of the product repository. *)
Definition demo_code_call (c : Call) : bool :=
  match c with
  | repos_getContent owner repo path ref =>
      String.eqb owner PRODUCT_REPO_OWNER && String.eqb repo PRODUCT_REPO
      && String.eqb path "src/routes/users.ts" && String.eqb ref "main"
  | repos_createOrUpdateFileContents owner repo path _ _ _ branch =>
      String.eqb owner PRODUCT_REPO_OWNER && String.eqb repo PRODUCT_REPO
      && String.eqb path "src/routes/users.ts" && String.eqb branch "main"
  | _ => false
  end.

(** An entry of the store as the server makes them: filed under its
    own id, with a pull request and a branch, pending or merged. *)
Definition well_formed (entry : Z * Review) : Prop :=
  id (snd entry) = fst entry
  /\ prNumber (snd entry) <> None
  /\ prUrl (snd entry) <> None
  /\ branch (snd entry) <> None
  /\ status (snd entry) <> approved.

(** The store holds well-formed entries, in the order of their ids,
    all below the counter. *)
Definition tidy (w : World) : Prop :=
  Forall well_formed (pendingReviews w)
  /\ StronglySorted Z.lt (map_keys (pendingReviews w))
  /\ (forall k, In k (map_keys (pendingReviews w)) -> k < reviewIdCounter w).

Definition keeps {A} (m : M A) : Prop :=
  forall w, tidy w -> tidy (snd (m w)).

(** [m] leaves the access level as it is. *)
Definition level_kept {A} (m : M A) : Prop :=
  forall w, accessLevel (snd (m w)) = accessLevel w.

(** An event of the analysis stream that is in order: not an error,
    and, for a progress event, a step among the four and a percentage
    between 0 and 100. *)
Definition in_order (e : SSE) : bool :=
  match e with
  | sse_progress step total _ _ percent =>
      (1 <=? step) && (step <=? total) && (total =? 4)
      && (0 <=? percent) && (percent <=? 100)
  | sse_error _ => false
  | _ => true
  end.

(** A file name without a comma. *)
Definition comma_free (s : string) : bool :=
  forallb (fun c => negb (Ascii.eqb c ","%char)) (list_ascii_of_string s).

(** The distinct elements of a list, in the order of their first
    appearance. *)
Definition distinct (l : list string) : list string :=
  fold_left (fun seen p =>
               if existsb (String.eqb p) seen then seen
               else (seen ++ [p])%list) l [].

Definition target (g : DocGap) : string := Gaps.file (Gaps.suggested_fix g).

(** The gaps of a batch that are to be fixed in [path]. *)
Definition targeting (path : string) (batch : list DocGap) : list DocGap :=
  filter (fun g => String.eqb (target g) path) batch.

(** The grouping of a batch by file, when the content of [path] is
    [docs path]. *)
Definition grouping (docs : string -> string) (batch : list DocGap)
  : JsObject (list DocGap * string) :=
  map (fun path => (path, (targeting path batch, docs path)))
      (distinct (map target batch)).

(** What a batch of fixes comes to, file by file, when the content of
    [path] is [docs path]. *)
Definition fixed_files (docs : string -> string) (batch : list DocGap)
  : JsObject FileChange :=
  map (fun path =>
         (path,
          {| before := "";
             after := fold_left (fun text g => applyGapFix g text)
                                (targeting path batch) (docs path) |}))
      (distinct (map target batch)).

(** Every read of a file resolves to the base64 content [docs path],
    which is not empty. *)
Definition serves (docs : string -> string) : Prop :=
  forall history owner repo path ref,
    docs path <> ""
    /\ exists s,
        octokit history (repos_getContent owner repo path ref)
        = inr {| sha := s; content := Some ("base64", docs path) |}.

(** ** Facts about the string helpers *)

Lemma append_nil_r (s : string) : s ++ "" = s.
Proof. induction s as [|c s IH]; simpl; [reflexivity | now rewrite IH]. Qed.

Lemma append_assoc (a b c : string) : (a ++ b) ++ c = a ++ (b ++ c).
Proof. induction a as [|x a IH]; simpl; [reflexivity | now rewrite IH]. Qed.

Lemma length_append (a b : string) :
  String.length (a ++ b) = (String.length a + String.length b)%nat.
Proof. induction a as [|x a IH]; simpl; [reflexivity | now rewrite IH]. Qed.

Lemma prefix_append (pat rest : string) : prefix pat (pat ++ rest) = true.
Proof.
  induction pat as [|c pat IH]; simpl.
  - now destruct rest.
  - destruct (ascii_dec c c) as [_|ne]; [exact IH | now elim ne].
Qed.

Lemma prefix_drop (pat s : string) :
  prefix pat s = true -> s = pat ++ JsString.drop (String.length pat) s.
Proof.
  revert s; induction pat as [|c pat IH]; intros s H; simpl.
  - reflexivity.
  - destruct s as [|d s]; simpl in H; [discriminate|].
    destruct (ascii_dec c d) as [->|]; [|discriminate].
    simpl. now rewrite <- (IH s H).
Qed.

(** Two ways of cutting one string at the same position agree. *)
Lemma append_same_length (a b c d : string) :
  a ++ b = c ++ d -> String.length a = String.length c -> a = c /\ b = d.
Proof.
  revert c; induction a as [|x a IH]; intros [|y c] E L; simpl in *;
    try discriminate.
  - now split.
  - injection E as -> E. injection L as L.
    destruct (IH c E L) as [-> ->]. now split.
Qed.

Lemma split_first_eq (pat s : string) :
  JsString.split_first pat s =
  if prefix pat s then Some ("", JsString.drop (String.length pat) s)
  else match s with
       | EmptyString => None
       | String c s' =>
           match JsString.split_first pat s' with
           | Some (pre, post) => Some (String c pre, post)
           | None => None
           end
       end.
Proof. destruct s; reflexivity. Qed.

Lemma split_first_occurs (pat s pre post : string) :
  JsString.split_first pat s = Some (pre, post) ->
  JsString.occurs_at pat s pre post.
Proof.
  unfold JsString.occurs_at.
  revert pre post; induction s as [|c s IH]; intros pre post;
    rewrite split_first_eq;
    match goal with |- context [prefix pat ?t] =>
      destruct (prefix pat t) eqn:P end;
    try discriminate;
    try (intros [= <- <-]; apply (prefix_drop _ _ P)).
  destruct (JsString.split_first pat s) as [[pre' post']|] eqn:S;
    [|discriminate].
  intros [= <- <-]. simpl. now rewrite <- (IH pre' post').
Qed.

Lemma split_first_leftmost (pat s pre post : string) :
  JsString.split_first pat s = Some (pre, post) ->
  forall pre' post', JsString.occurs_at pat s pre' post' ->
                     (String.length pre <= String.length pre')%nat.
Proof.
  unfold JsString.occurs_at.
  revert pre post; induction s as [|c s IH]; intros pre post;
    rewrite split_first_eq;
    match goal with |- context [prefix pat ?t] =>
      destruct (prefix pat t) eqn:P end;
    try discriminate;
    try (intros [= <- <-] pre' post' _; simpl; lia).
  destruct (JsString.split_first pat s) as [[p q]|] eqn:S; [|discriminate].
  intros [= <- <-] pre' post' E.
  destruct pre' as [|d pre'].
  - simpl in E. rewrite E, prefix_append in P. discriminate.
  - simpl in E. injection E as -> E. simpl.
    specialize (IH p q eq_refl pre' post' E). lia.
Qed.

Lemma split_first_none (pat s : string) :
  JsString.split_first pat s = None -> ~ JsString.occurs pat s.
Proof.
  unfold JsString.occurs, JsString.occurs_at.
  induction s as [|c s IH]; rewrite split_first_eq;
    match goal with |- context [prefix pat ?t] =>
      destruct (prefix pat t) eqn:P end;
    try discriminate.
  - intros _ (pre & post & E).
    destruct pre; simpl in E; [|discriminate].
    rewrite E, prefix_append in P. discriminate.
  - destruct (JsString.split_first pat s) as [[p q]|] eqn:S; [discriminate|].
    intros _ (pre & post & E).
    destruct pre as [|d pre]; simpl in E.
    + rewrite E, prefix_append in P. discriminate.
    + injection E as -> E. apply (IH eq_refl). now exists pre, post.
Qed.

(** The leftmost occurrence is the one [split_first] finds. *)
Lemma first_occurrence_split (pat s pre post : string) :
  JsString.first_occurrence pat s pre post ->
  JsString.split_first pat s = Some (pre, post).
Proof.
  intros [O Min].
  destruct (JsString.split_first pat s) as [[p q]|] eqn:S.
  - pose proof (split_first_occurs _ _ _ _ S) as O'.
    pose proof (split_first_leftmost _ _ _ _ S _ _ O) as L1.
    pose proof (Min p q O') as L2.
    unfold JsString.occurs_at in O, O'.
    assert (E : p ++ (pat ++ q) = pre ++ (pat ++ post)) by congruence.
    destruct (append_same_length _ _ _ _ E ltac:(lia)) as [-> E'].
    destruct (append_same_length _ _ _ _ E' eq_refl) as [_ ->].
    reflexivity.
  - exfalso. apply (split_first_none _ _ S). now exists pre, post.
Qed.

Lemma GetSubstitution_plain (matched pre post replacement : string) :
  JsString.plain_replacement replacement = true ->
  JsString.GetSubstitution matched pre post replacement = replacement.
Proof.
  induction replacement as [|c r IH]; [reflexivity|].
  intros H.
  destruct r as [|d r'].
  - destruct c as [[] [] [] [] [] [] [] []]; reflexivity.
  - assert (Hr : JsString.plain_replacement (String d r') = true).
    { destruct c as [[] [] [] [] [] [] [] []]; try exact H;
      destruct d as [[] [] [] [] [] [] [] []]; try exact H; discriminate H. }
    specialize (IH Hr).
    destruct c as [[] [] [] [] [] [] [] []];
      try exact (f_equal (String _) IH);
      destruct d as [[] [] [] [] [] [] [] []];
      try exact (f_equal (String _) IH);
      discriminate H.
Qed.

Lemma split_first_first (pat s pre post : string) :
  JsString.split_first pat s = Some (pre, post) ->
  JsString.first_occurrence pat s pre post.
Proof.
  intros S. split.
  - exact (split_first_occurs _ _ _ _ S).
  - exact (split_first_leftmost _ _ _ _ S).
Qed.


(** ** Facts about objects and the update table *)

Lemma get_Own {A} (k : string) (o : JsObject A) :
  get k o = match own_get k o with
            | Some v => Own v
            | None => if existsb (String.eqb k) Object_prototype_names
                      then Inherited else Missing
            end.
Proof. reflexivity. Qed.

Lemma keys_obj_set {A} (k : string) (v : A) (o : JsObject A) (p : string) :
  In p (keys (obj_set k v o)) <-> In p (keys o) \/ p = k.
Proof. clear.
  induction o as [|[k' v'] o IH]; simpl.
  - intuition congruence.
  - destruct (String.eqb_spec k k') as [->|ne]; simpl.
    + intuition congruence.
    + unfold keys in IH. rewrite IH. intuition congruence.
Qed.




Lemma collect_updates_from (changedFiles : list string) :
  collect_updates changedFiles = collect_from [] changedFiles.
Proof. reflexivity. Qed.



Lemma own_get_UPDATE_MAPPINGS (f : string) :
  own_get f UPDATE_MAPPINGS =
  if String.eqb f "src/routes/users.ts"
  then Some [("docs/getting-started.md", updated_getting_started);
             ("docs/how-to-guide.md", updated_how_to_guide)]
  else None.
Proof. reflexivity. Qed.





(** Once both files are in the object, in this order, no further
    changed file alters the keys. *)
Lemma collect_from_users_docs (changedFiles : list string)
  (updates : JsObject FileChange) :
  keys updates = users_docs ->
  keys (collect_from updates changedFiles) = users_docs.
Proof.
  unfold collect_from.
  revert updates; induction changedFiles as [|f l IH]; intros updates K;
    cbn [fold_left]; [exact K|].
  apply IH. rewrite get_Own, own_get_UPDATE_MAPPINGS.
  destruct (String.eqb f "src/routes/users.ts").
  - destruct updates as [|[k1 v1] [|[k2 v2] [|? ?]]]; try discriminate K.
    injection K as -> ->. reflexivity.
  - now destruct (existsb _ _).
Qed.

Lemma collect_updates_users (changedFiles : list string) :
  In "src/routes/users.ts" changedFiles ->
  keys (collect_updates changedFiles) = users_docs.
Proof.
  rewrite collect_updates_from. unfold collect_from.
  induction changedFiles as [|f l IH]; intros H; [destruct H|].
  cbn [fold_left]. rewrite get_Own, own_get_UPDATE_MAPPINGS.
  destruct (String.eqb_spec f "src/routes/users.ts") as [->|ne].
  - now apply collect_from_users_docs.
  - destruct H as [->|H]; [now elim ne|].
    destruct (existsb _ _); now apply IH.
Qed.

(** ** Facts about the monad *)

Lemma since_clear_Issued (log : list IdEvent) (k : Z) :
  since_clear (log ++ [Issued k]) = (since_clear log ++ [k])%list.
Proof. unfold since_clear. now rewrite fold_left_app. Qed.

Lemma since_clear_Cleared (log : list IdEvent) :
  since_clear (log ++ [Cleared]) = [].
Proof. unfold since_clear. now rewrite fold_left_app. Qed.

Lemma bind_run {A B} (m : M A) (k : A -> M B) (w : World) :
  bind m k w = match m w with
               | (Returned a, w') => k a w'
               | (Thrown e, w') => (Thrown e, w')
               end.
Proof. reflexivity. Qed.

Lemma try_catch_run {A} (m : M A) (h : string -> M A) (w : World) :
  try_catch m h w = match m w with
                    | (Returned a, w') => (Returned a, w')
                    | (Thrown e, w') => h e w'
                    end.
Proof. reflexivity. Qed.

Lemma evolves_trans (w1 w2 w3 : World) :
  evolves w1 w2 -> evolves w2 w3 -> evolves w1 w3.
Proof.
  intros H12 H23. induction H23 as [|w2 w3 w4 _ IH S]; [exact H12|].
  exact (evolves_step _ _ _ (IH H12) S).
Qed.

Lemma silent_evolving {A} (m : M A) : silent m -> evolving m.
Proof.
  intros H w. destruct (H w) as (Hp & Hc & _ & Hi).
  apply (evolves_step _ _ _ (evolves_refl w)). now apply step_same.
Qed.

Lemma silent_ret {A} (a : A) : silent (ret a).
Proof. intros w. simpl. auto. Qed.

Lemma silent_throw {A} (e : string) : silent (@throw A e).
Proof. intros w. simpl. auto. Qed.

Lemma silent_gets {A} (f : World -> A) : silent (gets f).
Proof. intros w. simpl. auto. Qed.

Lemma silent_now : silent now.
Proof. intros w. simpl. auto. Qed.

Lemma silent_bind {A B} (m : M A) (k : A -> M B) :
  silent m -> (forall a, silent (k a)) -> silent (bind m k).
Proof.
  intros Hm Hk w. rewrite bind_run. specialize (Hm w).
  destruct (m w) as [[a|e] w1]; simpl in Hm.
  - specialize (Hk a w1). intuition congruence.
  - exact Hm.
Qed.

Lemma silent_try_catch {A} (m : M A) (h : string -> M A) :
  silent m -> (forall e, silent (h e)) -> silent (try_catch m h).
Proof. clear.
  intros Hm Hh w. rewrite try_catch_run. specialize (Hm w).
  destruct (m w) as [[a|e] w1]; simpl in Hm.
  - exact Hm.
  - specialize (Hh e w1). intuition congruence.
Qed.

Lemma silent_for_each {A} (l : list A) (body : A -> M unit) :
  (forall x, silent (body x)) -> silent (for_each l body).
Proof.
  intros Hb. induction l as [|x l IH]; simpl.
  - apply silent_ret.
  - apply silent_bind; [apply Hb | intros _; exact IH].
Qed.

Lemma silent_broadcast (event : Event) : silent (broadcast event).
Proof. intros w. simpl. auto. Qed.

Lemma silent_request (c : Call) : silent (request c).
Proof. intros w. unfold request. destruct (octokit (calls w) c); simpl; auto. Qed.

Lemma silent_json (b : Body) : silent (json b).
Proof. apply silent_ret. Qed.

Lemma silent_status_json (code : Z) (b : Body) : silent (status_json code b).
Proof. apply silent_ret. Qed.

(** Lemmas for the helpers met on the way. *)
Ltac silent_leaf := fail.

(** Takes a goal [silent m] apart along the structure of [m]. *)
Ltac silence :=
  repeat first
    [ simple apply silent_ret | simple apply silent_throw
    | simple apply silent_gets | simple apply silent_now
    | simple apply silent_broadcast
    | match goal with |- silent (request ?c) => exact (silent_request c) end
    | simple apply silent_json | simple apply silent_status_json
    | silent_leaf
    | simple apply silent_bind | simple apply silent_try_catch
    | simple apply silent_for_each
    | match goal with
      | |- forall _, _ => intro
      | |- silent (match ?x with _ => _ end) => destruct x
      | |- silent (if ?x then _ else _) => destruct x
      | |- silent (let '(_, _) := ?x in _) => destruct x
      end
    | progress cbv beta ].

Lemma silent_getFileSha (owner repo path ref : string) :
  silent (getFileSha owner repo path ref).
Proof. unfold getFileSha. silence. Qed.

Ltac silent_leaf ::= simple apply silent_getFileSha.

Lemma silent_commitFile (owner repo path content message branch : string) :
  silent (commitFile owner repo path content message branch).
Proof. unfold commitFile. silence. Qed.

Lemma silent_getFileContent (owner repo path ref : string) :
  silent (getFileContent owner repo path ref).
Proof. unfold getFileContent. silence. Qed.

Ltac silent_leaf ::=
  first [ simple apply silent_getFileSha | simple apply silent_commitFile
        | simple apply silent_getFileContent ].

Lemma silent_handleHighAccess (changedFiles : list string) :
  silent (handleHighAccess changedFiles).
Proof. unfold handleHighAccess. silence. Qed.

Lemma silent_group_gap (fileUpdates : JsObject (list DocGap * string))
  (gap : DocGap) : silent (group_gap fileUpdates gap).
Proof. unfold group_gap. silence. Qed.

Lemma silent_group_gaps (selectedGaps : list DocGap)
  (fileUpdates : JsObject (list DocGap * string)) :
  silent (group_gaps fileUpdates selectedGaps).
Proof.
  revert fileUpdates; induction selectedGaps as [|g l IH]; intros u; simpl.
  - apply silent_ret.
  - apply silent_bind; [apply silent_group_gap | intros u'; apply IH].
Qed.

Ltac silent_leaf ::=
  first [ simple apply silent_getFileSha | simple apply silent_commitFile
        | simple apply silent_getFileContent
        | simple apply silent_handleHighAccess
        | simple apply silent_group_gaps ].

(** ** How handlers change the store and the counter *)

Lemma evolving_bind {A B} (m : M A) (k : A -> M B) :
  evolving m -> (forall a, evolving (k a)) -> evolving (bind m k).
Proof.
  intros Hm Hk w. rewrite bind_run. specialize (Hm w).
  destruct (m w) as [[a|e] w1]; simpl in Hm.
  - exact (evolves_trans _ _ _ Hm (Hk a w1)).
  - exact Hm.
Qed.

Lemma evolving_try_catch {A} (m : M A) (h : string -> M A) :
  evolving m -> (forall e, evolving (h e)) -> evolving (try_catch m h).
Proof.
  intros Hm Hh w. rewrite try_catch_run. specialize (Hm w).
  destruct (m w) as [[a|e] w1]; simpl in Hm.
  - exact Hm.
  - exact (evolves_trans _ _ _ Hm (Hh e w1)).
Qed.

Lemma evolving_set_accessLevel (level : string) :
  evolving (set_accessLevel level).
Proof.
  intros w. apply (evolves_step _ _ _ (evolves_refl w)).
  now apply step_same.
Qed.

Lemma evolving_clear_reviews : evolving clear_reviews.
Proof.
  intros w. apply (evolves_step _ _ _ (evolves_refl w)).
  now apply step_clear.
Qed.

Lemma map_get_In (k : Z) (m : ReviewMap) (r : Review) :
  map_get k m = Some r -> In k (map_keys m).
Proof.
  induction m as [|[k' r'] m IH]; simpl; [discriminate|].
  destruct (Z.eqb_spec k k') as [->|ne]; [now left|].
  intros H. right. now apply IH.
Qed.

Lemma evolving_update_review (k : Z) (f : Review -> Review) :
  evolving (update_review k f).
Proof.
  intros w. unfold update_review. rewrite bind_run. cbn [gets].
  destruct (map_get k (pendingReviews w)) as [r|] eqn:G.
  - apply (evolves_step _ _ _ (evolves_refl w)).
    apply (step_update w _ k (f r)); try reflexivity.
    exact (map_get_In _ _ _ G).
  - apply evolves_refl.
Qed.

(** Issuing an id and storing a review under it. *)
Lemma evolving_create {A} (mk : Z -> Z -> Review) (k : Z -> Z -> M A) :
  (forall i t, id (mk i t) = i) ->
  (forall i t, evolving (k i t)) ->
  evolving (bind next_review_id (fun i =>
            bind now (fun t =>
            bind (store_review (mk i t)) (fun _ => k i t)))).
Proof.
  intros Hid Hk w.
  rewrite bind_run. cbn [next_review_id]. rewrite bind_run. cbn [now].
  rewrite bind_run. cbn [store_review].
  eapply evolves_trans; [|apply Hk].
  eapply evolves_step; [eapply evolves_step; [apply evolves_refl|]|].
  - apply step_issue with (w' := snd (next_review_id w)); reflexivity.
  - apply (step_store _ _ (mk (reviewIdCounter w) (clock (clock_reads w))));
      cbn; rewrite ?Hid; try reflexivity.
    change (In (reviewIdCounter w)
               (since_clear (issued w ++ [Issued (reviewIdCounter w)]))).
    rewrite since_clear_Issued. apply in_or_app. right. now left.
Qed.

Lemma evolving_requireAdmin (authorization : option string) (next : M Response) :
  evolving next -> evolving (requireAdmin authorization next).
Proof.
  intros H. unfold requireAdmin.
  destruct (String.eqb ADMIN_SECRET ""); [exact H|].
  destruct authorization as [h|]; [|apply silent_evolving, silent_ret].
  destruct (_ || _); [apply silent_evolving, silent_ret | exact H].
Qed.

Ltac evolving_leaf := fail.

(** Takes a goal [evolving m] apart along the structure of [m]. *)
Ltac evolve :=
  repeat first
    [ solve [simple apply silent_evolving; silence]
    | simple apply evolving_set_accessLevel
    | simple apply evolving_clear_reviews
    | simple apply evolving_update_review
    | simple apply evolving_requireAdmin
    | evolving_leaf
    | match goal with
      | |- evolving (bind next_review_id (fun i => bind now (fun t =>
             bind (store_review (@?mk i t)) (fun _ => @?k i t)))) =>
          apply (evolving_create mk k)
      end
    | simple apply evolving_bind | simple apply evolving_try_catch
    | match goal with
      | |- forall _, _ => intro
      | |- evolving (match ?x with _ => _ end) => destruct x
      | |- evolving (if ?x then _ else _) => destruct x
      | |- evolving (let '(_, _) := ?x in _) => destruct x
      end
    | progress cbv beta zeta
    | reflexivity ].

Lemma evolving_handleMediumAccess (changedFiles : list string) :
  evolving (handleMediumAccess changedFiles).
Proof. unfold handleMediumAccess. evolve. Qed.

Ltac evolving_leaf ::= simple apply evolving_handleMediumAccess.

Lemma evolving_post_fix_gaps (authorization : option string)
  (gapIds : option Json) : evolving (post_fix_gaps authorization gapIds).
Proof. unfold post_fix_gaps. evolve. Qed.

Lemma evolving_post_reset (authorization : option string) :
  evolving (post_reset authorization).
Proof. unfold post_reset. evolve. Qed.

Lemma evolving_post_review_approve (authorization : option string)
  (id_param : string) : evolving (post_review_approve authorization id_param).
Proof. unfold post_review_approve. evolve. Qed.

Lemma evolving_post_review_edit (authorization : option string)
  (id_param : string) (file content : option string) :
  evolving (post_review_edit authorization id_param file content).
Proof. unfold post_review_edit. evolve. Qed.

Lemma evolving_post_webhook (secret changed_files : option string) :
  evolving (post_webhook secret changed_files).
Proof. unfold post_webhook. evolve. Qed.

Lemma evolving_on_trigger_timeout : evolving on_trigger_timeout.
Proof. unfold on_trigger_timeout. evolve. Qed.

Lemma evolving_post_access_level (authorization level : option string) :
  evolving (post_access_level authorization level).
Proof. unfold post_access_level. evolve. Qed.

Lemma evolving_post_trigger (authorization : option string) :
  evolving (post_trigger authorization).
Proof. unfold post_trigger. evolve. Qed.

Lemma evolving_get_analyze (authorization : option string) :
  evolving (get_analyze authorization).
Proof. unfold get_analyze. evolve. Qed.

Lemma evolving_get_analyze_stream (authorization : option string) :
  evolving (get_analyze_stream authorization).
Proof. unfold get_analyze_stream. evolve. Qed.

Lemma respond_snd (m : M Response) (w : World) :
  snd (respond m w) = snd (m w).
Proof. unfold respond. now destruct (m w) as [[r|e] w']. Qed.

Lemma handle_evolves (req : Request) (w : World) :
  evolves w (snd (handle req w)).
Proof.
  destruct req; cbn [handle]; rewrite ?respond_snd.
  - apply silent_evolving. unfold get_status. silence.
  - apply silent_evolving. unfold get_reviews. silence.
  - apply silent_evolving. unfold get_review. silence.
  - apply evolving_post_review_approve.
  - apply evolving_post_review_edit.
  - apply evolving_post_webhook.
  - apply evolving_post_trigger.
  - pose proof (evolving_on_trigger_timeout w) as H.
    now destruct (on_trigger_timeout w) as [[r|e] w'].
  - apply evolving_post_reset.
  - apply evolving_post_access_level.
  - apply evolving_get_analyze.
  - apply evolving_get_analyze_stream.
  - apply evolving_post_fix_gaps.
Qed.

(** ** Consistency of the store with the id history *)

Lemma map_set_keys (k : Z) (r : Review) (m : ReviewMap) (j : Z) :
  In j (map_keys (map_set k r m)) <-> In j (map_keys m) \/ j = k.
Proof.
  induction m as [|[k' r'] m IH]; simpl.
  - intuition congruence.
  - destruct (Z.eqb_spec k k') as [->|ne]; simpl.
    + intuition congruence.
    + unfold map_keys in IH. rewrite IH. intuition congruence.
Qed.

Lemma map_set_NoDup (k : Z) (r : Review) (m : ReviewMap) :
  NoDup (map_keys m) -> NoDup (map_keys (map_set k r m)).
Proof.
  induction m as [|[k' r'] m IH]; simpl; intros N.
  - constructor; [intros [] | constructor].
  - inversion N as [|? ? Hn N']; subst.
    destruct (Z.eqb_spec k k') as [->|ne]; simpl.
    + now constructor.
    + constructor; [|now apply IH].
      intros H. apply (map_set_keys k r m k') in H.
      destruct H as [H| ->]; [now apply Hn | now apply ne].
Qed.

(** A key that is not in the map yet goes last. *)
Lemma map_set_fresh (k : Z) (r : Review) (m : ReviewMap) :
  ~ In k (map_keys m) -> map_set k r m = (m ++ [(k, r)])%list.
Proof.
  induction m as [|[k' r'] m IH]; simpl; intros N; [reflexivity|].
  destruct (Z.eqb_spec k k') as [->|ne].
  - elim N. now left.
  - rewrite IH; [reflexivity|]. intros H. apply N. now right.
Qed.

Lemma first_ids_S (n : nat) :
  first_ids (S n) = (first_ids n ++ [Z.of_nat (S n)])%list.
Proof. unfold first_ids. now rewrite seq_S, map_app. Qed.

Lemma first_ids_In (n : nat) (k : Z) :
  In k (first_ids n) <-> 1 <= k <= Z.of_nat n.
Proof.
  unfold first_ids. rewrite in_map_iff. split.
  - intros (i & <- & Hi). apply in_seq in Hi. lia.
  - intros H. exists (Z.to_nat k). split; [lia|]. apply in_seq. lia.
Qed.

Lemma sorted_snoc (l : list Z) (x : Z) :
  StronglySorted Z.lt l -> (forall y, In y l -> y < x) ->
  StronglySorted Z.lt (l ++ [x]).
Proof.
  induction 1 as [|y l S IH F]; intros H; simpl.
  - repeat constructor.
  - constructor.
    + apply IH. intros z Hz. apply H. now right.
    + apply Forall_app. split; [exact F|].
      constructor; [|constructor]. apply H. now left.
Qed.


Lemma step_consistent (w w' : World) :
  consistent w -> step w w' -> consistent w'.
Proof.
  intros [Hpos Hids Hkeys Huniq] S.
  destruct S as [Ep Ec Ei | Ep Ec Ei | r Hr Ep Ec Ei | k r Hk Ep Ec Ei
                | Ep Ec Ei]; split; rewrite ?Ep, ?Ec, ?Ei; auto; try lia.
  - rewrite since_clear_Issued, Hids.
    replace (Z.to_nat (reviewIdCounter w + 1 - 1))
      with (S (Z.to_nat (reviewIdCounter w - 1))) by lia.
    rewrite first_ids_S. do 2 f_equal. lia.
  - intros k Hk. rewrite since_clear_Issued. apply in_or_app. left.
    now apply Hkeys.
  - intros k Hk. apply map_set_keys in Hk. destruct Hk as [Hk| ->];
      [now apply Hkeys | exact Hr].
  - now apply map_set_NoDup.
  - intros j Hj. apply map_set_keys in Hj. destruct Hj as [Hj| ->];
      now apply Hkeys.
  - now apply map_set_NoDup.
  - now rewrite since_clear_Cleared.
  - intros k [].
  - constructor.
Qed.

Lemma evolves_consistent (w w' : World) :
  consistent w -> evolves w w' -> consistent w'.
Proof.
  intros C E. induction E as [|w1 w2 w3 _ IH S]; [exact C|].
  exact (step_consistent _ _ (IH C) S).
Qed.

Lemma initial_consistent : consistent initial_world.
Proof.
  split; simpl; try lia; try reflexivity; constructor.
Qed.

Lemma run_snoc (reqs : list Request) (req : Request) (w : World) :
  run (reqs ++ [req]) w = snd (handle req (run reqs w)).
Proof. unfold run. now rewrite fold_left_app. Qed.

Lemma run_consistent (reqs : list Request) (w : World) :
  consistent w -> consistent (run reqs w).
Proof.
  revert w; induction reqs as [|req reqs IH]; intros w C; [exact C|].
  apply IH. exact (evolves_consistent _ _ C (handle_evolves req w)).
Qed.

Lemma consistent_fresh (w : World) :
  consistent w -> ~ In (reviewIdCounter w) (map_keys (pendingReviews w)).
Proof.
  intros [Hpos Hids Hkeys _] H. apply Hkeys in H.
  rewrite Hids in H. apply first_ids_In in H. lia.
Qed.

(** ** Handlers on a dependable service *)

Lemma returns_ret {A} (a : A) : returns (ret a).
Proof. intros w. now exists a. Qed.

Lemma returns_gets {A} (f : World -> A) : returns (gets f).
Proof. intros w. now exists (f w). Qed.

Lemma returns_now : returns now.
Proof. intros w. now exists (clock (clock_reads w)). Qed.

Lemma returns_broadcast (event : Event) : returns (broadcast event).
Proof. intros w. now exists tt. Qed.

Lemma returns_bind {A B} (m : M A) (k : A -> M B) :
  returns m -> (forall a, returns (k a)) -> returns (bind m k).
Proof.
  intros Hm Hk w. rewrite bind_run. destruct (Hm w) as [a Ha].
  destruct (m w) as [[a'|e] w1]; simpl in Ha; [|discriminate].
  apply Hk.
Qed.

Lemma returns_try_catch {A} (m : M A) (h : string -> M A) :
  (forall e, returns (h e)) -> returns (try_catch m h).
Proof.
  intros Hh w. rewrite try_catch_run.
  destruct (m w) as [[a|e] w1]; [now exists a | apply Hh].
Qed.

Lemma returns_for_each {A} (l : list A) (body : A -> M unit) :
  (forall x, returns (body x)) -> returns (for_each l body).
Proof.
  intros Hb. induction l as [|x l IH]; simpl.
  - apply returns_ret.
  - apply returns_bind; [apply Hb | intros _; exact IH].
Qed.

Lemma returns_request (c : Call) :
  dependable -> is_read c = false -> returns (request c).
Proof.
  intros D R w. unfold request. destruct (D (calls w) c R) as [d ->].
  now exists d.
Qed.

Lemma returns_getFileSha (owner repo path ref : string) :
  returns (getFileSha owner repo path ref).
Proof. apply returns_try_catch. intros e. apply returns_ret. Qed.

Lemma returns_getFileContent (owner repo path ref : string) :
  returns (getFileContent owner repo path ref).
Proof. apply returns_try_catch. intros e. apply returns_ret. Qed.

Lemma returns_commitFile (owner repo path content message branch : string) :
  dependable -> returns (commitFile owner repo path content message branch).
Proof.
  intros D. apply returns_bind; [apply returns_getFileSha|].
  intros sha.
  match goal with
  | |- returns (request ?c) => now apply (returns_request c)
  end.
Qed.

(** Takes a goal [returns m] apart along the structure of [m]. *)
Ltac returning :=
  repeat first
    [ simple apply returns_ret | simple apply returns_gets
    | simple apply returns_now | simple apply returns_broadcast
    | simple apply returns_getFileSha | simple apply returns_getFileContent
    | simple apply returns_commitFile; assumption
    | match goal with
      | |- returns (request ?c) =>
          apply (returns_request c); [assumption | reflexivity]
      end
    | simple apply returns_bind | simple apply returns_for_each
    | match goal with
      | |- forall _, _ => intro
      | |- returns (match ?x with _ => _ end) => destruct x
      | |- returns (let '(_, _) := ?x in _) => destruct x
      end
    | progress cbv beta ].

(** A step that returns and is silent can be passed over in a
    statement about the store, the counter and the id history. *)
Lemma bind_returns {A B} (m : M A) (k : A -> M B)
  (Q : ReviewMap -> Z -> list IdEvent -> Outcome B * World -> Prop)
  (w : World) :
  silent m -> returns m ->
  (forall a w1,
      Q (pendingReviews w1) (reviewIdCounter w1) (issued w1) (k a w1)) ->
  Q (pendingReviews w) (reviewIdCounter w) (issued w) (bind m k w).
Proof.
  intros Hs Hr Hk. rewrite bind_run.
  destruct (Hr w) as [a Ha]. destruct (Hs w) as (Ep & Ec & _ & Ei).
  destruct (m w) as [[a'|e] w1]; simpl in *; [|discriminate].
  rewrite <- Ep, <- Ec, <- Ei. apply Hk.
Qed.

Lemma handleMediumAccess_creates (changedFiles : list string) (w : World) :
  dependable ->
  collect_updates changedFiles <> [] ->
  creates_review changedFiles (pendingReviews w) (reviewIdCounter w)
    (issued w) (handleMediumAccess changedFiles w).
Proof.
  intros D N. unfold handleMediumAccess.
  apply (bind_returns _ _ (creates_review changedFiles));
    [silence | returning |]. clear w; intros _ w.
  destruct (collect_updates changedFiles) as [|u0 us] eqn:E; [now elim N|].
  rewrite <- E. clear E N.
  do 7 (apply (bind_returns _ _ (creates_review changedFiles));
        [silence | returning |]; clear w; intros ? w).
  rewrite bind_run. cbn [next_review_id].
  rewrite bind_run. cbn [now]. rewrite bind_run. cbn [store_review].
  cbn [ret]. eexists _, _. split; [reflexivity|].
  cbn. repeat split; try reflexivity. now eexists.
Qed.



(** ** The review-mode orchestrator *)



(** ** Review ids *)


(** ** The admin guard *)

Lemma requireAdmin_open (authorization : option string) (next : M Response) :
  ADMIN_SECRET = "" -> requireAdmin authorization next = next.
Proof. intros E. unfold requireAdmin. now rewrite E. Qed.

Lemma requireAdmin_pass (authorization : option string) (next : M Response) :
  ~ turned_away authorization -> requireAdmin authorization next = next.
Proof.
  unfold turned_away, requireAdmin. intros N.
  destruct (String.eqb_spec ADMIN_SECRET "") as [E|Hs]; [reflexivity|].
  destruct authorization as [h|]; [|elim N; now split; [|left]].
  destruct (String.eqb_spec h ("Bearer " ++ ADMIN_SECRET)) as [->|Hh].
  - simpl. reflexivity.
  - elim N. split; [exact Hs|]. right. now exists h.
Qed.

Lemma requireAdmin_cases (authorization : option string) (next : M Response) :
  requireAdmin authorization next = next
  \/ requireAdmin authorization next
     = status_json 401 (error_body "Unauthorized").
Proof.
  unfold requireAdmin.
  destruct (String.eqb ADMIN_SECRET ""); [now left|].
  destruct authorization as [h|]; [|now right].
  destruct (_ || _); [now right | now left].
Qed.

(** C10: the guard answers 401 Unauthorized exactly when an admin
    secret is configured and the Authorization header is missing or is
    not [Bearer <secret>], and hands over to the route otherwise.  With
    no secret configured every request passes, so on every route the
    outcome does not depend on the header. *)
Theorem requireAdmin_rejects_iff
  (authorization : option string) (next : M Response) :
  (turned_away authorization ->
   requireAdmin authorization next
   = status_json 401 (error_body "Unauthorized"))
  /\ (~ turned_away authorization -> requireAdmin authorization next = next)
  /\ (ADMIN_SECRET = "" ->
      forall (other : option string) (n : M Response) (req : Request),
        requireAdmin other n = n
        /\ handle (set_authorization other req) = handle req).
Proof.
  unfold turned_away, requireAdmin. repeat split.
  - intros [Hs Ha].
    destruct (String.eqb_spec ADMIN_SECRET "") as [E|_]; [now elim Hs|].
    destruct Ha as [->|(h & -> & Hh)]; [reflexivity|].
    destruct (String.eqb_spec h ("Bearer " ++ ADMIN_SECRET)) as [E|_];
      [now elim Hh|].
    now rewrite orb_true_r.
  - apply requireAdmin_pass.
  - now rewrite H.
  - destruct req; cbn [set_authorization handle]; try reflexivity;
      unfold post_review_approve, post_review_edit, post_trigger, post_reset,
        post_access_level, get_analyze, get_analyze_stream, post_fix_gaps;
      now rewrite !requireAdmin_open.
Qed.

(** ** Approval *)

(** C6: approving a stored review that has no pull-request number (the
    field is undefined, or holds 0, which the check treats alike)
    answers with a client error (401 from the guard, 400 otherwise) and
    changes nothing: the store, the review's status, the remote call
    trace and the broadcast trace are as before. *)
Theorem approve_without_pull_request
  (authorization : option string) (id_param : string) (k : Z)
  (review : Review) (w : World) :
  parseInt id_param = Some k ->
  map_get k (pendingReviews w) = Some review ->
  prNumber review = None \/ prNumber review = Some 0 ->
  exists r,
    post_review_approve authorization id_param w = (Returned r, w)
    /\ client_error r
    /\ (~ turned_away authorization ->
        r = {| status_code := 400;
               body := error_body "No PR associated with this review" |}).
Proof.
  intros Hp Hg Hn. unfold post_review_approve.
  assert (F : find_review id_param w = Some (k, review)).
  { unfold find_review. now rewrite Hp, Hg. }
  assert (B : forall next,
             next w = (Returned {| status_code := 400;
                                   body := error_body
                                     "No PR associated with this review" |},
                       w) ->
             exists r, requireAdmin authorization next w = (Returned r, w)
                       /\ client_error r
                       /\ (~ turned_away authorization ->
                           r = {| status_code := 400;
                                  body := error_body
                                    "No PR associated with this review" |})).
  { intros next Hnext. unfold requireAdmin, turned_away, client_error.
    destruct (String.eqb_spec ADMIN_SECRET "") as [E|Hs].
    - eexists. split; [exact Hnext|]. split; [simpl; lia | reflexivity].
    - destruct authorization as [h|].
      + destruct (String.eqb_spec h ("Bearer " ++ ADMIN_SECRET)) as [->|Hh].
        * replace (_ || _) with false.
          -- eexists. split; [exact Hnext|].
             split; [simpl; lia | reflexivity].
          -- symmetry. apply orb_false_intro; [|reflexivity].
             apply String.eqb_neq. discriminate.
        * rewrite orb_true_r. eexists. split; [reflexivity|].
          split; [simpl; lia|]. intros N. elim N. split; [exact Hs|].
          right. now exists h.
      + eexists. split; [reflexivity|]. split; [simpl; lia|].
        intros N. elim N. split; [exact Hs | now left]. }
  apply B. rewrite bind_run. cbn [gets]. rewrite F.
  destruct Hn as [-> | ->]; reflexivity.
Qed.

(** ** Gap fixes *)

Lemma includes_In (ids : list Json) (s : string) :
  includes ids s = true <-> In (JStr s) ids.
Proof.
  unfold includes. rewrite existsb_exists. split.
  - intros (e & He & Hs). destruct e; try discriminate.
    apply String.eqb_eq in Hs. now subst.
  - intros H. exists (JStr s). split; [exact H | apply String.eqb_refl].
Qed.


Lemma gapIds_check (gapIds : option Json) :
  negb (truthy gapIds) || negb (isArray gapIds)
  || Nat.eqb (List.length (elements_of gapIds)) 0
  = match gapIds with
    | Some (JArr (_ :: _)) => false
    | _ => true
    end.
Proof.
  destruct gapIds as [[ | b | q | s | [|first others] | props]|];
    cbn [truthy isArray elements_of negb]; try reflexivity;
    now rewrite orb_true_r.
Qed.


(** ** The progress schedule *)




(** ** Gap fixes when content cannot be fetched *)

Lemma own_get_In {A} (k : string) (o : JsObject A) (v : A) :
  own_get k o = Some v -> In k (keys o).
Proof.
  induction o as [|[k' v'] o IH]; simpl; [discriminate|].
  destruct (String.eqb_spec k k') as [->|ne]; [now left|].
  intros H. right. now apply IH.
Qed.

Lemma predetermined_plain_paths : Forall plain_path PREDETERMINED_GAPS.
Proof. repeat constructor. Qed.

Lemma select_gaps_plain_paths (ids : list Json) :
  Forall plain_path (select_gaps ids).
Proof.
  apply Forall_forall. intros g Hg. apply filter_In in Hg.
  exact (proj1 (Forall_forall _ _) predetermined_plain_paths g (proj1 Hg)).
Qed.

Lemma group_gap_fetched (fileUpdates : JsObject (list DocGap * string))
  (gap : DocGap) (w : World) :
  plain_path gap -> all_fetched fileUpdates ->
  exists fileUpdates' w',
    group_gap fileUpdates gap w = (Returned fileUpdates', w')
    /\ all_fetched fileUpdates'.
Proof.
  intros P F. unfold group_gap. rewrite get_Own.
  destruct (own_get _ fileUpdates) as [[gaps text]|] eqn:G.
  - eexists _, _. split; [reflexivity|].
    intros path Hp. apply keys_obj_set in Hp. destruct Hp as [Hp| ->].
    + now apply F.
    + apply F. exact (own_get_In _ _ _ G).
  - rewrite P. unfold getFileContent.
    rewrite bind_run, try_catch_run, bind_run. unfold request.
    destruct (octokit (calls w) _) as [e|data] eqn:O.
    + eexists _, _. split; [reflexivity | exact F].
    + destruct (content data) as [[encoding text]|] eqn:C;
        [|eexists _, _; split; [reflexivity | exact F]].
      destruct (String.eqb encoding "base64") eqn:E;
        [|eexists _, _; split; [reflexivity | exact F]].
      cbn [ret]. destruct (String.eqb text "") eqn:T;
        [eexists _, _; split; [reflexivity | exact F]|].
      eexists _, _. split; [reflexivity|].
      intros path Hp. apply keys_obj_set in Hp. destruct Hp as [Hp| ->].
      * now apply F.
      * intros U. specialize (U (calls w) DOCS_REPO_OWNER DOCS_REPO "main").
        rewrite O in U. unfold usable_content, nonempty in U.
        rewrite C, E, T in U. discriminate U.
Qed.

Lemma group_gaps_fetched (selectedGaps : list DocGap)
  (fileUpdates : JsObject (list DocGap * string)) (w : World) :
  Forall plain_path selectedGaps -> all_fetched fileUpdates ->
  exists fileUpdates' w',
    group_gaps fileUpdates selectedGaps w = (Returned fileUpdates', w')
    /\ all_fetched fileUpdates'.
Proof.
  revert fileUpdates w.
  induction selectedGaps as [|g l IH]; intros u w P F.
  - now exists u, w.
  - inversion P as [|? ? Pg Pl]; subst.
    destruct (group_gap_fetched u g w Pg F) as (u1 & w1 & E1 & F1).
    destruct (IH u1 w1 Pl F1) as (u2 & w2 & E2 & F2).
    exists u2, w2. split; [|exact F2].
    cbn [group_gaps]. now rewrite bind_run, E1.
Qed.

Lemma apply_fixes_keys (fileUpdates : JsObject (list DocGap * string)) :
  keys (apply_fixes fileUpdates) = keys fileUpdates.
Proof.
  unfold apply_fixes, keys. rewrite map_map. apply map_ext.
  now intros [path [gaps text]].
Qed.

(** As [bind_returns], keeping what is known of the value returned. *)
Lemma bind_returns_with {A B} (m : M A) (k : A -> M B) (R : A -> Prop)
  (Q : ReviewMap -> Z -> list IdEvent -> Outcome B * World -> Prop)
  (w : World) :
  silent m ->
  (exists a w1, m w = (Returned a, w1) /\ R a) ->
  (forall a w1, R a ->
      Q (pendingReviews w1) (reviewIdCounter w1) (issued w1) (k a w1)) ->
  Q (pendingReviews w) (reviewIdCounter w) (issued w) (bind m k w).
Proof.
  intros Hs (a & w1 & E & Ha) Hk. rewrite bind_run.
  destruct (Hs w) as (Ep & Ec & _ & Ei). rewrite E in *. simpl in *.
  rewrite <- Ep, <- Ec, <- Ei. now apply Hk.
Qed.

Lemma try_catch_records (fixedGaps : nat) (m : M Response)
  (h : string -> M Response) (reviews : ReviewMap) (counter : Z)
  (log : list IdEvent) (w : World) :
  records_fixes fixedGaps reviews counter log (m w) ->
  records_fixes fixedGaps reviews counter log (try_catch m h w).
Proof.
  intros (pr & review & w' & E & H). rewrite try_catch_run, E.
  now exists pr, review, w'.
Qed.

Lemma post_fix_gaps_records (authorization : option string)
  (ids : list Json) (w : World) :
  dependable ->
  ~ turned_away authorization ->
  select_gaps ids <> [] ->
  records_fixes (List.length (select_gaps ids)) (pendingReviews w)
    (reviewIdCounter w) (issued w)
    (post_fix_gaps authorization (Some (JArr ids)) w).
Proof.
  intros D A N. unfold post_fix_gaps.
  rewrite (requireAdmin_pass _ _ A), gapIds_check.
  destruct ids as [|first others]; [now elim N|].
  cbn [elements_of].
  pose proof (select_gaps_plain_paths (first :: others)) as P.
  destruct (select_gaps (first :: others)) as [|g0 gs] eqn:E; [now elim N|].
  set (selected := g0 :: gs) in *. clearbody selected. clear E N g0 gs.
  apply (bind_returns _ _ (records_fixes (List.length selected)));
    [silence | returning |]. clear w; intros _ w.
  apply try_catch_records.
  apply (bind_returns_with _ _ all_fetched
           (records_fixes (List.length selected))); [silence | |].
  { apply group_gaps_fetched; [exact P | intros path []]. }
  clear w; intros grouped w F.
  do 7 (apply (bind_returns _ _ (records_fixes (List.length selected)));
        [silence | returning |]; clear w; intros ? w).
  rewrite bind_run. cbn [next_review_id].
  rewrite bind_run. cbn [now]. rewrite bind_run.
  match goal with
  | p : Data (pulls_create _ _ _ _ _ _) |- context [store_review ?r] =>
      exists p, r
  end.
  assert (K : forall u : JsObject (list DocGap * string),
             keys (map (fun '(path, (_, text)) =>
                          (path, {| before := ""; after := text |})) u)
             = keys u).
  { intros u. unfold keys. rewrite map_map. apply map_ext.
    now intros [path [gaps text]]. }
  eexists. split.
  { cbn [files store_review]. rewrite K. reflexivity. }
  cbn [id prNumber status files]. repeat split; try reflexivity.
  intros path U Hp. rewrite K, apply_fixes_keys in Hp.
  now apply (F path).
Qed.

(** C5 (amended): a gap whose target file cannot be fetched is passed
    over and does not fail the request.  When the guard lets the
    request through, the batch is not empty and every remote call other
    than a read resolves, the request is answered 200 and a pending
    Review is stored for it, whatever the reads come to; the Review
    holds no file whose content cannot be fetched. *)
Theorem fix_gaps_skips_unfetched_files
  (authorization : option string) (ids : list Json) (w : World) :
  dependable ->
  ~ turned_away authorization ->
  select_gaps ids <> [] ->
  exists pr review w',
    post_fix_gaps authorization (Some (JArr ids)) w
    = (Returned {| status_code := 200;
                   body := fix_gaps_body (number pr) (html_url pr)
                             (List.length (select_gaps ids))
                             (List.length (keys (files review))) |},
       w')
    /\ status review = pending
    /\ pendingReviews w'
       = map_set (reviewIdCounter w) review (pendingReviews w)
    /\ (forall path, unfetchable path -> ~ In path (keys (files review))).
Proof.
  intros D A N.
  destruct (post_fix_gaps_records authorization ids w D A N)
    as (pr & review & w' & E & _ & _ & Hs & Hp & Hu).
  now exists pr, review, w'.
Qed.

(** ** Reset *)

Lemma bind_returned {A B} (m : M A) (k : A -> M B) (w w' : World) (b : B) :
  bind m k w = (Returned b, w') ->
  exists a w1, m w = (Returned a, w1) /\ k a w1 = (Returned b, w').
Proof.
  rewrite bind_run. destruct (m w) as [[a|e] w1]; [|discriminate].
  intros H. now exists a, w1.
Qed.

Lemma grows_ret {A} (a : A) : grows (ret a).
Proof. intros w. exists []. simpl. now rewrite app_nil_r. Qed.

Lemma grows_broadcast (event : Event) : grows (broadcast event).
Proof. intros w. exists []. simpl. now rewrite app_nil_r. Qed.

Lemma grows_request (c : Call) : grows (request c).
Proof.
  intros w. unfold request.
  destruct (octokit (calls w) c); eexists; reflexivity.
Qed.

Lemma grows_bind {A B} (m : M A) (k : A -> M B) :
  grows m -> (forall a, grows (k a)) -> grows (bind m k).
Proof.
  intros Hm Hk w. rewrite bind_run. destruct (Hm w) as [d1 E1].
  destruct (m w) as [[a|e] w1]; simpl in E1.
  - destruct (Hk a w1) as [d2 E2]. exists (d1 ++ d2)%list.
    now rewrite E2, E1, app_assoc.
  - now exists d1.
Qed.

Lemma grows_for_each {A} (l : list A) (body : A -> M unit) :
  (forall x, grows (body x)) -> grows (for_each l body).
Proof.
  intros Hb. induction l as [|x l IH]; simpl.
  - apply grows_ret.
  - apply grows_bind; [apply Hb | intros _; exact IH].
Qed.

(** A commit that returns has been accepted by the service. *)
Lemma commitFile_returned (owner repo path text message branch : string)
  (w w' : World) :
  commitFile owner repo path text message branch w = (Returned tt, w') ->
  exists read sha,
    calls w'
    = (calls w
       ++ [read;
           (repos_createOrUpdateFileContents owner repo path message text
              sha branch, true)])%list.
Proof.
  unfold commitFile, getFileSha. rewrite bind_run, try_catch_run, bind_run.
  unfold request at 1.
  destruct (octokit (calls w) (repos_getContent owner repo path branch))
    as [e|data]; cbn [ret]; unfold request;
    match goal with
    | |- context [octokit ?h ?c] => destruct (octokit h c) as [e'|[]]
    end; try discriminate;
    intros [= <-]; cbn [calls log_call]; rewrite <- app_assoc;
    eexists _, _; reflexivity.
Qed.

(** A loop of commits that returns has had each of them accepted. *)
Lemma commits_returned (owner repo message branch : string)
  (l : list (string * string)) (w w' : World) :
  for_each l (fun '(path, text) =>
                commitFile owner repo path text message branch) w
  = (Returned tt, w') ->
  exists done,
    calls w' = (calls w ++ done)%list
    /\ forall path text,
        In (path, text) l ->
        exists sha,
          In (repos_createOrUpdateFileContents owner repo path message text
                sha branch, true) done.
Proof.
  revert w; induction l as [|[p t] l IH]; intros w; cbn [for_each].
  - intros [= <-]. exists []. split; [now rewrite app_nil_r | intros ? ? []].
  - intros H. apply bind_returned in H. destruct H as ([] & w1 & H1 & H2).
    apply commitFile_returned in H1. destruct H1 as (read & sha & E1).
    destruct (IH w1 H2) as (done & E2 & Hin).
    eexists. split.
    + rewrite E2, E1, <- app_assoc. reflexivity.
    + intros path text [[= <- <-]|Hl].
      * exists sha. apply in_or_app. left. right. now left.
      * destruct (Hin path text Hl) as [sha' Hs]. exists sha'.
        apply in_or_app. now right.
Qed.

Lemma request_returned (c : Call) (d : Data c) (w w' : World) :
  request c w = (Returned d, w') -> calls w' = (calls w ++ [(c, true)])%list.
Proof.
  unfold request. destruct (octokit (calls w) c); [discriminate|].
  now intros [= _ <-].
Qed.

Lemma grows_returned {A} (m : M A) (a : A) (w w' : World) :
  grows m -> m w = (Returned a, w') ->
  exists done, calls w' = (calls w ++ done)%list.
Proof. intros G E. destruct (G w) as [d H]. rewrite E in H. now exists d. Qed.

(** C8: after a reset that was answered 200 the store is empty and the
    counter is back at 1, so listing the pending reviews gives the
    empty list; and among the remote calls of the reset, accepted by
    the service, are a commit of each initial document to the main line
    of the documentation repository and a commit of the initial demo
    code to the product repository. *)
Theorem reset_clears_and_restores
  (authorization : option string) (w w' : World) (r : Response) :
  post_reset authorization w = (Returned r, w') ->
  status_code r = 200 ->
  pendingReviews w' = []
  /\ reviewIdCounter w' = 1
  /\ get_reviews w'
     = (Returned {| status_code := 200; body := reviews_body [] |}, w')
  /\ exists done,
      calls w' = (calls w ++ done)%list
      /\ (forall path text,
             In (path, text) INITIAL_DOCS ->
             exists sha,
               In (repos_createOrUpdateFileContents DOCS_REPO_OWNER DOCS_REPO
                     path "chore: reset to initial state" text sha "main",
                   true) done)
      /\ (exists sha,
             In (repos_createOrUpdateFileContents PRODUCT_REPO_OWNER
                   PRODUCT_REPO "src/routes/users.ts"
                   "chore: reset to initial state" DEMO_CODE_BEFORE sha "main",
                 true) done).
Proof.
  unfold post_reset. intros H S.
  destruct (requireAdmin_cases authorization
              (broadcast RESET_STARTED ;;
               try_catch
                 (prs <- request (pulls_list DOCS_REPO_OWNER DOCS_REPO "open") ;;
                  for_each prs (fun pr =>
                    request (pulls_update DOCS_REPO_OWNER DOCS_REPO
                               (number pr) "closed") ;;
                    broadcast (PR_CLOSED (number pr))) ;;
                  for_each INITIAL_DOCS (fun '(path, content) =>
                    commitFile DOCS_REPO_OWNER DOCS_REPO path content
                      "chore: reset to initial state" "main") ;;
                  commitFile PRODUCT_REPO_OWNER PRODUCT_REPO
                    "src/routes/users.ts" DEMO_CODE_BEFORE
                    "chore: reset to initial state" "main" ;;
                  clear_reviews ;;
                  broadcast DEMO_RESET ;;
                  json success_body)
                 (fun message => status_json 500 (error_body message))))
    as [E|E]; rewrite E in H; clear E;
    [|injection H as <- _; discriminate S].
  apply bind_returned in H. destruct H as ([] & w0 & H0 & H).
  assert (C0 : calls w0 = calls w) by (injection H0 as <-; reflexivity).
  clear H0. rewrite try_catch_run in H.
  match type of H with
  | (match ?body w0 with _ => _ end) = _ =>
      destruct (body w0) as [[r0|e] w9] eqn:B
  end; [|injection H as <- _; discriminate S].
  injection H as -> ->. clear S.
  apply bind_returned in B. destruct B as (prs & w1 & H1 & B).
  apply request_returned in H1.
  apply bind_returned in B. destruct B as ([] & w2 & H2 & B).
  apply grows_returned in H2;
    [|apply grows_for_each; intros pr; apply grows_bind;
      [apply grows_request | intros _; apply grows_broadcast]].
  destruct H2 as (d2 & H2).
  apply bind_returned in B. destruct B as ([] & w3 & H3 & B).
  apply commits_returned in H3. destruct H3 as (d3 & H3 & Hdocs).
  apply bind_returned in B. destruct B as ([] & w4 & H4 & B).
  apply commitFile_returned in H4. destruct H4 as (read & sha & H4).
  injection B as <- <-. cbn.
  repeat split.
  eexists. split.
  - rewrite H4, H3, H2, H1, C0, <- !app_assoc. reflexivity.
  - split.
    + intros path text Hin. destruct (Hdocs path text Hin) as [sha' Hs].
      exists sha'. apply in_or_app. right. apply in_or_app. right.
      apply in_or_app. now left.
    + exists sha. do 3 (apply in_or_app; right). right. now left.
Qed.

(** ** Requests that fail *)

Lemma returns_next_review_id : returns next_review_id.
Proof. intros w. now eexists. Qed.

Lemma returns_store_review (review : Review) : returns (store_review review).
Proof. intros w. now eexists. Qed.

Lemma returns_set_accessLevel (level : string) : returns (set_accessLevel level).
Proof. intros w. now eexists. Qed.

Lemma returns_clear_reviews : returns clear_reviews.
Proof. intros w. now eexists. Qed.

Lemma returns_update_review (k : Z) (f : Review -> Review) :
  returns (update_review k f).
Proof.
  intros w. unfold update_review. rewrite bind_run. cbn [gets].
  destruct (map_get k (pendingReviews w)); now eexists.
Qed.

Lemma finishes_ret {A} (ok : A -> Prop) (a : A) : ok a -> finishes ok (ret a).
Proof. intros H w. now exists a, w. Qed.

Lemma finishes_json (ok : Response -> Prop) (b : Body) :
  ok {| status_code := 200; body := b |} -> finishes ok (json b).
Proof. apply finishes_ret. Qed.

Lemma finishes_status_json (ok : Response -> Prop) (code : Z) (b : Body) :
  ok {| status_code := code; body := b |} -> finishes ok (status_json code b).
Proof. apply finishes_ret. Qed.

Lemma finishes_bind {A B} (ok : B -> Prop) (m : M A) (k : A -> M B) :
  returns m -> (forall a, finishes ok (k a)) -> finishes ok (bind m k).
Proof.
  intros Hm Hk w. rewrite bind_run. destruct (Hm w) as [a Ha].
  destruct (m w) as [[a'|e] w1]; simpl in Ha; [|discriminate].
  apply Hk.
Qed.





(** Takes a goal [returns m], for [m] made of steps that cannot
    throw, apart. *)
Ltac ending :=
  repeat first
    [ simple apply returns_ret | simple apply returns_gets
    | simple apply returns_now | simple apply returns_broadcast
    | simple apply returns_next_review_id | simple apply returns_store_review
    | simple apply returns_set_accessLevel | simple apply returns_clear_reviews
    | simple apply returns_update_review
    | simple apply returns_getFileSha | simple apply returns_getFileContent
    | simple apply returns_bind
    | simple apply returns_try_catch
    | match goal with
      | |- forall _, _ => intro
      | |- returns (match ?x with _ => _ end) => destruct x
      | |- returns (if ?x then _ else _) => destruct x
      | |- returns (let '(_, _) := ?x in _) => destruct x
      end
    | progress cbv beta ].

(** Takes a goal [finishes ok m] apart. *)
Ltac finish :=
  repeat first
    [ simple apply finishes_ret
    | simple apply finishes_json | simple apply finishes_status_json
    | simple apply finishes_bind; [solve [ending] | intro]
    | match goal with
      | |- finishes _ (match ?x with _ => _ end) => destruct x
      | |- finishes _ (if ?x then _ else _) => destruct x
      | |- finishes _ (let '(_, _) := ?x in _) => destruct x
      end
    | progress cbv beta zeta
    | exact I | reflexivity ].

Lemma safe_failure_silent {A} (ok : A -> Prop) (m : M A) :
  silent m -> safe_failure ok m.
Proof.
  intros H w. specialize (H w).
  destruct (m w) as [[a|e] w']; [right|]; exact H.
Qed.

Lemma safe_failure_finishes {A} (ok : A -> Prop) (m : M A) :
  finishes ok m -> safe_failure ok m.
Proof. intros H w. destruct (H w) as (a & w' & -> & Ha). now left. Qed.

Lemma safe_failure_bind {A B} (ok : B -> Prop) (m : M A) (k : A -> M B) :
  silent m -> (forall a, safe_failure ok (k a)) -> safe_failure ok (bind m k).
Proof.
  intros Hm Hk w. rewrite bind_run. specialize (Hm w).
  destruct (m w) as [[a|e] w1]; simpl in Hm; [|exact Hm].
  specialize (Hk a w1). unfold unchanged in Hk |- *.
  destruct Hm as (P1 & C1 & A1 & I1).
  destruct (k a w1) as [[b|e] w2];
    [destruct Hk as [Hk|(P2 & C2 & A2 & I2)]; [now left|right]
    |destruct Hk as (P2 & C2 & A2 & I2)];
    repeat split; congruence.
Qed.

Lemma safe_failure_then {A B} (ok : B -> Prop) (m : M A) (k : A -> M B) :
  safe_failure (fun _ => True) m -> (forall a, finishes ok (k a)) ->
  safe_failure ok (bind m k).
Proof.
  intros Hm Hk w. rewrite bind_run. specialize (Hm w).
  destruct (m w) as [[a|e] w1]; [|exact Hm].
  destruct (Hk a w1) as (b & w2 & -> & Hb). now left.
Qed.

Lemma safe_failure_try_catch {A} (ok : A -> Prop) (m : M A)
  (h : string -> M A) :
  safe_failure ok m -> (forall e, silent (h e)) ->
  safe_failure ok (try_catch m h).
Proof.
  intros Hm Hh w. rewrite try_catch_run. specialize (Hm w).
  destruct (m w) as [[a|e] w1]; [exact Hm|].
  specialize (Hh e w1). unfold unchanged in Hm |- *.
  destruct Hm as (P1 & C1 & A1 & I1).
  destruct (h e w1) as [[a|e'] w2]; simpl in Hh;
    destruct Hh as (P2 & C2 & A2 & I2); [right|];
    repeat split; congruence.
Qed.

Lemma safe_failure_requireAdmin (ok : Response -> Prop)
  (authorization : option string) (next : M Response) :
  safe_failure ok next -> safe_failure ok (requireAdmin authorization next).
Proof.
  intros H.
  destruct (requireAdmin_cases authorization next) as [-> | ->];
    [exact H | apply safe_failure_silent, silent_ret].
Qed.

Ltac settle_leaf := fail.

(** Takes a goal [safe_failure ok m] apart along the structure of
    [m]: a silent start, then steps that cannot throw. *)
Ltac settle :=
  repeat first
    [ solve [simple apply safe_failure_silent; silence]
    | simple apply safe_failure_requireAdmin
    | simple apply safe_failure_try_catch; [|solve [intro; silence]]
    | settle_leaf
    | simple apply safe_failure_bind; [solve [silence] | intro]
    | solve [simple apply safe_failure_finishes; finish]
    | simple apply safe_failure_then; [|solve [intro; finish]]
    | match goal with
      | |- safe_failure _ (match ?x with _ => _ end) => destruct x
      | |- safe_failure _ (if ?x then _ else _) => destruct x
      | |- safe_failure _ (let '(_, _) := ?x in _) => destruct x
      end
    | progress cbv beta zeta ].

Lemma safe_failure_handleMediumAccess (changedFiles : list string) :
  safe_failure (fun _ => True) (handleMediumAccess changedFiles).
Proof. unfold handleMediumAccess. settle. Qed.

Ltac settle_leaf ::= simple apply safe_failure_handleMediumAccess.

Lemma respond_safe_failure (m : M Response) (w : World) :
  safe_failure ok_200 m ->
  succeeded (fst (respond m w)) = false -> unchanged w (snd (respond m w)).
Proof.
  intros H. specialize (H w). unfold respond.
  destruct (m w) as [[r|e] w']; simpl; [|now intros _].
  destruct H as [H|H]; [|now intros _].
  unfold ok_200 in H. rewrite H. discriminate.
Qed.

(** X1: a request that does not go through changes none of the module
    variables: whenever the answer is not 200 (or the timer callback
    rejects), the store of reviews, the id counter and the access
    level are what they were before the request. *)
Theorem failed_request_changes_nothing (req : Request) (w : World) :
  succeeded (fst (handle req w)) = false ->
  pendingReviews (snd (handle req w)) = pendingReviews w
  /\ reviewIdCounter (snd (handle req w)) = reviewIdCounter w
  /\ accessLevel (snd (handle req w)) = accessLevel w.
Proof.
  intros F.
  assert (U : unchanged w (snd (handle req w))); [|unfold unchanged in U; tauto].
  revert F. destruct req; cbn [handle];
    try (apply respond_safe_failure).
  - unfold get_status. settle.
  - unfold get_reviews. settle.
  - unfold get_review. settle.
  - unfold post_review_approve. settle.
  - unfold post_review_edit. settle.
  - unfold post_webhook. settle.
  - unfold post_trigger. settle.
  - assert (S : safe_failure (fun _ : unit => True) on_trigger_timeout)
      by (unfold on_trigger_timeout; settle).
    specialize (S w).
    destruct (on_trigger_timeout w) as [[[]|e] w']; simpl;
      [discriminate | now intros _].
  - unfold post_reset. settle.
  - unfold post_access_level. settle.
  - unfold get_analyze. settle.
  - unfold get_analyze_stream. settle.
  - unfold post_fix_gaps. settle.
Qed.

(** ** Every request is answered *)







(** ** The timer callback of the trigger *)

Lemma collect_updates_demo : collect_updates ["src/routes/users.ts"] <> [].
Proof.
  intros E.
  pose proof (collect_updates_users ["src/routes/users.ts"]
                (or_introl eq_refl)) as K.
  rewrite E in K. discriminate K.
Qed.

(** X3: the timer callback that [/trigger] leaves behind has no
    [try]: with an access level other than [high], when the service
    rejects the read of the main branch the callback rejects with the
    message of the service, which nothing catches; the store is as
    before, and the rejected call is the only one made. *)
Theorem timer_rejection_is_unhandled (w : World) (e : string) :
  accessLevel w <> "high" ->
  octokit (calls w) (git_getRef DOCS_REPO_OWNER DOCS_REPO "heads/main")
  = inl e ->
  exists w',
    handle trigger_timeout w = (Unhandled e, w')
    /\ pendingReviews w' = pendingReviews w
    /\ calls w'
       = (calls w
          ++ [(git_getRef DOCS_REPO_OWNER DOCS_REPO "heads/main", false)])%list.
Proof.
  intros L H. cbn [handle]. unfold on_trigger_timeout.
  rewrite bind_run. cbn [gets].
  destruct (String.eqb_spec (accessLevel w) "high") as [E|_]; [now elim L|].
  rewrite bind_run. unfold handleMediumAccess.
  pose proof collect_updates_demo as N.
  destruct (collect_updates ["src/routes/users.ts"]) as [|u us];
    [now elim N|].
  unfold broadcast, now. rewrite !bind_run.
  unfold request at 1. cbn [calls tick log_event]. rewrite H.
  eexists. split; [reflexivity|]. split; reflexivity.
Qed.

(** ** Approving and editing a review *)

Lemma map_get_set (k : Z) (r : Review) (m : ReviewMap) :
  map_get k (map_set k r m) = Some r.
Proof.
  induction m as [|[k' r'] m IH]; simpl.
  - now rewrite Z.eqb_refl.
  - destruct (Z.eqb_spec k k') as [->|ne]; simpl.
    + now rewrite Z.eqb_refl.
    + destruct (Z.eqb_spec k k'); [contradiction | exact IH].
Qed.

Lemma map_get_set_other (j k : Z) (r : Review) (m : ReviewMap) :
  j <> k -> map_get j (map_set k r m) = map_get j m.
Proof.
  intros N. induction m as [|[k' r'] m IH]; simpl.
  - destruct (Z.eqb_spec j k); [contradiction | reflexivity].
  - destruct (Z.eqb_spec k k') as [->|ne]; simpl.
    + destruct (Z.eqb_spec j k'); [contradiction | reflexivity].
    + destruct (Z.eqb_spec j k'); [reflexivity | exact IH].
Qed.

Lemma map_set_present (k : Z) (r r' : Review) (m : ReviewMap) :
  map_get k m = Some r' -> map_keys (map_set k r m) = map_keys m.
Proof.
  induction m as [|[k' r''] m IH]; simpl; [discriminate|].
  destruct (Z.eqb_spec k k') as [->|ne]; simpl; [reflexivity|].
  intros H. f_equal. now apply IH.
Qed.

Lemma request_run (c : Call) (w : World) :
  request c w = match octokit (calls w) c with
                | inr data => (Returned data, log_call c true w)
                | inl message => (Thrown message, log_call c false w)
                end.
Proof. reflexivity. Qed.

Lemma broadcast_run (event : Event) (w : World) :
  broadcast event w
  = (Returned tt, log_event event (clock (clock_reads w)) (tick w)).
Proof. reflexivity. Qed.

Lemma update_review_run (k : Z) (f : Review -> Review) (w : World) :
  update_review k f w
  = match map_get k (pendingReviews w) with
    | Some r => set_pendingReviews (map_set k (f r) (pendingReviews w)) w
    | None => (Returned tt, w)
    end.
Proof.
  unfold update_review. rewrite bind_run. cbn [gets].
  now destruct (map_get k (pendingReviews w)).
Qed.

(** Runs a handler step by step, up to the next remote call. *)
Ltac run :=
  repeat first
    [ rewrite bind_run | rewrite try_catch_run | rewrite request_run
    | rewrite broadcast_run | rewrite update_review_run
    | progress cbn [ret json status_json gets now throw
                    set_pendingReviews set_accessLevel next_review_id
                    store_review clear_reviews
                    log_call log_event tick calls events pendingReviews
                    reviewIdCounter accessLevel clock_reads issued] ].

(** X4: approving a stored review that has a pull-request number, on
    a request that passes the guard, comes to what the merge call
    comes to.  When the service accepts the merge the answer is 200,
    the review stays in the store under its id with the status
    [merged], and [PR_MERGED] and [DEPLOYMENT_STARTED] are broadcast,
    whether or not the branch could be deleted afterwards.  When the
    service rejects the merge the answer is 500 with its message, and
    neither the store nor the broadcasts change.  The status of the
    review is not looked at: a merged review is merged again. *)
Theorem approve_merges_pull_request
  (authorization : option string) (id_param : string) (k n : Z)
  (review : Review) (w : World) :
  ~ turned_away authorization ->
  parseInt id_param = Some k ->
  map_get k (pendingReviews w) = Some review ->
  prNumber review = Some n ->
  n <> 0 ->
  match octokit (calls w)
          (pulls_merge DOCS_REPO_OWNER DOCS_REPO n "squash") with
  | inr _ =>
      exists w',
        post_review_approve authorization id_param w
        = (Returned {| status_code := 200;
                       body := success_message_body
                                 "PR merged successfully" |}, w')
        /\ pendingReviews w'
           = map_set k (with_status merged review) (pendingReviews w)
        /\ map_get k (pendingReviews w') = Some (with_status merged review)
        /\ map_keys (pendingReviews w') = map_keys (pendingReviews w)
        /\ map fst (events w')
           = (map fst (events w) ++ [PR_MERGED n; DEPLOYMENT_STARTED])%list
  | inl message =>
      exists w',
        post_review_approve authorization id_param w
        = (Returned {| status_code := 500; body := error_body message |}, w')
        /\ pendingReviews w' = pendingReviews w
        /\ events w' = events w
  end.
Proof.
  intros A Hp Hg Hn N0. unfold post_review_approve.
  rewrite (requireAdmin_pass _ _ A), bind_run. cbn [gets].
  unfold find_review. rewrite Hp, Hg, Hn.
  destruct n as [|p|p]; [now elim N0| |];
    rewrite try_catch_run, bind_run, request_run;
    (destruct (octokit (calls w) _) as [message|[]];
     [eexists; split; [reflexivity|]; split; reflexivity|]);
    run;
    (destruct (octokit _ (git_deleteRef _ _ _)) as [message|[]]; run;
     rewrite Hg; run;
     (eexists; split; [reflexivity|]; cbn [pendingReviews events];
      split; [reflexivity|]; split; [apply map_get_set|];
      split; [exact (map_set_present _ _ _ _ Hg)|];
      cbn [events log_event tick]; now rewrite !map_app, <- app_assoc)).
Qed.

Lemma own_get_obj_set {A} (k : string) (v : A) (o : JsObject A) :
  own_get k (obj_set k v o) = Some v.
Proof. clear.
  induction o as [|[k' v'] o IH]; simpl.
  - now rewrite String.eqb_refl.
  - destruct (String.eqb_spec k k') as [->|ne]; simpl.
    + now rewrite String.eqb_refl.
    + destruct (String.eqb_spec k k'); [contradiction | exact IH].
Qed.

Lemma obj_set_present {A} (k : string) (v v' : A) (o : JsObject A) :
  own_get k o = Some v' -> keys (obj_set k v o) = keys o.
Proof. clear.
  induction o as [|[k' v''] o IH]; simpl; [discriminate|].
  destruct (String.eqb_spec k k') as [->|ne]; simpl; [reflexivity|].
  intros H. f_equal. now apply IH.
Qed.

(** X5: editing a file that a stored review holds, on a request that
    passes the guard with a file name and a content that are not empty,
    is answered 200 or 500.  With 200 the content was committed to the
    branch of the review (the commit was accepted) and has become the
    [after] of that file in the stored review, whose [before], other
    files and order of files are as they were; with 500 the store is
    unchanged. *)
Theorem edit_replaces_after
  (authorization : option string) (id_param : string) (k : Z)
  (review : Review) (file content : string) (change : FileChange)
  (w : World) :
  ~ turned_away authorization ->
  parseInt id_param = Some k ->
  map_get k (pendingReviews w) = Some review ->
  file <> "" ->
  content <> "" ->
  own_get file (files review) = Some change ->
  let edited :=
    with_files (obj_set file {| before := before change; after := content |}
                  (files review)) review in
  exists r w',
    post_review_edit authorization id_param (Some file) (Some content) w
    = (Returned r, w')
    /\ ((r = {| status_code := 200; body := success_body |}
         /\ pendingReviews w' = map_set k edited (pendingReviews w)
         /\ own_get file (files edited)
            = Some {| before := before change; after := content |}
         /\ keys (files edited) = keys (files review)
         /\ exists read sha,
             calls w'
             = (calls w
                ++ [read;
                    (repos_createOrUpdateFileContents DOCS_REPO_OWNER
                       DOCS_REPO file ("docs: manual edit to " ++ file)
                       content sha
                       (match branch review with
                        | Some b => b
                        | None => "main"
                        end), true)])%list)
        \/ (exists message,
               r = {| status_code := 500; body := error_body message |}
               /\ pendingReviews w' = pendingReviews w)).
Proof.
  intros A Hp Hg Hf Hc Ho edited. unfold post_review_edit.
  rewrite (requireAdmin_pass _ _ A), bind_run. cbn [gets].
  unfold find_review. rewrite Hp, Hg. unfold nonempty.
  destruct (String.eqb_spec file "") as [E|_]; [now elim Hf|].
  destruct (String.eqb_spec content "") as [E|_]; [now elim Hc|].
  cbn [negb orb]. rewrite get_Own, Ho.
  rewrite try_catch_run, bind_run.
  pose proof (silent_commitFile DOCS_REPO_OWNER DOCS_REPO file content
                ("docs: manual edit to " ++ file)
                (match branch review with Some b => b | None => "main" end) w)
    as (Sp & _).
  destruct (commitFile _ _ _ _ _ _ w) as [[[]|e] w1] eqn:C; cbn [snd] in Sp.
  - apply commitFile_returned in C. destruct C as (read & sha & C).
    run. rewrite Sp, Hg. run.
    eexists _, _. split; [reflexivity|]. left.
    split; [reflexivity|]. split; [reflexivity|].
    split; [apply own_get_obj_set|].
    split; [exact (obj_set_present _ _ _ _ Ho)|].
    exists read, sha. exact C.
  - run. eexists _, _. split; [reflexivity|]. right.
    exists e. split; [reflexivity | exact Sp].
Qed.

(** ** The access level *)

Lemma requireAdmin_decide (authorization : option string) (next : M Response) :
  (~ turned_away authorization /\ requireAdmin authorization next = next)
  \/ (turned_away authorization
      /\ requireAdmin authorization next
         = status_json 401 (error_body "Unauthorized")).
Proof.
  unfold turned_away, requireAdmin.
  destruct (String.eqb_spec ADMIN_SECRET "") as [E|Hs].
  - left. split; [|reflexivity]. intros [H _]. now apply H.
  - destruct authorization as [h|].
    + destruct (String.eqb_spec h ("Bearer " ++ ADMIN_SECRET)) as [->|Hh].
      * left. split; [|reflexivity].
        intros [_ [H|(h' & [= <-] & H)]]; [discriminate H | now apply H].
      * right. rewrite orb_true_r. split; [|reflexivity].
        split; [exact Hs|]. right. now exists h.
    + right. split; [|reflexivity]. split; [exact Hs | now left].
Qed.

Lemma level_kept_silent {A} (m : M A) : silent m -> level_kept m.
Proof. intros S w. exact (proj1 (proj2 (proj2 (S w)))). Qed.

Lemma level_kept_bind {A B} (m : M A) (k : A -> M B) :
  level_kept m -> (forall a, level_kept (k a)) -> level_kept (bind m k).
Proof.
  intros Hm Hk w. rewrite bind_run. specialize (Hm w).
  destruct (m w) as [[a|e] w1]; simpl in Hm; [|exact Hm].
  now rewrite (Hk a w1).
Qed.

Lemma level_kept_try_catch {A} (m : M A) (h : string -> M A) :
  level_kept m -> (forall e, level_kept (h e)) -> level_kept (try_catch m h).
Proof.
  intros Hm Hh w. rewrite try_catch_run. specialize (Hm w).
  destruct (m w) as [[a|e] w1]; simpl in Hm; [exact Hm|].
  now rewrite (Hh e w1).
Qed.

Lemma level_kept_next_review_id : level_kept next_review_id.
Proof. intros w. reflexivity. Qed.

Lemma level_kept_store_review (review : Review) :
  level_kept (store_review review).
Proof. intros w. reflexivity. Qed.

Lemma level_kept_clear_reviews : level_kept clear_reviews.
Proof. intros w. reflexivity. Qed.

Lemma level_kept_update_review (k : Z) (f : Review -> Review) :
  level_kept (update_review k f).
Proof.
  intros w. unfold update_review. rewrite bind_run. cbn [gets].
  now destruct (map_get k (pendingReviews w)).
Qed.

Lemma level_kept_requireAdmin (authorization : option string)
  (next : M Response) :
  level_kept next -> level_kept (requireAdmin authorization next).
Proof.
  intros H.
  destruct (requireAdmin_cases authorization next) as [-> | ->];
    [exact H | now intros w].
Qed.

Ltac level_leaf := fail.

(** Takes a goal [level_kept m] apart along the structure of [m]. *)
Ltac level :=
  repeat first
    [ solve [simple apply level_kept_silent; silence]
    | level_leaf
    | simple apply level_kept_next_review_id
    | simple apply level_kept_store_review
    | simple apply level_kept_clear_reviews
    | simple apply level_kept_update_review
    | simple apply level_kept_requireAdmin
    | simple apply level_kept_bind | simple apply level_kept_try_catch
    | match goal with
      | |- forall _, _ => intro
      | |- level_kept (match ?x with _ => _ end) => destruct x
      | |- level_kept (if ?x then _ else _) => destruct x
      | |- level_kept (let '(_, _) := ?x in _) => destruct x
      end
    | progress cbv beta zeta ].

Lemma level_kept_handleMediumAccess (changedFiles : list string) :
  level_kept (handleMediumAccess changedFiles).
Proof. unfold handleMediumAccess. level. Qed.

Ltac level_leaf ::= simple apply level_kept_handleMediumAccess.

Lemma level_kept_run {A} (m : M A) (w : World) :
  level_kept m -> accessLevel (snd (m w)) = accessLevel w.
Proof. intros K. apply K. Qed.

(** X6: the access level follows the requests for it and nothing
    else.  A [POST /access-level] that passes the guard with the level
    [high] or [medium] is answered 200, sets the level, makes no
    remote call, and [GET /status] then reports it; and whenever a
    request changes the access level, it is such a request: no other
    route, the reset included, and no refused request touches it. *)
Theorem access_level_changes_on_request_only (req : Request) (w : World) :
  (forall authorization level,
      req = POST_access_level authorization (Some level) ->
      ~ turned_away authorization ->
      level = "high" \/ level = "medium" ->
      exists w',
        handle req w
        = (Responded {| status_code := 200;
                        body := accessLevel_body level |}, w')
        /\ accessLevel w' = level
        /\ pendingReviews w' = pendingReviews w
        /\ calls w' = calls w
        /\ get_status w'
           = (Returned
                {| status_code := 200;
                   body := status_body level (List.length (pendingReviews w))
                             (DOCS_REPO_OWNER ++ "/" ++ DOCS_REPO)
                             (PRODUCT_REPO_OWNER ++ "/" ++ PRODUCT_REPO) |},
              w'))
  /\ (accessLevel (snd (handle req w)) <> accessLevel w ->
      exists authorization level,
        req = POST_access_level authorization (Some level)
        /\ ~ turned_away authorization
        /\ (level = "high" \/ level = "medium")
        /\ accessLevel (snd (handle req w)) = level).
Proof.
  split.
  - intros authorization level -> A V. cbn [handle]. unfold respond.
    unfold post_access_level. rewrite (requireAdmin_pass _ _ A).
    assert (E : String.eqb level "high" || String.eqb level "medium" = true)
      by (destruct V as [-> | ->]; reflexivity).
    rewrite E. run. eexists. split; [reflexivity|].
    repeat split; reflexivity.
  - intros N.
    destruct req; cbn [handle] in N |- *; rewrite ?respond_snd in N |- *.
    + exfalso. apply N, level_kept_run. unfold get_status. level.
    + exfalso. apply N, level_kept_run. unfold get_reviews. level.
    + exfalso. apply N, level_kept_run. unfold get_review. level.
    + exfalso. apply N, level_kept_run. unfold post_review_approve. level.
    + exfalso. apply N, level_kept_run. unfold post_review_edit. level.
    + exfalso. apply N, level_kept_run. unfold post_webhook. level.
    + exfalso. apply N, level_kept_run. unfold post_trigger. level.
    + exfalso. apply N.
      assert (K : level_kept on_trigger_timeout)
        by (unfold on_trigger_timeout; level).
      specialize (K w). now destruct (on_trigger_timeout w) as [[r|e] w'].
    + exfalso. apply N, level_kept_run. unfold post_reset. level.
    + unfold post_access_level in N |- *.
      destruct (requireAdmin_decide authorization
                  (match level with
                   | Some level =>
                       if String.eqb level "high" || String.eqb level "medium"
                       then
                         set_accessLevel level ;;
                         broadcast (ACCESS_LEVEL_CHANGED level) ;;
                         json (accessLevel_body level)
                       else status_json 400 (error_body "Invalid access level")
                   | None => status_json 400 (error_body "Invalid access level")
                   end)) as [(A & E)|(_ & E)];
        rewrite E in N |- *; clear E; [|now elim N].
      destruct level as [l|]; [|now elim N].
      exists authorization, l. split; [reflexivity|]. split; [exact A|].
      destruct (String.eqb_spec l "high") as [->|_];
        [split; [now left | reflexivity]|].
      destruct (String.eqb_spec l "medium") as [->|_];
        [split; [now right | reflexivity]|].
      now elim N.
    + exfalso. apply N, level_kept_run. unfold get_analyze. level.
    + exfalso. apply N, level_kept_run. unfold get_analyze_stream. level.
    + exfalso. apply N, level_kept_run. unfold post_fix_gaps. level.
Qed.

(** ** The remote calls a handler makes *)

Lemma calling_quiet {A} (P : Call -> bool) (m : M A) :
  (forall w, calls (snd (m w)) = calls w) -> calling P m.
Proof.
  intros H w. exists []. rewrite H, app_nil_r. split; [reflexivity|constructor].
Qed.

Lemma calling_ret {A} (P : Call -> bool) (a : A) : calling P (ret a).
Proof. now apply calling_quiet. Qed.

Lemma calling_throw {A} (P : Call -> bool) (e : string) : calling P (@throw A e).
Proof. now apply calling_quiet. Qed.

Lemma calling_gets {A} (P : Call -> bool) (f : World -> A) : calling P (gets f).
Proof. now apply calling_quiet. Qed.

Lemma calling_now (P : Call -> bool) : calling P now.
Proof. now apply calling_quiet. Qed.

Lemma calling_broadcast (P : Call -> bool) (event : Event) :
  calling P (broadcast event).
Proof. now apply calling_quiet. Qed.

Lemma calling_next_review_id (P : Call -> bool) : calling P next_review_id.
Proof. now apply calling_quiet. Qed.

Lemma calling_store_review (P : Call -> bool) (review : Review) :
  calling P (store_review review).
Proof. now apply calling_quiet. Qed.

Lemma calling_request (P : Call -> bool) (c : Call) :
  P c = true -> calling P (request c).
Proof.
  intros H w. rewrite request_run.
  destruct (octokit (calls w) c); eexists; (split; [reflexivity|]);
    now repeat constructor.
Qed.

Lemma calling_bind {A B} (P : Call -> bool) (m : M A) (k : A -> M B) :
  calling P m -> (forall a, calling P (k a)) -> calling P (bind m k).
Proof.
  intros Hm Hk w. rewrite bind_run. destruct (Hm w) as (d1 & E1 & F1).
  destruct (m w) as [[a|e] w1]; simpl in E1.
  - destruct (Hk a w1) as (d2 & E2 & F2). exists (d1 ++ d2)%list.
    rewrite E2, E1, app_assoc. split; [reflexivity|].
    apply Forall_app. now split.
  - now exists d1.
Qed.

Lemma calling_try_catch {A} (P : Call -> bool) (m : M A) (h : string -> M A) :
  calling P m -> (forall e, calling P (h e)) -> calling P (try_catch m h).
Proof.
  intros Hm Hh w. rewrite try_catch_run. destruct (Hm w) as (d1 & E1 & F1).
  destruct (m w) as [[a|e] w1]; simpl in E1.
  - now exists d1.
  - destruct (Hh e w1) as (d2 & E2 & F2). exists (d1 ++ d2)%list.
    rewrite E2, E1, app_assoc. split; [reflexivity|].
    apply Forall_app. now split.
Qed.

Lemma calling_for_each {A} (P : Call -> bool) (l : list A)
  (body : A -> M unit) :
  (forall x, calling P (body x)) -> calling P (for_each l body).
Proof.
  intros Hb. induction l as [|x l IH]; simpl.
  - apply calling_ret.
  - apply calling_bind; [apply Hb | intros _; exact IH].
Qed.

Lemma calling_commitFile (P : Call -> bool)
  (owner repo path text message branch : string) :
  P (repos_getContent owner repo path branch) = true ->
  (forall sha,
      P (repos_createOrUpdateFileContents owner repo path message text sha
           branch) = true) ->
  calling P (commitFile owner repo path text message branch).
Proof.
  intros Hr Hw. unfold commitFile, getFileSha.
  apply calling_bind.
  - apply calling_try_catch; [|intros e; apply calling_ret].
    apply calling_bind;
      [now apply (calling_request P (repos_getContent owner repo path branch))|].
    intros data. apply calling_ret.
  - intros sha.
    match goal with
    | |- calling P (request ?c) => apply (calling_request P c)
    end. apply Hw.
Qed.

Lemma calling_getFileContent (P : Call -> bool) (owner repo path ref : string) :
  P (repos_getContent owner repo path ref) = true ->
  calling P (getFileContent owner repo path ref).
Proof.
  intros Hr. unfold getFileContent.
  apply calling_try_catch; [|intros e; apply calling_ret].
  apply calling_bind;
    [now apply (calling_request P (repos_getContent owner repo path ref))|].
  intros data. destruct (content data) as [[encoding text]|];
    [destruct (String.eqb encoding "base64")|]; apply calling_ret.
Qed.

Lemma calling_json (P : Call -> bool) (b : Body) : calling P (json b).
Proof. apply calling_ret. Qed.

Lemma calling_status_json (P : Call -> bool) (code : Z) (b : Body) :
  calling P (status_json code b).
Proof. apply calling_ret. Qed.

(** Proves that a call is of the expected kind. *)
Ltac kind :=
  solve [ cbn [main_line_call spares_main demo_code_call];
          rewrite ?String.eqb_refl; reflexivity ].

Ltac trace_leaf := fail.

(** Takes a goal [calling P m] apart along the structure of [m]. *)
Ltac trace :=
  repeat first
    [ simple apply calling_ret | simple apply calling_throw
    | simple apply calling_gets | simple apply calling_now
    | simple apply calling_broadcast
    | simple apply calling_next_review_id | simple apply calling_store_review
    | simple apply calling_commitFile; [kind | intro; kind]
    | simple apply calling_getFileContent; kind
    | match goal with
      | |- calling ?P (request ?c) => apply (calling_request P c); kind
      end
    | trace_leaf
    | simple apply calling_bind | simple apply calling_try_catch
    | simple apply calling_for_each
    | match goal with
      | |- forall _, _ => intro
      | |- calling _ (match ?x with _ => _ end) => destruct x
      | |- calling _ (if ?x then _ else _) => destruct x
      | |- calling _ (let '(_, _) := ?x in _) => destruct x
      end
    | progress cbv beta zeta ].

Lemma calling_handleHighAccess (changedFiles : list string) :
  calling main_line_call (handleHighAccess changedFiles).
Proof. unfold handleHighAccess. trace. Qed.

Lemma calling_handleMediumAccess (changedFiles : list string) :
  calling spares_main (handleMediumAccess changedFiles).
Proof. unfold handleMediumAccess. trace. Qed.

Lemma calling_group_gaps (selectedGaps : list DocGap)
  (fileUpdates : JsObject (list DocGap * string)) :
  calling spares_main (group_gaps fileUpdates selectedGaps).
Proof.
  revert fileUpdates; induction selectedGaps as [|g l IH]; intros u; simpl.
  - apply calling_ret.
  - apply calling_bind; [unfold group_gap; trace | intros u'; apply IH].
Qed.

Ltac trace_leaf ::= simple apply calling_group_gaps.

Lemma calling_requireAdmin (P : Call -> bool) (authorization : option string)
  (next : M Response) :
  calling P next -> calling P (requireAdmin authorization next).
Proof.
  intros H.
  destruct (requireAdmin_cases authorization next) as [-> | ->];
    [exact H | apply calling_ret].
Qed.

Ltac trace_leaf ::=
  first [ simple apply calling_group_gaps | simple apply calling_requireAdmin
        | simple apply calling_json | simple apply calling_status_json ].

Lemma calling_post_fix_gaps (authorization : option string)
  (gapIds : option Json) :
  calling spares_main (post_fix_gaps authorization gapIds).
Proof. unfold post_fix_gaps. trace. Qed.

(** X7: creating a review, from a webhook or from a request for gap
    fixes, leaves the main line of the repositories and the open pull
    requests alone: every remote call made on the way is a read, the
    creation of a branch other than main, a commit to a branch other
    than main, or the opening of a pull request from such a branch.
    Nothing is merged, closed or deleted. *)
Theorem reviews_are_prepared_off_the_main_line :
  (forall changedFiles w,
      exists done,
        calls (snd (handleMediumAccess changedFiles w))
        = (calls w ++ done)%list
        /\ Forall (fun entry => spares_main (fst entry) = true) done)
  /\ (forall authorization gapIds w,
         exists done,
           calls (snd (post_fix_gaps authorization gapIds w))
           = (calls w ++ done)%list
           /\ Forall (fun entry => spares_main (fst entry) = true) done).
Proof.
  split.
  - intros changedFiles. exact (calling_handleMediumAccess changedFiles).
  - intros authorization gapIds.
    exact (calling_post_fix_gaps authorization gapIds).
Qed.

(** ** Direct commits *)

Lemma broadcast_returned (event : Event) (w w' : World) (u : unit) :
  broadcast event w = (Returned u, w') -> calls w' = calls w.
Proof. intros [= _ <-]. reflexivity. Qed.

Lemma high_updates_returned (updates : JsObject string) (w w' : World) :
  for_each updates (fun '(docPath, newContent) =>
    broadcast (COMMITTING docPath) ;;
    commitFile DOCS_REPO_OWNER DOCS_REPO docPath newContent
      ("docs: auto-update " ++ docPath ++ " based on code changes") "main" ;;
    broadcast (COMMITTED docPath)) w
  = (Returned tt, w') ->
  exists done,
    calls w' = (calls w ++ done)%list
    /\ forall path text,
        In (path, text) updates ->
        exists sha,
          In (repos_createOrUpdateFileContents DOCS_REPO_OWNER DOCS_REPO path
                ("docs: auto-update " ++ path ++ " based on code changes")
                text sha "main", true) done.
Proof.
  revert w; induction updates as [|[p t] l IH]; intros w; cbn [for_each].
  - intros [= <-]. exists []. split; [now rewrite app_nil_r | intros ? ? []].
  - intros H. apply bind_returned in H. destruct H as ([] & w3 & H & H4).
    apply bind_returned in H. destruct H as ([] & w1 & H1 & H).
    apply bind_returned in H. destruct H as ([] & w2 & H2 & H3).
    apply broadcast_returned in H1, H3.
    apply commitFile_returned in H2. destruct H2 as (read & sha & E2).
    destruct (IH w3 H4) as (done & E4 & Hin).
    eexists. split.
    + rewrite E4, H3, E2, H1, <- app_assoc. reflexivity.
    + intros path text [[= <- <-]|Hl].
      * exists sha. apply in_or_app. left. right. now left.
      * destruct (Hin path text Hl) as [sha' Hs]. exists sha'.
        apply in_or_app. now right.
Qed.

Lemma high_files_returned (changedFiles : list string) (w w' : World) :
  for_each changedFiles (fun file =>
    match get file UPDATE_MAPPINGS with
    | Own updates =>
        for_each updates (fun '(docPath, newContent) =>
          broadcast (COMMITTING docPath) ;;
          commitFile DOCS_REPO_OWNER DOCS_REPO docPath newContent
            ("docs: auto-update " ++ docPath ++ " based on code changes")
            "main" ;;
          broadcast (COMMITTED docPath))
    | Inherited => ret tt
    | Missing => ret tt
    end) w
  = (Returned tt, w') ->
  exists done,
    calls w' = (calls w ++ done)%list
    /\ forall file updates path text,
        In file changedFiles ->
        own_get file UPDATE_MAPPINGS = Some updates ->
        In (path, text) updates ->
        exists sha,
          In (repos_createOrUpdateFileContents DOCS_REPO_OWNER DOCS_REPO path
                ("docs: auto-update " ++ path ++ " based on code changes")
                text sha "main", true) done.
Proof.
  revert w; induction changedFiles as [|f l IH]; intros w; cbn [for_each].
  - intros [= <-]. exists []. split; [now rewrite app_nil_r|].
    intros ? ? ? ? [].
  - intros H. apply bind_returned in H. destruct H as ([] & w1 & H1 & H2).
    destruct (IH w1 H2) as (d2 & E2 & Hin2).
    assert (S : exists d1,
               calls w1 = (calls w ++ d1)%list
               /\ forall updates path text,
                   own_get f UPDATE_MAPPINGS = Some updates ->
                   In (path, text) updates ->
                   exists sha,
                     In (repos_createOrUpdateFileContents DOCS_REPO_OWNER
                           DOCS_REPO path
                           ("docs: auto-update " ++ path
                            ++ " based on code changes")
                           text sha "main", true) d1).
    { rewrite get_Own in H1.
      destruct (own_get f UPDATE_MAPPINGS) as [u|].
      - apply high_updates_returned in H1. destruct H1 as (d1 & E1 & Hin1).
        exists d1. split; [exact E1|]. intros updates path text [= <-].
        apply Hin1.
      - exists []. split; [|discriminate].
        destruct (existsb _ _); injection H1 as <-; now rewrite app_nil_r. }
    destruct S as (d1 & E1 & Hin1).
    exists (d1 ++ d2)%list. split; [now rewrite E2, E1, app_assoc|].
    intros file updates path text [<-|Hl] Ho Hp.
    + destruct (Hin1 updates path text Ho Hp) as [sha Hs]. exists sha.
      apply in_or_app. now left.
    + destruct (Hin2 file updates path text Hl Ho Hp) as [sha Hs].
      exists sha. apply in_or_app. now right.
Qed.

(** X8: with the access level [high] the documentation is updated in
    place: [handleHighAccess] stores no review and moves no counter,
    and every remote call it makes is a read of, or a commit to, the
    main line of the documentation repository, so no branch and no
    pull request is created.  When it returns, every documentation
    file the table maps a changed file to has had its new content
    committed there. *)
Theorem handleHighAccess_commits_to_main
  (changedFiles : list string) (w : World) :
  pendingReviews (snd (handleHighAccess changedFiles w)) = pendingReviews w
  /\ reviewIdCounter (snd (handleHighAccess changedFiles w))
     = reviewIdCounter w
  /\ exists done,
      calls (snd (handleHighAccess changedFiles w)) = (calls w ++ done)%list
      /\ Forall (fun entry => main_line_call (fst entry) = true) done
      /\ (fst (handleHighAccess changedFiles w) = Returned tt ->
          forall file updates path text,
            In file changedFiles ->
            own_get file UPDATE_MAPPINGS = Some updates ->
            In (path, text) updates ->
            exists sha,
              In (repos_createOrUpdateFileContents DOCS_REPO_OWNER DOCS_REPO
                    path
                    ("docs: auto-update " ++ path
                     ++ " based on code changes")
                    text sha "main", true) done).
Proof.
  destruct (silent_handleHighAccess changedFiles w) as (Sp & Sc & _).
  split; [exact Sp|]. split; [exact Sc|].
  destruct (calling_handleHighAccess changedFiles w) as (done & E & F).
  exists done. split; [exact E|]. split; [exact F|].
  intros R file updates path text Hf Ho Hp.
  destruct (handleHighAccess changedFiles w) as [[[]|e] w'] eqn:H;
    [|discriminate R]. cbn [snd] in E.
  unfold handleHighAccess in H.
  apply bind_returned in H. destruct H as ([] & w1 & H1 & H).
  apply bind_returned in H. destruct H as ([] & w2 & H2 & H3).
  apply broadcast_returned in H1, H3.
  apply high_files_returned in H2. destruct H2 as (d & E2 & Hin).
  assert (d = done).
  { apply (app_inv_head (calls w)). rewrite <- E, H3, E2, H1. reflexivity. }
  subst d. exact (Hin file updates path text Hf Ho Hp).
Qed.

(** ** The shape of the store *)

Lemma keeps_silent {A} (m : M A) : silent m -> keeps m.
Proof.
  intros S w T. destruct (S w) as (Ep & Ec & _ & _).
  unfold tidy. rewrite Ep, Ec. exact T.
Qed.

Lemma keeps_bind {A B} (m : M A) (k : A -> M B) :
  keeps m -> (forall a, keeps (k a)) -> keeps (bind m k).
Proof.
  intros Hm Hk w T. rewrite bind_run. specialize (Hm w T).
  destruct (m w) as [[a|e] w1]; [exact (Hk a w1 Hm) | exact Hm].
Qed.

Lemma keeps_try_catch {A} (m : M A) (h : string -> M A) :
  keeps m -> (forall e, keeps (h e)) -> keeps (try_catch m h).
Proof.
  intros Hm Hh w T. rewrite try_catch_run. specialize (Hm w T).
  destruct (m w) as [[a|e] w1]; [exact Hm | exact (Hh e w1 Hm)].
Qed.

Lemma keeps_set_accessLevel (level : string) : keeps (set_accessLevel level).
Proof. intros w T. exact T. Qed.

Lemma keeps_clear_reviews : keeps clear_reviews.
Proof.
  intros w T. split; [constructor|]. split; [constructor|]. intros k [].
Qed.

Lemma keeps_requireAdmin (authorization : option string) (next : M Response) :
  keeps next -> keeps (requireAdmin authorization next).
Proof.
  intros H.
  destruct (requireAdmin_cases authorization next) as [-> | ->];
    [exact H | apply keeps_silent, silent_ret].
Qed.

Lemma map_get_entry (k : Z) (m : ReviewMap) (r : Review) :
  map_get k m = Some r -> In (k, r) m.
Proof.
  induction m as [|[k' r'] m IH]; simpl; [discriminate|].
  destruct (Z.eqb_spec k k') as [->|ne].
  - intros [= ->]. now left.
  - intros H. right. now apply IH.
Qed.

Lemma map_set_well_formed (k : Z) (r : Review) (m : ReviewMap) :
  well_formed (k, r) -> Forall well_formed m ->
  Forall well_formed (map_set k r m).
Proof.
  intros Hr. induction 1 as [|[k' r'] m Hx Hm IH]; simpl.
  - constructor; [exact Hr | constructor].
  - destruct (Z.eqb_spec k k') as [<-|ne]; constructor; assumption.
Qed.

(** An assignment to a field other than the id, the pull request and
    the branch, and that does not set the status to [approved]. *)
Lemma keeps_update_review (k : Z) (f : Review -> Review) :
  (forall r, id (f r) = id r /\ prNumber (f r) = prNumber r
             /\ prUrl (f r) = prUrl r /\ branch (f r) = branch r
             /\ (status (f r) = status r \/ status (f r) = merged)) ->
  keeps (update_review k f).
Proof.
  intros Hf w (Tw & Ts & Tb). unfold update_review. rewrite bind_run.
  cbn [gets].
  destruct (map_get k (pendingReviews w)) as [r|] eqn:G; [|now split].
  cbn [set_pendingReviews snd]. unfold tidy. cbn [pendingReviews reviewIdCounter].
  rewrite (map_set_present _ _ _ _ G). split; [|now split].
  apply map_set_well_formed; [|exact Tw].
  pose proof (proj1 (Forall_forall _ _) Tw _ (map_get_entry _ _ _ G))
    as (W1 & W2 & W3 & W4 & W5).
  destruct (Hf r) as (F1 & F2 & F3 & F4 & F5). cbn [fst snd] in *.
  unfold well_formed. cbn [fst snd]. rewrite F1, F2, F3, F4.
  repeat split; try assumption.
  destruct F5 as [-> | ->]; [assumption | discriminate].
Qed.

(** Issuing an id and storing a well-formed review under it. *)
Lemma keeps_create {A} (mk : Z -> Z -> Review) (k : Z -> Z -> M A) :
  (forall i t, well_formed (i, mk i t)) ->
  (forall i t, keeps (k i t)) ->
  keeps (bind next_review_id (fun i =>
         bind now (fun t =>
         bind (store_review (mk i t)) (fun _ => k i t)))).
Proof.
  intros Hmk Hk w (Tw & Ts & Tb).
  rewrite bind_run. cbn [next_review_id]. rewrite bind_run. cbn [now].
  rewrite bind_run. cbn [store_review]. apply Hk.
  pose proof (Hmk (reviewIdCounter w) (clock (clock_reads w))) as W.
  assert (I : id (mk (reviewIdCounter w) (clock (clock_reads w)))
              = reviewIdCounter w) by exact (proj1 W).
  assert (N : ~ In (reviewIdCounter w) (map_keys (pendingReviews w))).
  { intros H. apply Tb in H. lia. }
  unfold tidy. cbn [pendingReviews reviewIdCounter clock_reads tick].
  rewrite I.
  rewrite (map_set_fresh _ _ _ N). unfold map_keys. rewrite map_app.
  split; [|split].
  - apply Forall_app. split; [exact Tw|].
    constructor; [exact W | constructor].
  - apply sorted_snoc; [exact Ts | exact Tb].
  - intros j Hj. apply in_app_or in Hj. destruct Hj as [Hj|[<-|[]]].
    + apply Tb in Hj. lia.
    + simpl. lia.
Qed.

Ltac keep_leaf := fail.

(** Takes a goal [keeps m] apart along the structure of [m]. *)
Ltac keep :=
  repeat first
    [ solve [simple apply keeps_silent; silence]
    | simple apply keeps_set_accessLevel
    | simple apply keeps_clear_reviews
    | simple apply keeps_update_review;
      solve [intro; cbn [with_status with_files id prNumber prUrl branch
                         status]; auto 10]
    | simple apply keeps_requireAdmin
    | keep_leaf
    | match goal with
      | |- keeps (bind next_review_id (fun i => bind now (fun t =>
             bind (store_review (@?mk i t)) (fun _ => @?k i t)))) =>
          apply (keeps_create mk k);
          [solve [intros; unfold well_formed; cbn; repeat split;
                  discriminate]|]
      end
    | simple apply keeps_bind | simple apply keeps_try_catch
    | match goal with
      | |- forall _, _ => intro
      | |- keeps (match ?x with _ => _ end) => destruct x
      | |- keeps (if ?x then _ else _) => destruct x
      | |- keeps (let '(_, _) := ?x in _) => destruct x
      end
    | progress cbv beta zeta ].

Lemma keeps_handleMediumAccess (changedFiles : list string) :
  keeps (handleMediumAccess changedFiles).
Proof. unfold handleMediumAccess. keep. Qed.

Ltac keep_leaf ::= simple apply keeps_handleMediumAccess.

Lemma keeps_run {A} (m : M A) (w : World) :
  keeps m -> tidy w -> tidy (snd (m w)).
Proof. intros K. apply K. Qed.

Lemma handle_keeps (req : Request) (w : World) :
  tidy w -> tidy (snd (handle req w)).
Proof.
  destruct req; cbn [handle]; rewrite ?respond_snd;
    try apply keeps_run.
  - apply keeps_silent. unfold get_status. silence.
  - apply keeps_silent. unfold get_reviews. silence.
  - apply keeps_silent. unfold get_review. silence.
  - unfold post_review_approve. keep.
  - unfold post_review_edit. keep.
  - unfold post_webhook. keep.
  - unfold post_trigger. keep.
  - assert (K : keeps on_trigger_timeout)
      by (unfold on_trigger_timeout; keep).
    intros T. specialize (K w T).
    now destruct (on_trigger_timeout w) as [[r|e] w'].
  - unfold post_reset. keep.
  - unfold post_access_level. keep.
  - unfold get_analyze. keep.
  - unfold get_analyze_stream. keep.
  - unfold post_fix_gaps. keep.
Qed.

Lemma run_keeps (reqs : list Request) (w : World) :
  tidy w -> tidy (run reqs w).
Proof.
  revert w; induction reqs as [|req reqs IH]; intros w T; [exact T|].
  apply IH. exact (handle_keeps req w T).
Qed.

Lemma initial_tidy : tidy initial_world.
Proof. split; [constructor|]. split; [constructor|]. intros k []. Qed.

Lemma filter_sorted {A} (f : A -> Z) (p : A -> bool) (l : list A) :
  StronglySorted Z.lt (map f l) -> StronglySorted Z.lt (map f (filter p l)).
Proof. clear.
  induction l as [|x l IH]; simpl; intros S; [constructor|].
  inversion S as [|? ? S' F]; subst.
  destruct (p x); simpl; [|now apply IH].
  constructor; [now apply IH|].
  apply Forall_forall. intros y Hy. apply in_map_iff in Hy.
  destruct Hy as (z & <- & Hz). apply filter_In in Hz.
  apply (proj1 (Forall_forall _ _) F). apply in_map. exact (proj1 Hz).
Qed.

(** X9: whatever requests the server has served, every review of the
    store is filed under its own id, has a pull-request number, a
    pull-request URL and a branch, and is pending or merged (the
    status [approved] is never given); the store keeps the reviews in
    the order of their ids, and that is the order in which
    [GET /reviews] lists the pending ones. *)
Theorem stored_reviews_are_well_formed (reqs : list Request) :
  let w := run reqs initial_world in
  (forall k r,
      map_get k (pendingReviews w) = Some r ->
      id r = k /\ prNumber r <> None /\ prUrl r <> None
      /\ branch r <> None /\ status r <> approved)
  /\ StronglySorted Z.lt (map id (map_values (pendingReviews w)))
  /\ exists listed,
      get_reviews w
      = (Returned {| status_code := 200; body := reviews_body listed |}, w)
      /\ StronglySorted Z.lt (map id listed)
      /\ Forall (fun r => status r = pending /\ prNumber r <> None) listed.
Proof.
  intros w.
  destruct (run_keeps reqs initial_world initial_tidy) as (Tw & Ts & _).
  fold w in Tw, Ts.
  assert (S : StronglySorted Z.lt (map id (map_values (pendingReviews w)))).
  { unfold map_values. rewrite map_map.
    replace (map (fun x => id (snd x)) (pendingReviews w))
      with (map_keys (pendingReviews w)); [exact Ts|].
    unfold map_keys. apply map_ext_in. intros [k r] Hin.
    symmetry. exact (proj1 (proj1 (Forall_forall _ _) Tw _ Hin)). }
  split; [|split; [exact S|]].
  - intros k r G.
    exact (proj1 (Forall_forall _ _) Tw _ (map_get_entry _ _ _ G)).
  - eexists. split; [reflexivity|]. split; [now apply filter_sorted|].
    apply Forall_forall. intros r Hr. apply filter_In in Hr.
    destruct Hr as (Hin & Hp). split.
    + unfold is_pending in Hp. now destruct (status r).
    + unfold map_values in Hin. apply in_map_iff in Hin.
      destruct Hin as ([k r'] & <- & Hin).
      exact (proj1 (proj2 (proj1 (Forall_forall _ _) Tw _ Hin))).
Qed.

(** ** The list of changed files *)

Lemma split_comma_cons (s : string) : exists x l, split_comma s = x :: l.
Proof.
  induction s as [|c s (x & l & IH)]; simpl; [now eexists _, _|].
  destruct (Ascii.eqb c ","); [now eexists _, _|].
  rewrite IH. now eexists _, _.
Qed.

Lemma join_cons (sep x y : string) (l : list string) :
  join sep (x :: y :: l) = x ++ sep ++ join sep (y :: l).
Proof. reflexivity. Qed.

Lemma join_split_comma (s : string) : join "," (split_comma s) = s.
Proof.
  induction s as [|c s IH]; [reflexivity|]. cbn [split_comma].
  destruct (split_comma_cons s) as (x & l & E). rewrite E in IH |- *.
  destruct (Ascii.eqb_spec c ","%char) as [->|ne].
  - rewrite join_cons, IH. reflexivity.
  - destruct l as [|y l]; simpl in IH |- *; now rewrite IH.
Qed.

Lemma split_comma_free (x : string) :
  comma_free x = true -> split_comma x = [x].
Proof.
  unfold comma_free. induction x as [|c x IH]; [reflexivity|].
  cbn [list_ascii_of_string forallb split_comma]. intros H.
  apply andb_prop in H. destruct H as (Hc & Hx).
  apply negb_true_iff in Hc. rewrite Hc, (IH Hx). reflexivity.
Qed.

Lemma split_comma_app (x rest : string) :
  comma_free x = true ->
  split_comma (x ++ "," ++ rest) = x :: split_comma rest.
Proof.
  unfold comma_free. induction x as [|c x IH]; [reflexivity|].
  cbn [list_ascii_of_string forallb]. intros H.
  apply andb_prop in H. destruct H as (Hc & Hx).
  apply negb_true_iff in Hc.
  change (String c x ++ "," ++ rest) with (String c (x ++ "," ++ rest)).
  cbn [split_comma]. rewrite Hc, (IH Hx). reflexivity.
Qed.

Lemma split_comma_join (x : string) (l : list string) :
  Forall (fun f => comma_free f = true) (x :: l) ->
  split_comma (join "," (x :: l)) = x :: l.
Proof.
  revert x; induction l as [|y l IH]; intros x F;
    inversion F as [|? ? Fx Fl]; subst.
  - now apply split_comma_free.
  - rewrite join_cons, (split_comma_app _ _ Fx), (IH y Fl). reflexivity.
Qed.

Lemma split_comma_fields_free (s f : string) :
  In f (split_comma s) -> comma_free f = true.
Proof.
  revert f; induction s as [|c s IH]; intros f; cbn [split_comma].
  - intros [<-|[]]. reflexivity.
  - destruct (Ascii.eqb c ","%char) eqn:C.
    + intros [<-|H]; [reflexivity | now apply IH].
    + destruct (split_comma s) as [|x l]; [intros [<-|[]]|intros [<-|H]].
      * unfold comma_free. simpl. now rewrite C.
      * unfold comma_free. cbn [list_ascii_of_string forallb].
        rewrite C. apply (IH x). now left.
      * apply IH. now right.
Qed.

(** X10: the [changed_files] field of a webhook is read as a
    comma-separated list with the empty fields dropped: splitting
    loses nothing (joining the pieces with commas gives the field
    back), every file name obtained is non-empty and free of commas,
    and a list of such names, sent joined with commas, is received as
    it was. *)
Theorem changed_files_round_trip :
  (forall s, join "," (split_comma s) = s)
  /\ (forall s f,
         In f (filter nonempty (split_comma s)) ->
         f <> "" /\ comma_free f = true)
  /\ (forall l,
         Forall (fun f => f <> "" /\ comma_free f = true) l ->
         filter nonempty (split_comma (or_else (Some (join "," l)) "")) = l).
Proof.
  split; [exact join_split_comma|]. split.
  - intros s f H. apply filter_In in H. destruct H as (Hin & Hn).
    split; [|exact (split_comma_fields_free s f Hin)].
    intros ->. discriminate Hn.
  - intros l F.
    assert (E : or_else (Some (join "," l)) "" = join "," l).
    { unfold or_else. now destruct (String.eqb_spec (join "," l) "") as [->|]. }
    rewrite E. destruct l as [|x l]; [reflexivity|].
    rewrite split_comma_join.
    + apply forallb_filter_id. apply forallb_forall. intros f Hf.
      destruct (proj1 (Forall_forall _ _) F f Hf) as (Hn & _).
      unfold nonempty. now destruct (String.eqb_spec f "").
    + apply Forall_forall. intros f Hf.
      exact (proj2 (proj1 (Forall_forall _ _) F f Hf)).
Qed.

(** ** The batch of a fix request *)

Lemma NoDup_map_filter {A B} (f : A -> B) (p : A -> bool) (l : list A) :
  NoDup (map f l) -> NoDup (map f (filter p l)).
Proof. clear.
  induction l as [|x l IH]; simpl; intros N; [constructor|].
  inversion N as [|? ? Hn N']; subst.
  destruct (p x); simpl; [|now apply IH].
  constructor; [|now apply IH].
  intros H. apply Hn. apply in_map_iff in H. destruct H as (y & E & Hy).
  apply filter_In in Hy. rewrite <- E. apply in_map. exact (proj1 Hy).
Qed.

Lemma filter_length_le {A} (p : A -> bool) (l : list A) :
  (List.length (filter p l) <= List.length l)%nat.
Proof. clear.
  induction l as [|x l IH]; simpl; [lia|]. destruct (p x); simpl; lia.
Qed.

Lemma predetermined_ids_distinct : NoDup (map Gaps.id PREDETERMINED_GAPS).
Proof.
  repeat (constructor;
          [simpl; intros H;
           repeat (destruct H as [H|H]; [discriminate H|]); exact H|]).
  constructor.
Qed.

(** X11: the batch of a fix request depends only on which gap ids the
    request names: the order of [gapIds], repetitions in it and entries
    that are not strings make no difference.  The batch lists each gap
    at most once, in the order of the static table. *)
Theorem select_gaps_ignores_order_and_repeats (ids ids' : list Json) :
  (forall s, In (JStr s) ids <-> In (JStr s) ids') ->
  select_gaps ids = select_gaps ids'
  /\ NoDup (map Gaps.id (select_gaps ids))
  /\ (List.length (select_gaps ids) <= List.length PREDETERMINED_GAPS)%nat.
Proof.
  intros H. split; [|split].
  - unfold select_gaps. apply filter_ext. intros g.
    apply eq_true_iff_eq. rewrite !includes_In. apply H.
  - apply NoDup_map_filter, predetermined_ids_distinct.
  - apply filter_length_le.
Qed.

Lemma predetermined_plain_replacements :
  Forall (fun g => JsString.plain_replacement
                     (Gaps.after (Gaps.suggested_fix g)) = true)
         PREDETERMINED_GAPS.
Proof. repeat constructor. Qed.

(** X12: no replacement text of the static table holds a dollar
    pattern, so for every gap a fix request can select, applying the
    fix replaces the first occurrence of the [before] text by the
    [after] text as it is written. *)
Theorem selected_fixes_are_literal
  (ids : list Json) (g : DocGap) (currentContent pre post : string) :
  In g (select_gaps ids) ->
  JsString.first_occurrence (Gaps.before (Gaps.suggested_fix g))
                            currentContent pre post ->
  applyGapFix g currentContent
  = pre ++ Gaps.after (Gaps.suggested_fix g) ++ post.
Proof.
  intros Hin F. apply filter_In in Hin. destruct Hin as (Hin & _).
  pose proof (proj1 (Forall_forall _ _) predetermined_plain_replacements
                g Hin) as P.
  unfold applyGapFix, JsString.replace.
  rewrite (first_occurrence_split _ _ _ _ F).
  now rewrite GetSubstitution_plain.
Qed.

(** ** The progress schedule, for any step *)




(** ** Committing a file *)

(** X14: [commitFile] makes two remote calls: a read of the file on
    the branch, whose failure it swallows, and the write.  The write
    carries the sha the read gave, or none when the read failed or
    gave none (the service then takes the write for a creation); and
    [commitFile] throws exactly when the write is rejected. *)
Theorem commitFile_reads_then_writes
  (owner repo path text message branch : string) (w : World) :
  exists read_ok s write_ok,
    calls (snd (commitFile owner repo path text message branch w))
    = (calls w
       ++ [(repos_getContent owner repo path branch, read_ok);
           (repos_createOrUpdateFileContents owner repo path message text s
              branch, write_ok)])%list
    /\ (fst (commitFile owner repo path text message branch w) = Returned tt
        <-> write_ok = true)
    /\ match octokit (calls w) (repos_getContent owner repo path branch) with
       | inr data =>
           read_ok = true
           /\ s = match sha data with
                  | Some s' => if String.eqb s' "" then None else Some s'
                  | None => None
                  end
       | inl _ => read_ok = false /\ s = None
       end.
Proof.
  unfold commitFile, getFileSha. run.
  destruct (octokit (calls w) (repos_getContent owner repo path branch))
    as [e|data]; run;
    match goal with
    | |- context [octokit ?h ?c] => destruct (octokit h c) as [e'|[]]
    end; cbn [fst snd calls log_call]; rewrite <- app_assoc;
    eexists _, _, _; (split; [reflexivity|]); split; try (now split);
    split; congruence.
Qed.

(** ** The webhook secret *)



(** ** The trigger *)

Lemma calling_post_trigger (authorization : option string) :
  calling demo_code_call (post_trigger authorization).
Proof. unfold post_trigger. trace. Qed.

Lemma silent_post_trigger (authorization : option string) :
  silent (post_trigger authorization).
Proof.
  unfold post_trigger.
  destruct (requireAdmin_cases authorization
              (broadcast DEMO_STARTED ;;
               try_catch
                 (commitFile PRODUCT_REPO_OWNER PRODUCT_REPO
                    "src/routes/users.ts" DEMO_CODE_AFTER
                    "feat: add user update and delete endpoints, rate limiting"
                    "main" ;;
                  broadcast (CODE_PUSHED "src/routes/users.ts") ;;
                  level <- gets accessLevel ;;
                  json (triggered_body level))
                 (fun message => status_json 500 (error_body message))))
    as [-> | ->]; silence.
Qed.

(** X16: [POST /trigger] itself only pushes the demo code: it changes
    neither the store nor the counter nor the access level, and its
    remote calls are the read and the commit of
    [src/routes/users.ts] on the main line of the product repository.
    When it answers 200 the commit of [DEMO_CODE_AFTER] was
    accepted and the body reports the access level in force; the
    documentation is touched only later, by the timer callback. *)
Theorem trigger_only_pushes_the_demo_code
  (authorization : option string) (w : World) :
  pendingReviews (snd (post_trigger authorization w)) = pendingReviews w
  /\ reviewIdCounter (snd (post_trigger authorization w)) = reviewIdCounter w
  /\ accessLevel (snd (post_trigger authorization w)) = accessLevel w
  /\ exists done,
      calls (snd (post_trigger authorization w)) = (calls w ++ done)%list
      /\ Forall (fun entry => demo_code_call (fst entry) = true) done
      /\ forall r,
          fst (post_trigger authorization w) = Returned r ->
          status_code r = 200 ->
          body r = triggered_body (accessLevel w)
          /\ exists read s,
              done
              = [read;
                 (repos_createOrUpdateFileContents PRODUCT_REPO_OWNER
                    PRODUCT_REPO "src/routes/users.ts"
                    "feat: add user update and delete endpoints, rate limiting"
                    DEMO_CODE_AFTER s "main", true)].
Proof.
  destruct (silent_post_trigger authorization w) as (Sp & Sc & Sa & _).
  split; [exact Sp|]. split; [exact Sc|]. split; [exact Sa|].
  destruct (calling_post_trigger authorization w) as (done & E & F).
  exists done. split; [exact E|]. split; [exact F|].
  intros r R S.
  destruct (post_trigger authorization w) as [[r'|e] w'] eqn:H;
    [|discriminate R]. injection R as ->. cbn [snd] in E.
  unfold post_trigger in H.
  match type of H with
  | requireAdmin _ ?next _ = _ =>
      destruct (requireAdmin_cases authorization next) as [G|G];
        rewrite G in H; clear G
  end; [|injection H as <- _; discriminate S].
  apply bind_returned in H. destruct H as ([] & w1 & H1 & H).
  assert (A1 : accessLevel w1 = accessLevel w)
    by (injection H1 as <-; reflexivity).
  apply broadcast_returned in H1.
  rewrite try_catch_run in H.
  match type of H with
  | (match ?b w1 with _ => _ end) = _ => destruct (b w1) as [[r0|e] w2] eqn:B
  end; [|injection H as <- _; discriminate S].
  injection H as -> ->.
  apply bind_returned in B. destruct B as ([] & w3 & H3 & B).
  pose proof (silent_commitFile PRODUCT_REPO_OWNER PRODUCT_REPO
                "src/routes/users.ts" DEMO_CODE_AFTER
                "feat: add user update and delete endpoints, rate limiting"
                "main" w1) as (_ & _ & A3 & _).
  rewrite H3 in A3. cbn [snd] in A3.
  apply commitFile_returned in H3. destruct H3 as (read & s & H3).
  apply bind_returned in B. destruct B as ([] & w4 & H4 & B).
  assert (A4 : accessLevel w4 = accessLevel w3)
    by (injection H4 as <-; reflexivity).
  apply broadcast_returned in H4.
  injection B as <- <-. cbn [body]. split.
  - now rewrite A4, A3, A1.
  - exists read, s. apply (app_inv_head (calls w)).
    rewrite <- E, H4, H3, H1. reflexivity.
Qed.

(** ** A reset that goes through *)

Lemma commitFile_run (owner repo path text message branch : string)
  (w : World) :
  dependable ->
  exists w' read s,
    commitFile owner repo path text message branch w = (Returned tt, w')
    /\ calls w'
       = (calls w
          ++ [read;
              (repos_createOrUpdateFileContents owner repo path message text
                 s branch, true)])%list
    /\ events w' = events w.
Proof.
  intros D. unfold commitFile, getFileSha. run.
  destruct (octokit (calls w) (repos_getContent owner repo path branch))
    as [e|data]; run;
    match goal with
    | |- context [octokit ?h ?c] =>
        destruct (D h c eq_refl) as [[] ->]
    end; eexists _, _, _; (split; [reflexivity|]);
    cbn [calls events log_call]; rewrite <- app_assoc; split; reflexivity.
Qed.

Lemma commits_run (owner repo message branch : string)
  (l : list (string * string)) (w : World) :
  dependable ->
  exists w' done,
    for_each l (fun '(path, text) =>
                  commitFile owner repo path text message branch) w
    = (Returned tt, w')
    /\ calls w' = (calls w ++ done)%list
    /\ events w' = events w.
Proof.
  intros D. revert w; induction l as [|[p t] l IH]; intros w; cbn [for_each].
  - exists w, []. now rewrite app_nil_r.
  - destruct (commitFile_run owner repo p t message branch w D)
      as (w1 & read & s & E1 & C1 & V1).
    destruct (IH w1) as (w2 & done & E2 & C2 & V2).
    rewrite bind_run, E1, E2. eexists _, _. split; [reflexivity|].
    split; [rewrite C2, C1, <- app_assoc; reflexivity | congruence].
Qed.

Lemma closes_run (prs : list PullRequest) (w : World) :
  dependable ->
  exists w' done,
    for_each prs (fun pr =>
      request (pulls_update DOCS_REPO_OWNER DOCS_REPO (number pr) "closed") ;;
      broadcast (PR_CLOSED (number pr))) w
    = (Returned tt, w')
    /\ calls w' = (calls w ++ done)%list
    /\ (forall pr, In pr prs ->
          In (pulls_update DOCS_REPO_OWNER DOCS_REPO (number pr) "closed",
              true) done)
    /\ map fst (events w')
       = (map fst (events w)
          ++ map (fun pr => PR_CLOSED (number pr)) prs)%list.
Proof.
  intros D. revert w; induction prs as [|pr prs IH]; intros w; cbn [for_each].
  - exists w, []. rewrite !app_nil_r. repeat split. intros ? [].
  - rewrite bind_run, bind_run, request_run.
    destruct (D (calls w)
                (pulls_update DOCS_REPO_OWNER DOCS_REPO (number pr) "closed")
                eq_refl) as [[] ->].
    run.
    match goal with
    | |- context [for_each prs ?body ?w0] =>
        destruct (IH w0) as (w2 & done & E2 & C2 & U2 & V2)
    end.
    rewrite E2. eexists _, _. split; [reflexivity|].
    cbn [calls events log_event tick log_call] in C2, V2.
    split; [rewrite C2, <- app_assoc; reflexivity|]. split.
    + intros pr' [<-|H]; [now left | right; now apply U2].
    + rewrite V2, map_app, <- app_assoc. reflexivity.
Qed.

(** X17: on a service that resolves every call other than the read
    of a file, a reset that passes the guard is answered 200.  It lists the open
    pull requests first and closes every one of them: each close is
    accepted by the service and announced by a [PR_CLOSED] broadcast,
    between [RESET_STARTED] and [DEMO_RESET]. *)
Theorem reset_closes_open_pull_requests
  (authorization : option string) (w : World) :
  dependable ->
  ~ turned_away authorization ->
  exists prs done w',
    octokit (calls w) (pulls_list DOCS_REPO_OWNER DOCS_REPO "open") = inr prs
    /\ post_reset authorization w
       = (Returned {| status_code := 200; body := success_body |}, w')
    /\ calls w'
       = (calls w
          ++ (pulls_list DOCS_REPO_OWNER DOCS_REPO "open", true) :: done)%list
    /\ (forall pr, In pr prs ->
          In (pulls_update DOCS_REPO_OWNER DOCS_REPO (number pr) "closed",
              true) done)
    /\ map fst (events w')
       = (map fst (events w)
          ++ RESET_STARTED :: map (fun pr => PR_CLOSED (number pr)) prs
          ++ [DEMO_RESET])%list.
Proof.
  intros D A. unfold post_reset. rewrite (requireAdmin_pass _ _ A).
  destruct (D (calls w) (pulls_list DOCS_REPO_OWNER DOCS_REPO "open") eq_refl)
    as [prs Hprs].
  exists prs. run. rewrite Hprs.
  rewrite bind_run.
  match goal with
  | |- context [for_each prs ?body ?w0] =>
      destruct (closes_run prs w0 D) as (w2 & d2 & E2 & C2 & U2 & V2)
  end.
  rewrite E2, bind_run.
  destruct (commits_run DOCS_REPO_OWNER DOCS_REPO
              "chore: reset to initial state" "main" INITIAL_DOCS w2 D)
    as (w3 & d3 & E3 & C3 & V3).
  rewrite E3, bind_run.
  destruct (commitFile_run PRODUCT_REPO_OWNER PRODUCT_REPO
              "src/routes/users.ts" DEMO_CODE_BEFORE
              "chore: reset to initial state" "main" w3 D)
    as (w4 & read & s & E4 & C4 & V4).
  rewrite E4. run.
  eexists _, _. split; [reflexivity|]. split; [reflexivity|].
  cbn [calls events log_call log_event tick] in C2, V2 |- *.
  split; [|split].
  - rewrite C4, C3, C2, <- !app_assoc. reflexivity.
  - intros pr Hpr. apply in_or_app. left. now apply U2.
  - rewrite map_app, V4, V3, V2, map_app, <- !app_assoc. reflexivity.
Qed.

(** ** What a fix request commits *)

Lemma distinct_snoc (l : list string) (p : string) :
  distinct (l ++ [p])
  = if existsb (String.eqb p) (distinct l) then distinct l
    else (distinct l ++ [p])%list.
Proof. clear. unfold distinct. now rewrite fold_left_app. Qed.

Lemma existsb_eqb_In (p : string) (l : list string) :
  existsb (String.eqb p) l = true <-> In p l.
Proof. clear.
  rewrite existsb_exists. split.
  - intros (x & Hx & E). apply String.eqb_eq in E. now subst.
  - intros H. exists p. split; [exact H | apply String.eqb_refl].
Qed.

Lemma distinct_In (l : list string) (p : string) :
  In p (distinct l) <-> In p l.
Proof. clear.
  revert p. induction l as [|x l IH] using rev_ind; intros p; [reflexivity|].
  rewrite distinct_snoc, in_app_iff.
  destruct (existsb (String.eqb x) (distinct l)) eqn:X.
  - apply existsb_eqb_In in X. rewrite IH in X |- *. simpl.
    intuition congruence.
  - rewrite in_app_iff, IH. reflexivity.
Qed.

Lemma distinct_NoDup (l : list string) : NoDup (distinct l).
Proof. clear.
  induction l as [|x l IH] using rev_ind; [constructor|].
  rewrite distinct_snoc.
  destruct (existsb (String.eqb x) (distinct l)) eqn:X; [exact IH|].
  apply NoDup_app; [exact IH | repeat constructor; intros [] |].
  intros y Hy [<-|[]]. apply existsb_eqb_In in Hy. congruence.
Qed.

Lemma own_get_map {A} (F : string -> A) (names : list string) (k : string) :
  own_get k (map (fun p => (p, F p)) names)
  = if existsb (String.eqb k) names then Some (F k) else None.
Proof. clear.
  induction names as [|x l IH]; [reflexivity|]. simpl.
  destruct (String.eqb_spec k x) as [->|ne]; [reflexivity | exact IH].
Qed.

Lemma obj_set_map {A} (F F' : string -> A) (names : list string)
  (k : string) :
  NoDup names ->
  In k names ->
  (forall p, p <> k -> F' p = F p) ->
  obj_set k (F' k) (map (fun p => (p, F p)) names)
  = map (fun p => (p, F' p)) names.
Proof. clear.
  intros N Hin Hother. induction names as [|x l IH]; [destruct Hin|].
  inversion N as [|? ? Hx Nl]; subst.
  simpl. destruct (String.eqb_spec k x) as [->|ne].
  - f_equal. apply map_ext_in. intros p Hp. f_equal. symmetry.
    apply Hother. intros ->. contradiction.
  - rewrite (Hother x) by congruence. f_equal. apply IH; [exact Nl|].
    destruct Hin as [->|H]; [now elim ne | exact H].
Qed.

Lemma obj_set_fresh {A} (k : string) (v : A) (o : JsObject A) :
  ~ In k (keys o) -> obj_set k v o = (o ++ [(k, v)])%list.
Proof. clear.
  induction o as [|[k' v'] o IH]; simpl; intros N; [reflexivity|].
  destruct (String.eqb_spec k k') as [->|ne].
  - elim N. now left.
  - rewrite IH; [reflexivity|]. intros H. apply N. now right.
Qed.

Lemma targeting_snoc (path : string) (seen : list DocGap) (g : DocGap) :
  targeting path (seen ++ [g])
  = (targeting path seen
     ++ if String.eqb (target g) path then [g] else [])%list.
Proof. clear. unfold targeting. rewrite filter_app. reflexivity. Qed.

Lemma targeting_none (path : string) (seen : list DocGap) :
  ~ In path (map target seen) -> targeting path seen = [].
Proof. clear.
  intros N. unfold targeting. induction seen as [|g l IH]; [reflexivity|].
  simpl. destruct (String.eqb_spec (target g) path) as [E|_].
  - elim N. left. exact E.
  - apply IH. intros H. apply N. now right.
Qed.

Lemma getFileContent_served (docs : string -> string)
  (owner repo path ref : string) (w : World) :
  serves docs ->
  exists w',
    getFileContent owner repo path ref w = (Returned (Some (docs path)), w')
    /\ unchanged w w'
    /\ events w' = events w
    /\ calls w' = (calls w ++ [(repos_getContent owner repo path ref, true)])%list.
Proof.
  intros S. unfold getFileContent. run.
  destruct (S (calls w) owner repo path ref) as (_ & s & ->).
  cbn [content]. rewrite String.eqb_refl. run.
  eexists. split; [reflexivity|]. repeat split.
Qed.

(** One step of the grouping, when every file can be fetched. *)
Lemma group_gap_grouping (docs : string -> string) (seen : list DocGap)
  (g : DocGap) (w : World) :
  serves docs -> plain_path g ->
  exists w',
    group_gap (grouping docs seen) g w
    = (Returned (grouping docs (seen ++ [g])), w')
    /\ unchanged w w'
    /\ events w' = events w
    /\ exists reads,
        calls w' = (calls w ++ reads)%list
        /\ Forall (fun entry => spares_main (fst entry) = true) reads.
Proof.
  intros S P. unfold group_gap. fold (target g).
  unfold grouping. rewrite get_Own, own_get_map.
  rewrite map_app. cbn [map]. rewrite distinct_snoc.
  destruct (existsb (String.eqb (target g)) (distinct (map target seen)))
    eqn:X; cbv beta iota.
  - exists w. split; [|split; [now repeat split|split; [reflexivity|]]].
    + unfold ret. do 2 f_equal.
      rewrite <- (obj_set_map
                    (fun path => (targeting path seen, docs path))
                    (fun path => (targeting path (seen ++ [g]), docs path))
                    _ (target g)).
      * rewrite targeting_snoc, String.eqb_refl. reflexivity.
      * apply distinct_NoDup.
      * now apply existsb_eqb_In.
      * intros p Hp. rewrite targeting_snoc.
        destruct (String.eqb_spec (target g) p) as [E|_];
          [now elim Hp | now rewrite app_nil_r].
    + exists []. split; [now rewrite app_nil_r | constructor].
  - unfold plain_path in P. fold (target g) in P. rewrite P.
    rewrite bind_run.
    destruct (getFileContent_served docs DOCS_REPO_OWNER DOCS_REPO
                (target g) "main" w S) as (w' & E & U & V & C).
    rewrite E.
    destruct (String.eqb_spec (docs (target g)) "") as [Z|_];
      [now elim (proj1 (S [] "main" "main" (target g) "main"))|].
    exists w'. split; [|split; [exact U|split; [exact V|]]].
    + unfold ret. do 2 f_equal.
      assert (N : ~ In (target g) (distinct (map target seen))).
      { intros H. apply existsb_eqb_In in H. congruence. }
      rewrite obj_set_fresh
        by (unfold keys; rewrite map_map; cbn [fst]; now rewrite map_id).
      rewrite map_app. cbn [map]. f_equal.
      * apply map_ext_in. intros p Hp. rewrite targeting_snoc.
        destruct (String.eqb_spec (target g) p) as [E'|_];
          [subst p; contradiction | now rewrite app_nil_r].
      * rewrite targeting_snoc, String.eqb_refl, targeting_none;
          [reflexivity|].
        intros H. apply N. now apply distinct_In.
    + eexists. split; [exact C|]. now repeat constructor.
Qed.

Lemma group_gaps_grouping (docs : string -> string) (rest seen : list DocGap)
  (w : World) :
  serves docs -> Forall plain_path rest ->
  exists w',
    group_gaps (grouping docs seen) rest w
    = (Returned (grouping docs (seen ++ rest)), w')
    /\ unchanged w w'
    /\ events w' = events w
    /\ exists reads, calls w' = (calls w ++ reads)%list.
Proof.
  intros S. revert seen w. induction rest as [|g rest IH]; intros seen w P.
  - exists w. rewrite app_nil_r. split; [reflexivity|].
    split; [now repeat split|]. split; [reflexivity|].
    exists []. now rewrite app_nil_r.
  - inversion P as [|? ? Pg Pr]; subst.
    destruct (group_gap_grouping docs seen g w S Pg)
      as (w1 & E1 & (U1 & U2 & U3 & U4) & V1 & r1 & C1 & _).
    destruct (IH (seen ++ [g])%list w1 Pr)
      as (w2 & E2 & (W1 & W2 & W3 & W4) & V2 & r2 & C2).
    exists w2. cbn [group_gaps]. rewrite bind_run, E1, E2, <- app_assoc.
    split; [reflexivity|].
    split; [repeat split; congruence|]. split; [congruence|].
    exists (r1 ++ r2)%list. now rewrite C2, C1, app_assoc.
Qed.

Lemma fix_commits_run (branchName : string)
  (fileUpdates : JsObject (list DocGap * string)) (w : World) :
  dependable ->
  exists w' done,
    for_each fileUpdates (fun '(filePath, (_, content)) =>
      commitFile DOCS_REPO_OWNER DOCS_REPO filePath content
        ("docs: fix " ++ filePath ++ " - address documentation gaps")
        branchName ;;
      broadcast (FILE_COMMITTED filePath)) w
    = (Returned tt, w')
    /\ calls w' = (calls w ++ done)%list
    /\ (forall path gs text,
          In (path, (gs, text)) fileUpdates ->
          exists s,
            In (repos_createOrUpdateFileContents DOCS_REPO_OWNER DOCS_REPO
                  path ("docs: fix " ++ path ++ " - address documentation gaps")
                  text s branchName, true) done)
    /\ unchanged w w'.
Proof.
  intros D. revert w.
  induction fileUpdates as [|[p [gs t]] l IH]; intros w; cbn [for_each].
  - exists w, []. rewrite app_nil_r. repeat split. intros ? ? ? [].
  - rewrite bind_run, bind_run.
    destruct (commitFile_run DOCS_REPO_OWNER DOCS_REPO p t
                ("docs: fix " ++ p ++ " - address documentation gaps")
                branchName w D) as (w1 & read & s & E1 & C1 & V1).
    pose proof (silent_commitFile DOCS_REPO_OWNER DOCS_REPO p t
                  ("docs: fix " ++ p ++ " - address documentation gaps")
                  branchName w) as (S1 & S2 & S3 & S4).
    rewrite E1 in S1, S2, S3, S4 |- *. cbn [snd] in S1, S2, S3, S4.
    rewrite broadcast_run.
    match goal with
    | |- context [for_each l ?body ?w0] =>
        destruct (IH w0) as (w2 & done & E2 & C2 & H2 & (U1 & U2 & U3 & U4))
    end.
    rewrite E2. eexists _, _. split; [reflexivity|].
    cbn [calls pendingReviews reviewIdCounter accessLevel issued log_event
         tick] in C2, U1, U2, U3, U4.
    split; [rewrite C2, C1, <- app_assoc; reflexivity|]. split.
    + intros path gs' text [[= <- <- <-]|Hin].
      * exists s. apply in_or_app. left. right. now left.
      * destruct (H2 path gs' text Hin) as [s' Hs]. exists s'.
        apply in_or_app. now right.
    + repeat split; congruence.
Qed.

Lemma fixed_files_apply_fixes (docs : string -> string) (batch : list DocGap) :
  map (fun '(path, (_, content)) =>
         (path, {| before := ""; after := content |}))
      (apply_fixes (grouping docs batch))
  = fixed_files docs batch.
Proof.
  unfold fixed_files, apply_fixes, grouping. rewrite !map_map.
  apply map_ext. intros path. reflexivity.
Qed.

(** X18: when every file can be fetched and the service resolves
    every other call, a fix request that passes the guard with a batch
    that is not empty is answered 200 and stores a pending review
    under the next id.  The review holds one entry per distinct target
    file, in the order in which the files first appear in the batch:
    its [before] is empty and its [after] is the content fetched for
    the file with the fixes of all the gaps of the batch that target
    it applied one after the other, in the order of the static table.
    Each such content was committed to the branch of the review, and
    the commit was accepted. *)
Theorem fix_gaps_applies_fixes_file_by_file
  (docs : string -> string) (authorization : option string)
  (ids : list Json) (w : World) :
  serves docs ->
  dependable ->
  ~ turned_away authorization ->
  select_gaps ids <> [] ->
  exists pr review w' done,
    post_fix_gaps authorization (Some (JArr ids)) w
    = (Returned
         {| status_code := 200;
            body := fix_gaps_body (number pr) (html_url pr)
                      (List.length (select_gaps ids))
                      (List.length
                         (distinct (map target (select_gaps ids)))) |},
       w')
    /\ files review = fixed_files docs (select_gaps ids)
    /\ id review = reviewIdCounter w
    /\ status review = pending
    /\ prNumber review = Some (number pr)
    /\ pendingReviews w'
       = map_set (reviewIdCounter w) review (pendingReviews w)
    /\ calls w' = (calls w ++ done)%list
    /\ (forall path change,
          In (path, change) (fixed_files docs (select_gaps ids)) ->
          exists s b,
            branch review = Some b
            /\ In (repos_createOrUpdateFileContents DOCS_REPO_OWNER DOCS_REPO
                     path
                     ("docs: fix " ++ path ++ " - address documentation gaps")
                     (after change) s b, true) done).
Proof.
  intros S D A N. unfold post_fix_gaps.
  rewrite (requireAdmin_pass _ _ A), gapIds_check.
  destruct ids as [|first others]; [now elim N|].
  cbn [elements_of].
  pose proof (select_gaps_plain_paths (first :: others)) as P.
  destruct (select_gaps (first :: others)) as [|g0 gs] eqn:E; [now elim N|].
  set (batch := g0 :: gs) in *. clearbody batch. clear E N g0 gs.
  run.
  match goal with
  | |- context [group_gaps [] batch ?w0] =>
      destruct (group_gaps_grouping docs batch [] w0 S P)
        as (w1 & E1 & (U1 & U2 & U3 & U4) & V1 & r1 & C1)
  end.
  change (grouping docs []) with (@nil (string * (list DocGap * string)))
    in E1.
  cbn [app] in E1. rewrite E1. cbv zeta. run.
  destruct (D (calls w1) (git_getRef DOCS_REPO_OWNER DOCS_REPO "heads/main")
              eq_refl) as [refData ->].
  run.
  match goal with
  | |- context [octokit ?h (git_createRef ?a ?b ?c ?d)] =>
      destruct (D h (git_createRef a b c d) eq_refl) as [[] ->]
  end.
  run.
  match goal with
  | |- context [for_each (apply_fixes (grouping docs batch)) ?body ?w0] =>
      destruct (fix_commits_run
                  ("docs-fix-gaps-" ++ show_Z (clock (clock_reads w1)))
                  (apply_fixes (grouping docs batch)) w0 D)
        as (w2 & d2 & E2 & C2 & H2 & (X1 & X2 & X3 & X4))
  end.
  rewrite E2. run.
  match goal with
  | |- context [octokit ?h (pulls_create ?a ?b ?c ?d ?e ?f)] =>
      destruct (D h (pulls_create a b c d e f) eq_refl) as [pr ->]
  end.
  run.
  cbn [calls pendingReviews reviewIdCounter accessLevel issued log_event
       log_call tick] in U1, U2, C1, C2, X1, X2.
  match goal with
  | |- context [map_set _ ?r _] => exists pr, r
  end.
  eexists. eexists. split.
  { rewrite apply_fixes_keys. unfold grouping, keys.
    rewrite map_map. cbn [fst]. rewrite map_id. reflexivity. }
  cbn [files id status prNumber branch pendingReviews calls].
  split; [apply fixed_files_apply_fixes|].
  split; [congruence|]. split; [reflexivity|]. split; [reflexivity|].
  split; [rewrite X1, X2, U1, U2; reflexivity|].
  split; [rewrite C2, C1, <- !app_assoc; reflexivity|].
  intros path change Hin. rewrite <- fixed_files_apply_fixes in Hin.
  apply in_map_iff in Hin. destruct Hin as ([p [gs t]] & [= <- <-] & Hin).
  destruct (H2 p gs t Hin) as [s Hs]. eexists s, _. split; [reflexivity|].
  cbn [after]. rewrite !in_app_iff. auto.
Qed.

(** ** A review that was created *)

Lemma medium_commits_returned (branchName : string)
  (updates : JsObject FileChange) (w w' : World) :
  for_each updates (fun '(docPath, change) =>
    commitFile DOCS_REPO_OWNER DOCS_REPO docPath (after change)
      ("docs: update " ++ docPath) branchName) w
  = (Returned tt, w') ->
  unchanged w w'
  /\ exists done,
      calls w' = (calls w ++ done)%list
      /\ forall path change,
          In (path, change) updates ->
          exists s,
            In (repos_createOrUpdateFileContents DOCS_REPO_OWNER DOCS_REPO
                  path ("docs: update " ++ path) (after change) s branchName,
                true) done.
Proof.
  revert w; induction updates as [|[p c] l IH]; intros w; cbn [for_each].
  - intros [= <-]. split; [now repeat split|].
    exists []. split; [now rewrite app_nil_r | intros ? ? []].
  - intros H. apply bind_returned in H. destruct H as ([] & w1 & H1 & H2).
    pose proof (silent_commitFile DOCS_REPO_OWNER DOCS_REPO p (after c)
                  ("docs: update " ++ p) branchName w) as (S1 & S2 & S3 & S4).
    rewrite H1 in S1, S2, S3, S4. cbn [snd] in S1, S2, S3, S4.
    apply commitFile_returned in H1. destruct H1 as (read & s & E1).
    destruct (IH w1 H2) as ((U1 & U2 & U3 & U4) & done & E2 & Hin).
    split; [repeat split; congruence|].
    eexists. split.
    + rewrite E2, E1, <- app_assoc. reflexivity.
    + intros path change [[= <- <-]|Hl].
      * exists s. apply in_or_app. left. right. now left.
      * destruct (Hin path change Hl) as [s' Hs]. exists s'.
        apply in_or_app. now right.
Qed.

Lemma request_returned_world (c : Call) (d : Data c) (w w' : World) :
  request c w = (Returned d, w') -> w' = log_call c true w.
Proof.
  rewrite request_run. destruct (octokit (calls w) c); [discriminate|].
  now intros [= _ <-].
Qed.

(** What is known when the review-mode orchestrator has returned a
    review. *)
Lemma handleMediumAccess_returned (changedFiles : list string)
  (review : Review) (w w' : World) :
  handleMediumAccess changedFiles w = (Returned (Some review), w') ->
  exists b pr,
    id review = reviewIdCounter w
    /\ prNumber review = Some (number pr)
    /\ branch review = Some b
    /\ files review = collect_updates changedFiles
    /\ status review = pending
    /\ pendingReviews w'
       = map_set (reviewIdCounter w) review (pendingReviews w)
    /\ exists done,
        calls w' = (calls w ++ done)%list
        /\ forall path change,
            In (path, change) (collect_updates changedFiles) ->
            exists s,
              In (repos_createOrUpdateFileContents DOCS_REPO_OWNER DOCS_REPO
                    path ("docs: update " ++ path) (after change) s b,
                  true) done.
Proof.
  unfold handleMediumAccess. intros H.
  apply bind_returned in H. destruct H as ([] & w0 & H0 & H).
  rewrite broadcast_run in H0. injection H0 as <-.
  destruct (collect_updates changedFiles) as [|u0 us] eqn:E.
  { apply bind_returned in H. destruct H as ([] & w1 & _ & H).
    discriminate H. }
  rewrite <- E in H |- *. clear E u0 us.
  apply bind_returned in H. destruct H as (t & w1 & H1 & H).
  injection H1 as <- <-.
  apply bind_returned in H. destruct H as (refData & w2 & H2 & H).
  apply request_returned_world in H2. subst w2.
  apply bind_returned in H. destruct H as ([] & w3 & H3 & H).
  apply request_returned_world in H3. subst w3.
  apply bind_returned in H. destruct H as ([] & w4 & H4 & H).
  rewrite broadcast_run in H4. injection H4 as <-.
  apply bind_returned in H. destruct H as ([] & w5 & H5 & H).
  apply medium_commits_returned in H5.
  destruct H5 as ((U1 & U2 & U3 & U4) & d5 & C5 & Hin).
  apply bind_returned in H. destruct H as (pr & w6 & H6 & H).
  apply request_returned_world in H6. subst w6.
  rewrite !bind_run, broadcast_run in H.
  cbn [next_review_id now store_review ret reviewIdCounter pendingReviews
       clock_reads log_event log_call tick] in H.
  injection H as <- <-.
  cbn [calls pendingReviews reviewIdCounter clock_reads log_event log_call
       tick] in U1, U2, C5, Hin.
  eexists _, pr.
  cbn [id prNumber branch files status pendingReviews calls log_event
       log_call tick].
  split; [exact U2|]. split; [reflexivity|]. split; [reflexivity|].
  split; [reflexivity|]. split; [reflexivity|].
  split; [now rewrite U1, U2|].
  eexists. split.
  - rewrite C5, <- !app_assoc. reflexivity.
  - intros path change Hp. destruct (Hin path change Hp) as [s Hs].
    exists s. rewrite !in_app_iff. auto.
Qed.

(** X19: a review that the orchestrator has returned is in the
    store: it can be fetched under its id, and it is the last of the
    pending reviews listed; the store has grown by that one review. *)
Theorem created_review_can_be_fetched
  (reqs : list Request) (changedFiles : list string) (review : Review)
  (w' : World) (id_param : string) :
  handleMediumAccess changedFiles (run reqs initial_world)
  = (Returned (Some review), w') ->
  parseInt id_param = Some (id review) ->
  get_review id_param w'
  = (Returned {| status_code := 200; body := review_body review |}, w')
  /\ (exists earlier,
         get_reviews w'
         = (Returned {| status_code := 200;
                        body := reviews_body (earlier ++ [review]) |}, w'))
  /\ List.length (pendingReviews w')
     = S (List.length (pendingReviews (run reqs initial_world))).
Proof.
  intros H Hp.
  destruct (handleMediumAccess_returned _ _ _ _ H)
    as (b & pr & Hid & _ & _ & _ & Hs & Hstore & _).
  assert (Hfresh : pendingReviews w'
                   = (pendingReviews (run reqs initial_world)
                      ++ [(id review, review)])%list).
  { rewrite Hstore, Hid. apply map_set_fresh, consistent_fresh.
    apply run_consistent, initial_consistent. }
  split; [|split].
  - unfold get_review. run. unfold find_review.
    rewrite Hp, Hstore, Hid, map_get_set. reflexivity.
  - unfold get_reviews. run. rewrite Hfresh.
    unfold map_values. rewrite map_app, filter_app. cbn [map filter snd].
    unfold is_pending at 2. rewrite Hs. eexists. reflexivity.
  - rewrite Hfresh, length_app. simpl. lia.
Qed.





(** ** Requests that are refused *)


(** ** The analysis *)

Lemma count_by_severity (l : list DocGap) :
  List.length l
  = (List.length (filter (is_severity critical) l)
     + List.length (filter (is_severity high) l)
     + List.length (filter (is_severity medium) l)
     + List.length (filter (is_severity low) l))%nat.
Proof. clear.
  induction l as [|g l IH]; [reflexivity|].
  unfold is_severity in IH |- *. cbn [filter].
  destruct (Gaps.severity g); cbn [List.length]; lia.
Qed.

Lemma count_by_type (l : list DocGap) :
  List.length l
  = (List.length (filter (is_type STALENESS) l)
     + List.length (filter (is_type UNDOCUMENTED) l)
     + List.length (filter (is_type OBSOLETE) l))%nat.
Proof. clear.
  induction l as [|g l IH]; [reflexivity|].
  unfold is_type in IH |- *. cbn [filter].
  destruct (Gaps.gap_type g); cbn [List.length]; lia.
Qed.

Lemma stream_in_order :
  forallb in_order (phase1 ++ phase2 ++ phase3 ++ phase4 ++ analysis_summary)
  = true.
Proof. vm_compute. reflexivity. Qed.

Lemma silent_requireAdmin (authorization : option string)
  (next : M Response) :
  silent next -> silent (requireAdmin authorization next).
Proof.
  intros H.
  destruct (requireAdmin_cases authorization next) as [-> | ->];
    [exact H | apply silent_ret].
Qed.

Lemma quiet_get_analyze (authorization : option string) :
  calling (fun _ => false) (get_analyze authorization).
Proof. unfold get_analyze. trace. Qed.

Lemma quiet_get_analyze_stream (authorization : option string) :
  calling (fun _ => false) (get_analyze_stream authorization).
Proof. unfold get_analyze_stream. trace. Qed.

Lemma calling_nothing {A} (m : M A) (w : World) :
  calling (fun _ => false) m -> calls (snd (m w)) = calls w.
Proof.
  intros C. destruct (C w) as (done & E & F). rewrite E.
  destruct done as [|x l]; [apply app_nil_r|].
  inversion F as [|? ? Hx _]. discriminate Hx.
Qed.

(** X22: the two analysis routes read nothing and write nothing:
    they make no remote call and leave the store, the counter and the
    access level alone.  When the guard lets them through both are
    answered 200 with the same gaps and the same summary, whose counts
    by severity and by type each add up to the total; the stream sends
    its events in order (no error, steps among the four, percentages
    between 0 and 100) and ends with the result and the end mark. *)
Theorem analysis_reads_and_writes_nothing
  (authorization : option string) (w : World) :
  (forall req, req = GET_analyze authorization
               \/ req = GET_analyze_stream authorization ->
      calls (snd (handle req w)) = calls w
      /\ pendingReviews (snd (handle req w)) = pendingReviews w
      /\ reviewIdCounter (snd (handle req w)) = reviewIdCounter w
      /\ accessLevel (snd (handle req w)) = accessLevel w)
  /\ (~ turned_away authorization ->
      exists t t' sent,
        fst (get_analyze authorization w)
        = Returned {| status_code := 200;
                      body := analysis_body (analysis_result t) |}
        /\ fst (get_analyze_stream authorization w)
           = Returned {| status_code := 200;
                         body := event_stream_body
                                   (sent ++ [sse_result (analysis_result t');
                                             sse_done]) |}
        /\ forallb in_order sent = true
        /\ gaps (analysis_result t) = gaps (analysis_result t')
        /\ summary (analysis_result t) = summary (analysis_result t'))
  /\ (forall t,
         gaps (analysis_result t) = PREDETERMINED_GAPS
         /\ total (summary (analysis_result t))
            = List.length PREDETERMINED_GAPS
         /\ total (summary (analysis_result t))
            = (count_critical (by_severity (summary (analysis_result t)))
               + count_high (by_severity (summary (analysis_result t)))
               + count_medium (by_severity (summary (analysis_result t)))
               + count_low (by_severity (summary (analysis_result t))))%nat
         /\ total (summary (analysis_result t))
            = (count_STALENESS (by_type (summary (analysis_result t)))
               + count_UNDOCUMENTED (by_type (summary (analysis_result t)))
               + count_OBSOLETE (by_type (summary (analysis_result t))))%nat).
Proof.
  split; [|split].
  - intros req [-> | ->]; cbn [handle]; rewrite respond_snd.
    + split; [apply calling_nothing, quiet_get_analyze|].
      assert (S : silent (get_analyze authorization))
        by (unfold get_analyze; apply silent_requireAdmin; silence).
      destruct (S w) as (S1 & S2 & S3 & _). now repeat split.
    + split; [apply calling_nothing, quiet_get_analyze_stream|].
      assert (S : silent (get_analyze_stream authorization))
        by (unfold get_analyze_stream; apply silent_requireAdmin; silence).
      destruct (S w) as (S1 & S2 & S3 & _). now repeat split.
  - intros A. unfold get_analyze, get_analyze_stream.
    rewrite !(requireAdmin_pass _ _ A). run.
    eexists _, _, _. split; [reflexivity|]. split.
    + cbn [fst]. do 3 f_equal. rewrite !app_assoc. reflexivity.
    + split; [|split; reflexivity].
      rewrite <- !app_assoc. exact stream_in_order.
  - intros t. cbn [gaps summary total by_severity by_type count_critical
                   count_high count_medium count_low count_STALENESS
                   count_UNDOCUMENTED count_OBSOLETE analysis_result].
    unfold count. split; [reflexivity|]. split; [reflexivity|].
    split; [apply count_by_severity | apply count_by_type].
Qed.

(** ** The webhook and the access level *)

Lemma post_webhook_level (changed_files : option string) (w : World) :
  post_webhook (Some WEBHOOK_SECRET) changed_files w
  = try_catch
      ((if String.eqb (accessLevel w) "high"
        then handleHighAccess
               (filter nonempty (split_comma (or_else changed_files "")))
        else handleMediumAccess
               (filter nonempty (split_comma (or_else changed_files ""))) ;;
             ret tt) ;;
       json success_body)
      (fun message => status_json 500 (error_body message))
      (log_event (WEBHOOK_RECEIVED changed_files) (clock (clock_reads w))
         (tick w)).
Proof.
  unfold post_webhook. rewrite String.eqb_refl, bind_run, broadcast_run.
  rewrite !try_catch_run, bind_run. cbn [gets accessLevel log_event tick].
  reflexivity.
Qed.

(** X23: a webhook delivery with the right secret does what the
    access level in force says.  With the level [high] it stores no
    review and every remote call it makes is a read of, or a commit
    to, the main line of the documentation repository.  With any other
    level it leaves the main line alone: every remote call is a read,
    the creation of a branch other than main, a commit to a branch
    other than main or the opening of a pull request from such a
    branch. *)
Theorem webhook_follows_the_access_level
  (changed_files : option string) (w : World) :
  exists done,
    calls (snd (post_webhook (Some WEBHOOK_SECRET) changed_files w))
    = (calls w ++ done)%list
    /\ if String.eqb (accessLevel w) "high"
       then
         Forall (fun entry => main_line_call (fst entry) = true) done
         /\ pendingReviews
              (snd (post_webhook (Some WEBHOOK_SECRET) changed_files w))
            = pendingReviews w
         /\ reviewIdCounter
              (snd (post_webhook (Some WEBHOOK_SECRET) changed_files w))
            = reviewIdCounter w
       else
         Forall (fun entry => spares_main (fst entry) = true) done.
Proof.
  rewrite post_webhook_level.
  destruct (String.eqb (accessLevel w) "high").
  - match goal with
    | |- context [try_catch ?m ?h ?w0] =>
        assert (C : calling main_line_call (try_catch m h))
          by (apply calling_try_catch;
              [apply calling_bind;
               [apply calling_handleHighAccess | intro; apply calling_json]
              |intro; apply calling_status_json]);
        assert (S : silent (try_catch m h)) by silence;
        destruct (C w0) as (done & E & F);
        destruct (S w0) as (S1 & S2 & _)
    end.
    exists done. split; [exact E|]. split; [exact F|]. split; assumption.
  - match goal with
    | |- context [try_catch ?m ?h ?w0] =>
        assert (C : calling spares_main (try_catch m h))
          by (apply calling_try_catch;
              [apply calling_bind;
               [apply calling_bind;
                [apply calling_handleMediumAccess | intro; apply calling_ret]
               |intro; apply calling_json]
              |intro; apply calling_status_json]);
        destruct (C w0) as (done & E & F)
    end.
    exists done. split; [exact E | exact F].
Qed.

End Server.

(** ** The properties on the sample environments *)

Lemma reliable_octokit_dependable : dependable reliable_octokit.
Proof.
  intros history c R. destruct c; try discriminate R; eexists; reflexivity.
Qed.

Lemma partial_octokit_dependable : dependable partial_octokit.
Proof.
  intros history c R. destruct c; try discriminate R; eexists; reflexivity.
Qed.

Lemma default_env_open (authorization : option string) :
  ~ turned_away default_env authorization.
Proof. intros [H _]. now apply H. Qed.





Lemma getting_started_unfetchable :
  unfetchable partial_octokit "docs/getting-started.md".
Proof. intros history owner repo ref. exact I. Qed.

(** C5 as stated fails: the content of the target file of [gap_001]
    cannot be fetched, and the request for [gap_001] and [gap_002] is
    answered 200 all the same, with the one other file updated. *)
Lemma fix_gaps_succeeds_without_content :
  (exists g, In g (select_gaps [JStr "gap_001"; JStr "gap_002"])
             /\ Gaps.file (Gaps.suggested_fix g) = "docs/getting-started.md")
  /\ unfetchable partial_octokit "docs/getting-started.md"
  /\ fst (post_fix_gaps default_env partial_octokit sample_clock None
            (Some (JArr [JStr "gap_001"; JStr "gap_002"]))
            (initial_world default_env))
     = Returned
         {| status_code := 200;
            body := fix_gaps_body 1
                      "https://github.com/haritha1313/oqoqo-demo-docs/pull/1"
                      2 1 |}.
Proof.
  split; [|split].
  - eexists. split; [left; reflexivity | reflexivity].
  - exact getting_started_unfetchable.
  - vm_compute. reflexivity.
Qed.

(** C5 (amended) on the service that withholds
    [docs/getting-started.md]: two gaps, one of them on that file. *)
Lemma fix_gaps_skips_unfetched_files_witness :
  dependable partial_octokit
  /\ ~ turned_away default_env None
  /\ select_gaps [JStr "gap_001"; JStr "gap_002"] <> []
  /\ exists pr review w',
      post_fix_gaps default_env partial_octokit sample_clock None
        (Some (JArr [JStr "gap_001"; JStr "gap_002"]))
        (initial_world default_env)
      = (Returned {| status_code := 200;
                     body := fix_gaps_body (number pr) (html_url pr) 2
                               (List.length (keys (files review))) |},
         w')
      /\ ~ In "docs/getting-started.md" (keys (files review)).
Proof.
  assert (D := partial_octokit_dependable).
  assert (A := default_env_open None).
  assert (N : select_gaps [JStr "gap_001"; JStr "gap_002"] <> [])
    by discriminate.
  split; [exact D | split; [exact A | split; [exact N|]]].
  destruct (fix_gaps_skips_unfetched_files default_env partial_octokit
              sample_clock None [JStr "gap_001"; JStr "gap_002"]
              (initial_world default_env) D A N)
    as (pr & review & w' & E & _ & _ & Hu).
  exists pr, review, w'. split; [exact E|].
  apply Hu. exact getting_started_unfetchable.
Defined.

(** C6 on a review without a pull request. *)
Lemma approve_without_pull_request_witness :
  decimal_parseInt "7" = Some 7
  /\ map_get 7 (pendingReviews orphan_world) = Some orphan_review
  /\ prNumber orphan_review = None
  /\ post_review_approve default_env unreachable_octokit sample_clock
       decimal_parseInt None "7" orphan_world
     = (Returned {| status_code := 400;
                    body := error_body "No PR associated with this review" |},
        orphan_world).
Proof.
  assert (Hp : decimal_parseInt "7" = Some 7) by reflexivity.
  assert (Hg : map_get 7 (pendingReviews orphan_world) = Some orphan_review)
    by reflexivity.
  assert (Hn : prNumber orphan_review = None) by reflexivity.
  refine (conj Hp (conj Hg (conj Hn _))).
  destruct (approve_without_pull_request default_env unreachable_octokit
              sample_clock decimal_parseInt None "7" 7 orphan_review
              orphan_world Hp Hg (or_introl Hn)) as (r & E & _ & Hr).
  rewrite E, (Hr (default_env_open None)). reflexivity.
Defined.



(** C8 on the reliable service, after one review was created. *)
Lemma reset_clears_and_restores_witness :
  map_keys
    (pendingReviews
       (run default_env reliable_octokit sample_clock decimal_parseInt
          [users_webhook] (initial_world default_env)))
  = [1]
  /\ fst (post_reset default_env reliable_octokit sample_clock None
            (run default_env reliable_octokit sample_clock decimal_parseInt
               [users_webhook] (initial_world default_env)))
     = Returned {| status_code := 200; body := success_body |}
  /\ pendingReviews
       (run default_env reliable_octokit sample_clock decimal_parseInt
          [users_webhook; POST_reset None] (initial_world default_env))
     = []
  /\ fst (get_reviews
            (run default_env reliable_octokit sample_clock decimal_parseInt
               [users_webhook; POST_reset None] (initial_world default_env)))
     = Returned {| status_code := 200; body := reviews_body [] |}.
Proof.
  set (w := run default_env reliable_octokit sample_clock decimal_parseInt
              [users_webhook] (initial_world default_env)).
  set (w' := run default_env reliable_octokit sample_clock decimal_parseInt
               [users_webhook; POST_reset None] (initial_world default_env)).
  assert (H : post_reset default_env reliable_octokit sample_clock None w
              = (Returned {| status_code := 200; body := success_body |}, w'))
    by (vm_compute; reflexivity).
  destruct (reset_clears_and_restores default_env reliable_octokit
              sample_clock None w w' _ H eq_refl) as (Hp & _ & Hg & _).
  refine (conj _ (conj _ (conj Hp _))).
  - vm_compute. reflexivity.
  - now rewrite H.
  - now rewrite Hg.
Defined.


(** C10 with a secret configured, for a wrong and for the right
    header, and with none configured. *)
Lemma requireAdmin_rejects_iff_witness :
  turned_away secured_env (Some "Bearer wrong")
  /\ requireAdmin secured_env (Some "Bearer wrong") (json success_body)
     = status_json 401 (error_body "Unauthorized")
  /\ ~ turned_away secured_env (Some "Bearer s3cret")
  /\ requireAdmin secured_env (Some "Bearer s3cret") (json success_body)
     = json success_body
  /\ ADMIN_SECRET default_env = ""
  /\ requireAdmin default_env None (json success_body) = json success_body.
Proof.
  assert (T : turned_away secured_env (Some "Bearer wrong")).
  { split; [discriminate|]. right. exists "Bearer wrong".
    split; [reflexivity | discriminate]. }
  assert (N : ~ turned_away secured_env (Some "Bearer s3cret")).
  { intros [_ [H|(h & H & Hne)]]; [discriminate H|].
    injection H as <-. now apply Hne. }
  assert (E : ADMIN_SECRET default_env = "") by reflexivity.
  refine (conj T (conj _ (conj N (conj _ (conj E _))))).
  - exact (proj1 (requireAdmin_rejects_iff secured_env reliable_octokit
                    sample_clock decimal_parseInt _ _) T).
  - exact (proj1 (proj2 (requireAdmin_rejects_iff secured_env
                           reliable_octokit sample_clock decimal_parseInt
                           _ _)) N).
  - exact (proj1 (proj2 (proj2 (requireAdmin_rejects_iff default_env
                                  reliable_octokit sample_clock
                                  decimal_parseInt None (json success_body)))
                    E None (json success_body) GET_status)).
Defined.

(** ** The further properties on the sample environments *)

Lemma busy_octokit_dependable : dependable busy_octokit.
Proof.
  intros history c R. destruct c; try discriminate R; eexists; reflexivity.
Qed.

Lemma reliable_octokit_serves : serves reliable_octokit sample_docs.
Proof.
  intros history owner repo path ref. split; [discriminate|].
  eexists. reflexivity.
Qed.

(** X1 on a reset that the unreachable service fails: the answer is
    500 and the review of the store is still there. *)
Lemma failed_request_changes_nothing_witness :
  succeeded
    (fst (handle default_env unreachable_octokit sample_clock
            decimal_parseInt (POST_reset None) open_world))
  = false
  /\ pendingReviews
       (snd (handle default_env unreachable_octokit sample_clock
               decimal_parseInt (POST_reset None) open_world))
     = [(3, open_review)]
  /\ reviewIdCounter
       (snd (handle default_env unreachable_octokit sample_clock
               decimal_parseInt (POST_reset None) open_world))
     = 4.
Proof.
  assert (F : succeeded
                (fst (handle default_env unreachable_octokit sample_clock
                        decimal_parseInt (POST_reset None) open_world))
              = false) by reflexivity.
  split; [exact F|].
  destruct (failed_request_changes_nothing default_env unreachable_octokit
              sample_clock decimal_parseInt (POST_reset None) open_world F)
    as (Hp & Hc & _).
  split; [exact Hp | exact Hc].
Defined.


(** X3 on the unreachable service. *)
Lemma timer_rejection_is_unhandled_witness :
  accessLevel (initial_world default_env) <> "high"
  /\ unreachable_octokit (calls (initial_world default_env))
       (git_getRef (DOCS_REPO_OWNER default_env) (DOCS_REPO default_env)
          "heads/main")
     = inl "connect ECONNREFUSED"
  /\ exists w',
      handle default_env unreachable_octokit sample_clock decimal_parseInt
        trigger_timeout (initial_world default_env)
      = (Unhandled "connect ECONNREFUSED", w')
      /\ pendingReviews w' = [].
Proof.
  assert (L : accessLevel (initial_world default_env) <> "high")
    by discriminate.
  assert (R : unreachable_octokit (calls (initial_world default_env))
                (git_getRef (DOCS_REPO_OWNER default_env)
                   (DOCS_REPO default_env) "heads/main")
              = inl "connect ECONNREFUSED") by reflexivity.
  refine (conj L (conj R _)).
  destruct (timer_rejection_is_unhandled default_env unreachable_octokit
              sample_clock decimal_parseInt (initial_world default_env)
              "connect ECONNREFUSED" L R) as (w' & E & Hp & _).
  exists w'. exact (conj E Hp).
Defined.

(** X4 on the reliable service: the review with pull request 12 is
    merged. *)
Lemma approve_merges_pull_request_witness :
  ~ turned_away default_env None
  /\ decimal_parseInt "3" = Some 3
  /\ map_get 3 (pendingReviews open_world) = Some open_review
  /\ prNumber open_review = Some 12
  /\ 12 <> 0
  /\ exists w',
      post_review_approve default_env reliable_octokit sample_clock
        decimal_parseInt None "3" open_world
      = (Returned {| status_code := 200;
                     body := success_message_body
                               "PR merged successfully" |}, w')
      /\ map_get 3 (pendingReviews w') = Some (with_status merged open_review)
      /\ map_keys (pendingReviews w') = [3].
Proof.
  assert (A := default_env_open None).
  assert (Hp : decimal_parseInt "3" = Some 3) by reflexivity.
  assert (Hg : map_get 3 (pendingReviews open_world) = Some open_review)
    by reflexivity.
  assert (Hn : prNumber open_review = Some 12) by reflexivity.
  assert (N0 : 12 <> 0) by discriminate.
  refine (conj A (conj Hp (conj Hg (conj Hn (conj N0 _))))).
  destruct (approve_merges_pull_request default_env reliable_octokit
              sample_clock decimal_parseInt None "3" 3 12 open_review
              open_world A Hp Hg Hn N0) as (w' & E & _ & Hm & Hk & _).
  exists w'. exact (conj E (conj Hm Hk)).
Defined.

(** X5 on the reliable service: the edit is committed and recorded. *)
Lemma edit_replaces_after_witness :
  ~ turned_away default_env None
  /\ decimal_parseInt "3" = Some 3
  /\ map_get 3 (pendingReviews open_world) = Some open_review
  /\ "docs/getting-started.md" <> ""
  /\ "newer" <> ""
  /\ own_get "docs/getting-started.md" (files open_review)
     = Some {| before := "old"; after := "new" |}
  /\ exists w',
      post_review_edit default_env reliable_octokit sample_clock
        decimal_parseInt None "3" (Some "docs/getting-started.md")
        (Some "newer") open_world
      = (Returned {| status_code := 200; body := success_body |}, w')
      /\ map (fun '(k, r) => (k, files r)) (pendingReviews w')
         = [(3, [("docs/getting-started.md",
                  {| before := "old"; after := "newer" |})])].
Proof.
  assert (A := default_env_open None).
  assert (Hp : decimal_parseInt "3" = Some 3) by reflexivity.
  assert (Hg : map_get 3 (pendingReviews open_world) = Some open_review)
    by reflexivity.
  assert (Hf : "docs/getting-started.md" <> "") by discriminate.
  assert (Hc : "newer" <> "") by discriminate.
  assert (Ho : own_get "docs/getting-started.md" (files open_review)
               = Some {| before := "old"; after := "new" |}) by reflexivity.
  refine (conj A (conj Hp (conj Hg (conj Hf (conj Hc (conj Ho _)))))).
  destruct (edit_replaces_after default_env reliable_octokit sample_clock
              decimal_parseInt None "3" 3 open_review
              "docs/getting-started.md" "newer" _ open_world
              A Hp Hg Hf Hc Ho)
    as (r & w' & E & [(-> & Hs & _)|(message & -> & _)]).
  - exists w'. split; [exact E|]. rewrite Hs. reflexivity.
  - exfalso. revert E. vm_compute. discriminate.
Defined.

(** X11 on a list with a repetition, another order and an entry that
    is not a string. *)
Lemma select_gaps_ignores_order_and_repeats_witness :
  (forall s,
      In (JStr s) [JStr "gap_002"; JNum 7; JStr "gap_001"; JStr "gap_002"]
      <-> In (JStr s) [JStr "gap_001"; JStr "gap_002"])
  /\ select_gaps [JStr "gap_002"; JNum 7; JStr "gap_001"; JStr "gap_002"]
     = select_gaps [JStr "gap_001"; JStr "gap_002"]
  /\ map Gaps.id
       (select_gaps [JStr "gap_002"; JNum 7; JStr "gap_001"; JStr "gap_002"])
     = ["gap_001"; "gap_002"].
Proof.
  assert (H : forall s,
             In (JStr s)
                [JStr "gap_002"; JNum 7; JStr "gap_001"; JStr "gap_002"]
             <-> In (JStr s) [JStr "gap_001"; JStr "gap_002"]).
  { intros s. simpl. split.
    - intros [E|[E|[E|[E|[]]]]]; try discriminate E; auto.
    - intros [E|[E|[]]]; auto. }
  split; [exact H|].
  split; [|reflexivity].
  exact (proj1 (select_gaps_ignores_order_and_repeats _ _ H)).
Defined.

(** X12 on the first gap of the table. *)
Lemma selected_fixes_are_literal_witness :
  In (hd plain_gap PREDETERMINED_GAPS) (select_gaps [JStr "gap_001"])
  /\ JsString.first_occurrence
       (Gaps.before (Gaps.suggested_fix (hd plain_gap PREDETERMINED_GAPS)))
       ("# API" ++ newline ++ gap_001_before ++ newline ++ "...")
       ("# API" ++ newline) (newline ++ "...")
  /\ applyGapFix (hd plain_gap PREDETERMINED_GAPS)
       ("# API" ++ newline ++ gap_001_before ++ newline ++ "...")
     = ("# API" ++ newline) ++ gap_001_after ++ (newline ++ "...").
Proof.
  assert (Hin : In (hd plain_gap PREDETERMINED_GAPS)
                   (select_gaps [JStr "gap_001"])) by (left; reflexivity).
  assert (F : JsString.first_occurrence
                (Gaps.before
                   (Gaps.suggested_fix (hd plain_gap PREDETERMINED_GAPS)))
                ("# API" ++ newline ++ gap_001_before ++ newline ++ "...")
                ("# API" ++ newline) (newline ++ "..."))
    by (apply split_first_first; vm_compute; reflexivity).
  refine (conj Hin (conj F _)).
  exact (selected_fixes_are_literal _ _ _ _ _ Hin F).
Defined.


(** X17 on the service with two pull requests open. *)
Lemma reset_closes_open_pull_requests_witness :
  dependable busy_octokit
  /\ ~ turned_away default_env None
  /\ exists done w',
      post_reset default_env busy_octokit sample_clock None open_world
      = (Returned {| status_code := 200; body := success_body |}, w')
      /\ calls w'
         = (pulls_list (DOCS_REPO_OWNER default_env) (DOCS_REPO default_env)
              "open", true) :: done
      /\ In (pulls_update (DOCS_REPO_OWNER default_env)
               (DOCS_REPO default_env) 4 "closed", true) done
      /\ In (pulls_update (DOCS_REPO_OWNER default_env)
               (DOCS_REPO default_env) 7 "closed", true) done.
Proof.
  assert (D := busy_octokit_dependable).
  assert (A := default_env_open None).
  refine (conj D (conj A _)).
  destruct (reset_closes_open_pull_requests default_env busy_octokit
              sample_clock None open_world D A)
    as (prs & done & w' & Hl & E & C & U & _).
  injection Hl as <-.
  exists done, w'. split; [exact E|]. split; [exact C|].
  split.
  - exact (U {| number := 4;
                html_url := "https://github.com/haritha1313/oqoqo-demo-docs/pull/4" |}
             (or_introl eq_refl)).
  - exact (U {| number := 7;
                html_url := "https://github.com/haritha1313/oqoqo-demo-docs/pull/7" |}
             (or_intror (or_introl eq_refl))).
Defined.

(** X18 on the reliable service: two gaps of one file and one of
    another give a review of two files. *)
Lemma fix_gaps_applies_fixes_file_by_file_witness :
  serves reliable_octokit sample_docs
  /\ dependable reliable_octokit
  /\ ~ turned_away default_env None
  /\ select_gaps [JStr "gap_004"; JStr "gap_002"; JStr "gap_001"] <> []
  /\ exists pr review w',
      post_fix_gaps default_env reliable_octokit sample_clock None
        (Some (JArr [JStr "gap_004"; JStr "gap_002"; JStr "gap_001"]))
        (initial_world default_env)
      = (Returned {| status_code := 200;
                     body := fix_gaps_body (number pr) (html_url pr) 3 2 |},
         w')
      /\ files review
         = [("docs/getting-started.md",
             {| before := ""; after := "# Documentation" |});
            ("docs/architecture.md",
             {| before := ""; after := "# Documentation" |})]
      /\ pendingReviews w' = [(1, review)].
Proof.
  assert (S := reliable_octokit_serves).
  assert (D := reliable_octokit_dependable).
  assert (A := default_env_open None).
  assert (N : select_gaps [JStr "gap_004"; JStr "gap_002"; JStr "gap_001"]
              <> []) by discriminate.
  refine (conj S (conj D (conj A (conj N _)))).
  destruct (fix_gaps_applies_fixes_file_by_file default_env reliable_octokit
              sample_clock sample_docs None
              [JStr "gap_004"; JStr "gap_002"; JStr "gap_001"]
              (initial_world default_env) S D A N)
    as (pr & review & w' & done & E & Hf & Hi & _ & _ & Hs & _).
  exists pr, review, w'. split; [exact E|]. split.
  - rewrite Hf. vm_compute. reflexivity.
  - rewrite Hs. reflexivity.
Defined.

(** X19 on the reliable service: the first review is fetched as
    review 1. *)
Lemma created_review_can_be_fetched_witness :
  exists review w',
    handleMediumAccess default_env reliable_octokit sample_clock
      ["src/routes/users.ts"]
      (run default_env reliable_octokit sample_clock decimal_parseInt []
         (initial_world default_env))
    = (Returned (Some review), w')
    /\ decimal_parseInt "1" = Some (id review)
    /\ get_review decimal_parseInt "1" w'
       = (Returned {| status_code := 200; body := review_body review |}, w')
    /\ List.length (pendingReviews w') = 1%nat.
Proof.
  destruct (handleMediumAccess_creates default_env reliable_octokit
              sample_clock ["src/routes/users.ts"]
              (initial_world default_env) reliable_octokit_dependable
              collect_updates_demo)
    as (review & w' & E & Hid & _).
  exists review, w'.
  assert (Hp : decimal_parseInt "1" = Some (id review))
    by (rewrite Hid; reflexivity).
  refine (conj E (conj Hp _)).
  destruct (created_review_can_be_fetched default_env reliable_octokit
              sample_clock decimal_parseInt [] ["src/routes/users.ts"]
              review w' "1" E Hp) as (Hg & _ & Hl).
  exact (conj Hg Hl).
Defined.



(** ** Runs on concrete inputs *)

Example replace_first_only :
  JsString.replace "ab" "-" "12ab34ab" = "12-34ab".
Proof. reflexivity. Qed.

Example replace_patterns :
  JsString.replace "ab" "X$&Y$$Z$`$'" "12ab34ab" = "12XabY$Z1234ab34ab".
Proof. reflexivity. Qed.

Example replace_empty_pattern : JsString.replace "" "X" "abc" = "Xabc".
Proof. reflexivity. Qed.

Example split_comma_fields :
  filter nonempty (split_comma "src/routes/users.ts,,README.md,")
  = ["src/routes/users.ts"; "README.md"].
Proof. reflexivity. Qed.

Example inherited_name_is_not_mapped :
  get "toString" UPDATE_MAPPINGS = Inherited
  /\ collect_updates ["toString"; "__proto__"] = [].
Proof. split; reflexivity. Qed.

Example phase1_percentages :
  flat_map (fun e => match e with
                     | sse_progress _ _ _ _ percent => [percent]
                     | _ => []
                     end) phase1
  = [0; 3; 6; 9; 12; 15].
Proof. vm_compute. reflexivity. Qed.

Example final_progress_is_80 :
  sendProgress totalSteps "Complete" "Analysis finished" (1 # 2)
  = sse_progress 4 4 "Complete" "Analysis finished" 80.
Proof. vm_compute. reflexivity. Qed.

Example webhook_creates_review_1 :
  map (fun '(k, r) => (k, prNumber r, keys (files r), status r))
      (pendingReviews
         (run default_env reliable_octokit sample_clock decimal_parseInt
            [users_webhook] (initial_world default_env)))
  = [(1, Some 1, ["docs/getting-started.md"; "docs/how-to-guide.md"],
      pending)].
Proof. vm_compute. reflexivity. Qed.

Example approve_merges :
  map (fun '(k, r) => (k, status r))
      (pendingReviews
         (run default_env reliable_octokit sample_clock decimal_parseInt
            [users_webhook; POST_review_approve None "1"]
            (initial_world default_env)))
  = [(1, merged)].
Proof. vm_compute. reflexivity. Qed.
